(** * SampleFlow consumers: MeanValue, Histogram, Spurious_Autocovariance

    A shallow embedding of the three consumer classes of
    [include/sampleflow/consumers/] and the properties their
    documentation states about them.

    Conventions of the embedding:
    - a C++ [double] is an exact rational ([Qc], canonical rationals with
      Leibniz equality); rounding is not modelled, and a result that is
      not a finite number (a division by zero, the logarithm of a
      non-positive number) has no representation;
    - [types::sample_index] is an unsigned 64-bit counter, kept in [N]
      with its wrap-around written out;
    - [unsigned int] loop counters are bounded by [2^32];
    - every operation returns in the error monad [M]: [None] stands for
      a call that has no defined finite result (undefined behaviour such
      as an access out of range or the use of storage that was never
      written, a failed [assert], a value that is not a finite number,
      a loop that does not terminate);
    - [consume] is modelled without its [AuxiliaryData] argument, which
      the three classes ignore, and calls are sequential: the mutex each
      object holds is not part of the model. *)

From Stdlib Require Import QArith Qcanon ZArith Lia Sorted.
From stdpp Require Import base option list numbers.

Local Open Scope Qc_scope.

(** ** Part I: definitions *)

(** *** Numbers, counters and loops *)

Module Numeric.

(** The error monad of the embedding. *)
Abbreviation M := option.

(** Modelled from the spec: [types::sample_index] is declared in
    [sampleflow/types.h], which is not among the sources; the spec calls
    it "an unsigned counting type", taken here as a 64-bit [std::size_t]. *)
Definition sample_index_modulus : N := 2 ^ 64.

(** [++n] on a [sample_index]. *)
Definition sample_index_incr (n : N) : N :=
  ((n + 1) mod sample_index_modulus)%N.

(** [n - 1] on a [sample_index]. *)
Definition sample_index_decr (n : N) : N :=
  ((n + sample_index_modulus - 1) mod sample_index_modulus)%N.

(** [a / b] on two [sample_index] values: integer division. *)
Definition sample_index_div (a b : N) : M N :=
  if decide (b = 0%N) then None else Some (a / b)%N.

(** Conversion of an unsigned integer to [double]. *)
Definition to_double (n : N) : Qc := Qc_of_Z (Z.of_N n).

(** [a / b] on [double]. *)
Definition double_div (a b : Qc) : M Qc :=
  if decide (b = 0) then None else Some (a / b).

(** [a < b] on [double]. *)
Definition Qc_ltb (a b : Qc) : bool :=
  if Qclt_le_dec a b then true else false.

(** The number of values of an [unsigned int]. *)
Definition uint_modulus : N := 2 ^ 32.

(** [count] iterations of [body], the counter starting at [i]. *)
Fixpoint loop_from {S : Type} (count i : nat) (body : nat → S → M S)
    (s : S) : M S :=
  match count with
  | O => Some s
  | Datatypes.S count' =>
      s' ← body i s; loop_from count' (Datatypes.S i) body s'
  end.

(** [for (unsigned int i = 0; i < bound; ++i) body]: the counter wraps
    before it reaches a bound of [2^32] or more, and the loop does not
    end. *)
Definition for_uint {S : Type} (bound : N) (body : nat → S → M S)
    (s : S) : M S :=
  if decide (bound < uint_modulus)%N then loop_from (N.to_nat bound) 0 body s
  else None.

(** The range of [int]. *)
Definition int_min : Z := - 2 ^ 31.
Definition int_max : Z := 2 ^ 31 - 1.

(** The result of an [int] computation: undefined outside the range. *)
Definition in_int (z : Z) : M Z :=
  if decide (int_min ≤ z ≤ int_max)%Z then Some z else None.

(** [static_cast<int>(n)] for an [unsigned int] [n]. *)
Definition uint_to_int (n : N) : Z :=
  let z := (Z.of_N n mod 2 ^ 32)%Z in
  if decide (z ≤ int_max)%Z then z else (z - 2 ^ 32)%Z.

(** The integer part of a rational, rounded toward zero. *)
Definition truncate (q : Qc) : Z := Z.quot (Qnum q) (Zpos (Qden q)).

(** [static_cast<int>(q)] for a [double] [q]: truncation, undefined when
    the truncated value is not an [int]. *)
Definition double_to_int (q : Qc) : M Z := in_int (truncate q).

(** [std::exp] and [std::log] are not part of the repository and have no
    rational values; the model takes them as parameters. *)
Class Libm : Type := {
  ln : Qc → Qc;
  exp : Qc → Qc
}.

(** A stand-in with which the model runs where the values of the two
    functions do not matter. *)
Definition identity_libm : Libm := {| ln := id; exp := id |}.

(** [std::log(x)] is a finite number for positive [x] only. *)
Definition log_double `{Libm} (x : Qc) : M Qc :=
  if Qc_ltb 0 x then Some (ln x) else None.

(** [std::valarray<double>] and its element-wise operators; operands of
    different sizes are undefined behaviour. *)
Abbreviation valarray := (list Qc).

Definition valarray_binop (f : Qc → Qc → Qc) (a b : valarray)
    : M valarray :=
  if decide (length a = length b) then Some (zip_with f a b) else None.

Definition valarray_div (a : valarray) (c : Qc) : M valarray :=
  mapM (λ x, double_div x c) a.

Definition vsum (a : list Qc) : Qc := foldr Qcplus 0 a.

(** [a.sum()], undefined on an empty valarray. *)
Definition valarray_sum (a : valarray) : M Qc :=
  match a with [] => None | _ => Some (vsum a) end.

End Numeric.

Import Numeric.

(** *** mean_value.h *)

Module MeanValue.

(** What the template asks of [InputType]: default construction,
    [-=], [/=] by the sample count and [+=]. *)
Class SampleType (T : Type) : Type := {
  default_constructed : T;
  sub_assign : T → T → M T;
  div_assign : T → Qc → M T;
  add_assign : T → T → M T
}.

(** [InputType = double]. A data member of arithmetic type that the
    constructor does not mention is left with an indeterminate value
    (to read it is undefined behaviour); the model lets it be any
    number, a parameter of the instance. *)
Definition double_sample (indeterminate : Qc) : SampleType Qc := {|
  default_constructed := indeterminate;
  sub_assign := λ a b, Some (a - b);
  div_assign := double_div;
  add_assign := λ a b, Some (a + b)
|}.

(** [InputType = std::valarray<double>]; default construction gives the
    empty valarray. *)
Definition valarray_sample : SampleType valarray := {|
  default_constructed := [];
  sub_assign := valarray_binop Qcminus;
  div_assign := valarray_div;
  add_assign := valarray_binop Qcplus
|}.

Section Consumer.
Context {T : Type} {ST : SampleType T}.

Record state : Type := {
  current_mean : T;
  n_samples : N
}.

(** [MeanValue::MeanValue()] *)
Definition MeanValue : state :=
  {| current_mean := default_constructed; n_samples := 0 |}.

(** [MeanValue::consume] *)
Definition consume (st : state) (sample : T) : M state :=
  if decide (n_samples st = 0%N) then
    Some {| current_mean := sample; n_samples := 1 |}
  else
    let n := sample_index_incr (n_samples st) in
    update ← sub_assign sample (current_mean st);
    update ← div_assign update (to_double n);
    mean ← add_assign (current_mean st) update;
    Some {| current_mean := mean; n_samples := n |}.

(** [MeanValue::get] *)
Definition get (st : state) : T := current_mean st.

(** A sequence of [consume] calls, first sample first. *)
Fixpoint consume_all (st : state) (samples : list T) : M state :=
  match samples with
  | [] => Some st
  | x :: rest => st' ← consume st x; consume_all st' rest
  end.

(** The value [get] returns after each call of a sequence. *)
Fixpoint get_after_each (st : state) (samples : list T) : M (list T) :=
  match samples with
  | [] => Some []
  | x :: rest =>
      st' ← consume st x;
      later ← get_after_each st' rest;
      Some (get st' :: later)
  end.
End Consumer.

Arguments state T : clear implicits.

(** The batch formula: the sum of the samples over their number. *)
Definition batch_mean (samples : list Qc) : Qc :=
  vsum samples / to_double (N.of_nat (length samples)).

(** Component [j] of the state of an accumulator of vector samples. *)
Definition proj (j : nat) (st : state valarray) : state Qc :=
  {| current_mean := nth j (current_mean st) 0; n_samples := n_samples st |}.

(** The [j]-th components of a sequence of vector samples. *)
Definition component (j : nat) (samples : list valarray) : list Qc :=
  (λ x, nth j x 0) <$> samples.

End MeanValue.

(** *** histogram.h *)

Module Histogram.

Inductive SubdivisionScheme : Type := linear | logarithmic.

Record state : Type := {
  min_value : Qc;
  max_value : Qc;
  n_subdivisions : N;
  subdivision_scheme : SubdivisionScheme;
  bins : list N
}.

(** [Histogram::Histogram]: [bins] starts as [n_subdivisions] zeros. *)
Definition Histogram (min_value max_value : Qc) (n_subdivisions : N)
    (subdivision_scheme : SubdivisionScheme) : state :=
  {| min_value := min_value;
     max_value := max_value;
     n_subdivisions := n_subdivisions;
     subdivision_scheme := subdivision_scheme;
     bins := replicate (N.to_nat n_subdivisions) 0%N |}.

Definition set_bins (h : state) (b : list N) : state :=
  {| min_value := min_value h;
     max_value := max_value h;
     n_subdivisions := n_subdivisions h;
     subdivision_scheme := subdivision_scheme h;
     bins := b |}.

Section Consumer.
Context `{Libm}.

(** [max(0, min(static_cast<int>(n_subdivisions)-1,
                static_cast<int>(offset / (range / n_subdivisions))))],
    the expression both schemes of [bin_number] return. *)
Definition clamped_bin (h : state) (offset range : Qc) : M N :=
  width ← double_div range (to_double (n_subdivisions h));
  position ← double_div offset width;
  position ← double_to_int position;
  last ← in_int (uint_to_int (n_subdivisions h) - 1);
  Some (Z.to_N (Z.max 0 (Z.min last position))).

(** [Histogram::bin_number]; a failed [assert] has no result. *)
Definition bin_number (h : state) (value : Qc) : M N :=
  if Qc_ltb value (min_value h) then None
  else if Qc_ltb (max_value h) value then None
  else
    match subdivision_scheme h with
    | linear =>
        clamped_bin h (value - min_value h) (max_value h - min_value h)
    | logarithmic =>
        log_value ← log_double value;
        log_min ← log_double (min_value h);
        log_max ← log_double (max_value h);
        clamped_bin h (log_value - log_min) (log_max - log_min)
    end.

(** [Histogram::consume] *)
Definition consume (h : state) (sample : Qc) : M state :=
  if Qc_ltb sample (min_value h) || Qc_ltb (max_value h) sample then Some h
  else
    bin ← bin_number h sample;
    count ← bins h !! N.to_nat bin;
    Some (set_bins h (<[N.to_nat bin := sample_index_incr count]> (bins h))).

(** The end points of bin number [bin], as [get] computes them. *)
Definition bin_end_points (h : state) (bin : N) : M (Qc * Qc) :=
  let n := to_double (n_subdivisions h) in
  let next := ((bin + 1) mod uint_modulus)%N in
  match subdivision_scheme h with
  | linear =>
      let range := max_value h - min_value h in
      lo ← double_div (to_double bin * range) n;
      hi ← double_div (to_double next * range) n;
      Some (min_value h + lo, min_value h + hi)
  | logarithmic =>
      log_min ← log_double (min_value h);
      log_max ← log_double (max_value h);
      lo ← double_div (to_double bin * (log_max - log_min)) n;
      hi ← double_div (to_double next * (log_max - log_min)) n;
      Some (exp (log_min + lo), exp (log_min + hi))
  end.

(** [Histogram::get]: one triple (left end, right end, count) per bin. *)
Definition get (h : state) : M (list (Qc * Qc * N)) :=
  let indices := seq 0 (N.to_nat (n_subdivisions h)) in
  end_points ← mapM (λ bin, bin_end_points h (N.of_nat bin)) indices;
  counts ← mapM (λ bin, bins h !! bin) indices;
  Some (zip end_points counts).

Fixpoint consume_all (h : state) (samples : list Qc) : M state :=
  match samples with
  | [] => Some h
  | x :: rest => h' ← consume h x; consume_all h' rest
  end.

(** The counts [get] reports after a sequence of [consume] calls. *)
Definition counts_after (h : state) (samples : list Qc) : M (list N) :=
  h' ← consume_all h samples;
  histogram ← get h';
  Some (snd <$> (histogram : list (Qc * Qc * N))).
End Consumer.


(** Whether a sample lies within the range of the histogram. *)
Definition in_range (min_value max_value sample : Qc) : bool :=
  negb (Qc_ltb sample min_value || Qc_ltb max_value sample).


(** The configurations on which every call is defined: at least one bin
    and no more than [int] can count, a non-empty range, and a positive
    lower bound for the logarithmic scheme. *)
Definition valid_configuration (min_value max_value : Qc) (n_subdivisions : N)
    (scheme : SubdivisionScheme) : Prop :=
  (1 ≤ n_subdivisions ≤ 2 ^ 31 - 1)%N
  ∧ min_value < max_value
  ∧ (scheme = logarithmic → 0 < min_value).

(** A line of the text [write_gnuplot] produces: two numbers separated
    by a blank, or nothing. The characters [operator<<] writes for a
    number, which depend on the state of the stream, are not modelled:
    a line is kept as the numbers written on it. *)
Inductive gnuplot_line : Type :=
| point (x : Qc) (y : N)
| blank.

(** "For each bin, draw three sides of a rectangle over the x-axis". *)
Definition rectangle (bin : Qc * Qc * N) : list gnuplot_line :=
  [point bin.1.1 0; point bin.1.1 bin.2;
   point bin.1.2 bin.2; point bin.1.2 0;
   blank].

Section Output.
Context `{Libm}.

(** [Histogram::write_gnuplot], as the lines written to the stream. *)
Definition write_gnuplot (h : state) : M (list gnuplot_line) :=
  histogram ← get h;
  Some (flat_map rectangle (histogram : list (Qc * Qc * N))).
End Output.

(** The first numbers of the lines of a plot, in the order in which
    they are written. *)
Definition abscissae (lines : list gnuplot_line) : list Qc :=
  omap (λ line, match line with point x _ => Some x | blank => None end)
    lines.

(** Whether [x] lies in the bin with the end points [left] and [right]:
    a bin is closed on the left and open on the right, but for the last
    one, which is closed on both sides. *)
Definition within_bin (last : bool) (left right x : Qc) : bool :=
  negb (Qc_ltb x left)
  && (if last then negb (Qc_ltb right x) else Qc_ltb x right).

Definition count_within (last : bool) (left right : Qc)
    (samples : list Qc) : N :=
  N.of_nat (length (List.filter (within_bin last left right) samples)).

End Histogram.

(** *** spurious_autocovariance_dim_n.h *)

Module Spurious_Autocovariance.

(** An element of a [boost::numeric::ublas::matrix<double>]. Storage that
    [resize] allocated and that nothing has written yet holds no value. *)
Abbreviation cell := (option Qc).

(** A matrix, as the list of its rows. *)
Abbreviation matrix := (list (list cell)).

(** [m.resize(size1, size2)]: the elements the old and the new matrix
    have in common keep their value. *)
Definition resize (size1 size2 : N) (m : matrix) : matrix :=
  (λ i, (λ j, row ← m !! i; c ← row !! j; c) <$> seq 0 (N.to_nat size2))
    <$> seq 0 (N.to_nat size1).

(** The value of [m(i,j)]. *)
Definition read (m : matrix) (i j : nat) : M Qc :=
  row ← m !! i; c ← row !! j; c.

(** [m(i,j) = v]. *)
Definition write (m : matrix) (i j : nat) (v : Qc) : M matrix :=
  row ← m !! i; _ ← row !! j; Some (<[i := <[j := Some v]> row]> m).

Record state : Type := {
  current_mean : valarray;
  alpha : matrix;
  beta : matrix;
  current_autocovariation : matrix;
  past_sample : matrix;
  past_sample_replace : matrix;
  n_samples : N
}.

(** [Spurious_Autocovariance::Spurious_Autocovariance()] *)
Definition Spurious_Autocovariance : state :=
  {| current_mean := [];
     alpha := [];
     beta := [];
     current_autocovariation := [];
     past_sample := [];
     past_sample_replace := [];
     n_samples := 0 |}.

(** [double k=10], the length of the autocovariance tail, a local
    constant of [consume]. *)
Definition k : N := 10.

(** The branch [n_samples == 0] of [consume]. *)
Definition first_sample (st : state) (sample : valarray) : M state :=
  let size := N.of_nat (length sample) in
  let autocovariation := resize k 1 (current_autocovariation st) in
  let alpha := resize k 1 (alpha st) in
  let beta := resize k size (beta st) in
  '(autocovariation, alpha, beta) ←
    for_uint k
      (λ i '(autocovariation, alpha, beta),
         autocovariation ← write autocovariation i 0 0;
         alpha ← write alpha i 0 0;
         beta ← for_uint size (λ j beta, write beta i j 0) beta;
         Some (autocovariation, alpha, beta))
      (autocovariation, alpha, beta);
  let past := resize k size (past_sample st) in
  let past_replace := resize k size (past_sample_replace st) in
  past ← for_uint size (λ i past, x ← sample !! i; write past 0 i x) past;
  Some {| current_mean := sample;
          alpha := alpha;
          beta := beta;
          current_autocovariation := autocovariation;
          past_sample := past;
          past_sample_replace := past_replace;
          n_samples := 1 |}.

(** The body of the loop over [i] that updates [alpha(i,0)] and row [i]
    of [beta]; the two later branches of [consume] contain the same
    text. *)
Definition update_alpha_beta (sample : valarray) (past : matrix) (n : N)
    (i : nat) (ab : matrix * matrix) : M (matrix * matrix) :=
  let size := N.of_nat (length sample) in
  alphaupd ←
    for_uint size
      (λ j alphaupd,
         x ← sample !! j; p ← read past i j; Some (alphaupd + x * p))
      0;
  a ← read ab.1 i 0;
  alphaupd ← double_div (alphaupd - a) (to_double n);
  a ← read ab.1 i 0;
  alpha ← write ab.1 i 0 (a + alphaupd);
  '(_, beta) ←
    for_uint size
      (λ j '(betaupd, beta),
         u ← betaupd !! j;
         p ← read past i j;
         b ← read beta i j;
         u ← double_div (u + p - b) (to_double n);
         b ← read beta i j;
         beta ← write beta i j (b + u);
         Some (<[j := u]> betaupd, beta))
      (sample, ab.2);
  Some (alpha, beta).

(** "Save needed past values": rows [0..bound-1] of [past_sample] move
    to rows [1..bound] of [past_sample_replace], whose row 0 receives
    the sample; the result is then assigned to [past_sample]. *)
Definition shift_window (sample : valarray) (past past_replace : matrix)
    (bound : N) : M matrix :=
  let size := N.of_nat (length sample) in
  past_replace ←
    for_uint bound
      (λ i past_replace,
         for_uint size
           (λ j past_replace,
              p ← read past i j; write past_replace (i + 1) j p)
           past_replace)
      past_replace;
  for_uint size (λ j past_replace, x ← sample !! j; write past_replace 0 j x)
    past_replace.

(** "Then also update the running mean". *)
Definition update_mean (sample mean : valarray) (n : N) : M valarray :=
  update ← valarray_binop Qcminus sample mean;
  update ← valarray_div update (to_double n);
  valarray_binop Qcplus mean update.

(** The branch [n_samples < k] of [consume]. *)
Definition warm_up (st : state) (sample : valarray) : M state :=
  let n := sample_index_incr (n_samples st) in
  '(alpha, beta) ←
    for_uint (sample_index_decr n)
      (update_alpha_beta sample (past_sample st) n) (alpha st, beta st);
  past ←
    shift_window sample (past_sample st) (past_sample_replace st)
      (sample_index_decr n);
  mean ← update_mean sample (current_mean st) n;
  Some {| current_mean := mean;
          alpha := alpha;
          beta := beta;
          current_autocovariation := current_autocovariation st;
          past_sample := past;
          past_sample_replace := past;
          n_samples := n |}.

(** "Calculate autocovariance value using formula described above".
    [(n_samples-1)/(n_samples)] divides two [sample_index] values. *)
Definition recompute (sample mean : valarray) (alpha beta : matrix) (n : N)
    (autocovariation : matrix) : M matrix :=
  let size := N.of_nat (length sample) in
  for_uint k
    (λ i autocovariation,
       a ← read alpha i 0;
       autocovariation ← write autocovariation i 0 a;
       autocovariation ←
         for_uint size
           (λ j autocovariation,
              m ← mean !! j;
              b ← read beta i j;
              c ← read autocovariation i 0;
              write autocovariation i 0 (c - m * b))
           autocovariation;
       quotient ← sample_index_div (sample_index_decr n) n;
       squares ← valarray_binop Qcmult mean mean;
       total ← valarray_sum squares;
       c ← read autocovariation i 0;
       write autocovariation i 0 (c + to_double quotient * total))
    autocovariation.

(** The last branch of [consume]. *)
Definition steady_state (st : state) (sample : valarray) : M state :=
  let n := sample_index_incr (n_samples st) in
  '(alpha, beta) ←
    for_uint k (update_alpha_beta sample (past_sample st) n)
      (alpha st, beta st);
  past ←
    shift_window sample (past_sample st) (past_sample_replace st) (k - 1);
  mean ← update_mean sample (current_mean st) n;
  autocovariation ←
    recompute sample mean alpha beta n (current_autocovariation st);
  Some {| current_mean := mean;
          alpha := alpha;
          beta := beta;
          current_autocovariation := autocovariation;
          past_sample := past;
          past_sample_replace := past;
          n_samples := n |}.

(** The three parts of the algorithm. *)
Inductive phase : Type := First | WarmUp | Steady.

(** Which branch [consume] takes, from [n_samples] before the call. *)
Definition phase_of (n_samples : N) : phase :=
  if decide (n_samples = 0%N) then First
  else if decide (n_samples < k)%N then WarmUp
  else Steady.

(** [Spurious_Autocovariance::consume] *)
Definition consume (st : state) (sample : valarray) : M state :=
  match phase_of (n_samples st) with
  | First => first_sample st sample
  | WarmUp => warm_up st sample
  | Steady => steady_state st sample
  end.

(** [Spurious_Autocovariance::get] *)
Definition get (st : state) : matrix := current_autocovariation st.

Fixpoint consume_all (st : state) (samples : list valarray) : M state :=
  match samples with
  | [] => Some st
  | x :: rest => st' ← consume st x; consume_all st' rest
  end.

Global Instance state_eq_dec : EqDecision state.
Proof. solve_decision. Defined.

(** The matrix whose elements have all been written, from the list of
    its rows; the one-column matrix of a list of values. *)
Definition initialised (rows : list (list Qc)) : matrix :=
  (λ row : list Qc, Some <$> row) <$> rows.

Definition column (values : list Qc) : matrix :=
  (λ v, [Some v]) <$> values.

Definition shape (size1 size2 : nat) (m : matrix) : Prop :=
  length m = size1 ∧ Forall (λ row, length row = size2) m.

(** A list with its first [c] elements updated by [f]. *)
Definition upto {A : Type} (c : nat) (f : nat → A → A) (l : list A)
    : list A :=
  imap (λ i a, if decide (i < c)%nat then f i a else a) l.

(** **** The state as the quantities of the class documentation *)

(** The update of an average by one more value, out of [n]. *)
Definition welford (n average value : Qc) : Qc :=
  average + (value - average) / n.

(** The inner product of two vectors. *)
Definition dot (a b : list Qc) : Qc := vsum (zip_with Qcmult a b).

(** The number of samples, their mean, [alpha(l)] and [beta(l)] for the
    ten lags, the last samples (newest first) and the exported value
    for each lag. *)
Record summary : Type := {
  count : N;
  mean : list Qc;
  lag_alpha : list Qc;
  lag_beta : list (list Qc);
  window : list (list Qc);
  gamma : list Qc
}.

(** The state [st] holds the summary [s] of samples of dimension [d]:
    [alpha], [beta] and the exported matrix are written everywhere, the
    first rows of [past_sample] hold the window, and nothing is said of
    its other rows and of [past_sample_replace] but their size. *)
Definition represents (d : nat) (s : summary) (st : state) : Prop :=
  n_samples st = count s
  ∧ (1 ≤ count s < sample_index_modulus)%N
  ∧ current_mean st = mean s ∧ length (mean s) = d
  ∧ alpha st = column (lag_alpha s) ∧ length (lag_alpha s) = N.to_nat k
  ∧ beta st = initialised (lag_beta s)
  ∧ length (lag_beta s) = N.to_nat k
  ∧ Forall (λ row, length row = d) (lag_beta s)
  ∧ current_autocovariation st = column (gamma s)
  ∧ length (gamma s) = N.to_nat k
  ∧ take (length (window s)) (past_sample st) = initialised (window s)
  ∧ N.of_nat (length (window s)) = N.min (count s) k
  ∧ Forall (λ row, length row = d) (window s)
  ∧ shape (N.to_nat k) d (past_sample st)
  ∧ shape (N.to_nat k) d (past_sample_replace st).

(** After the first sample. *)
Definition first_summary (sample : valarray) : summary :=
  {| count := 1;
     mean := sample;
     lag_alpha := replicate (N.to_nat k) 0;
     lag_beta := replicate (N.to_nat k) (replicate (length sample) 0);
     window := [sample];
     gamma := replicate (N.to_nat k) 0 |}.

(** [alpha(i)] and [beta(i)] after one more sample, the [n]-th: the
    averages of the inner product and of the sum of the sample with the
    one [i+1] steps back, where the window holds that one. *)
Definition alpha_step (sample : valarray) (n : Qc) (window : list (list Qc))
    (i : nat) (a : Qc) : Qc :=
  match window !! i with
  | Some past => welford n a (dot sample past)
  | None => a
  end.

Definition beta_step (sample : valarray) (n : Qc) (window : list (list Qc))
    (i : nat) (b : list Qc) : list Qc :=
  match window !! i with
  | Some past => zip_with (welford n) b (zip_with Qcplus sample past)
  | None => b
  end.

(** What the last branch of [consume] stores for a lag: the quotient
    [(n-1)/n] is the integer one. *)
Definition exported (n : N) (mean : list Qc) (a : Qc) (b : list Qc) : Qc :=
  a - dot mean b + to_double ((n - 1) / n) * dot mean mean.

(** After one more sample in the branch [n_samples < k]: the window
    grows, the exported values stay. *)
Definition warm_up_summary (s : summary) (sample : valarray) : summary :=
  let n := (count s + 1)%N in
  {| count := n;
     mean := zip_with (welford (to_double n)) (mean s) sample;
     lag_alpha :=
       imap (alpha_step sample (to_double n) (window s)) (lag_alpha s);
     lag_beta :=
       imap (beta_step sample (to_double n) (window s)) (lag_beta s);
     window := sample :: window s;
     gamma := gamma s |}.

(** After one more sample in the last branch: the window loses its
    oldest sample and the exported values are recomputed. *)
Definition steady_state_summary (s : summary) (sample : valarray) : summary :=
  let n := (count s + 1)%N in
  let mean := zip_with (welford (to_double n)) (mean s) sample in
  let lag_alpha :=
    imap (alpha_step sample (to_double n) (window s)) (lag_alpha s) in
  let lag_beta :=
    imap (beta_step sample (to_double n) (window s)) (lag_beta s) in
  {| count := n;
     mean := mean;
     lag_alpha := lag_alpha;
     lag_beta := lag_beta;
     window := sample :: take (N.to_nat (k - 1)) (window s);
     gamma := zip_with (exported n mean) lag_alpha lag_beta |}.

(** The summary after one more sample, and after a sequence of them. *)
Definition step_summary (s : summary) (sample : valarray) : summary :=
  if decide (count s < k)%N then warm_up_summary s sample
  else steady_state_summary s sample.

Definition run_summary (s : summary) (samples : list valarray) : summary :=
  foldl step_summary s samples.

(** The closed form of the documentation for one lag, with the quotient
    [(n-1)/n] taken in the rationals. *)
Definition closed_form (n : N) (mean : list Qc) (a : Qc) (b : list Qc) : Qc :=
  a - dot mean b + (to_double (n - 1) / to_double n) * dot mean mean.

(** The state after a sequence of calls (the constructed object when
    the sequence has no defined result). *)
Definition after (samples : list valarray) : state :=
  default Spurious_Autocovariance
    (consume_all Spurious_Autocovariance samples).

(** The matrix with [size1] rows and [size2] columns, all zero. *)
Definition zeros (size1 size2 : nat) : matrix :=
  replicate size1 (replicate size2 (Some 0)).

(** The object behaves as one configured with the lag depth
    [requested]: after at least one sample [get] returns a matrix with
    that many rows and one column. *)
Definition honours_lag_depth (requested : N) : Prop :=
  ∀ (samples : list valarray) (st : state),
    samples ≠ [] →
    consume_all Spurious_Autocovariance samples = Some st →
    shape (N.to_nat requested) 1 (get st).

(** The call that brings the number of samples to [n] takes the last
    branch exactly when [threshold <= n]. *)
Definition steady_from_count (threshold : N) : Prop :=
  ∀ (samples : list valarray) (st : state),
    samples ≠ [] →
    consume_all Spurious_Autocovariance samples = Some st →
    phase_of (n_samples st) = Steady
    ↔ (threshold ≤ N.of_nat (length samples) + 1)%N.

(** **** The quantities of the class documentation, from the samples *)

(** The pairs [(x_{t+l}, x_t)], [t = 1..n-l], of the samples
    [x_1..x_n]. *)
Definition lagged_pairs (l : nat) (samples : list valarray)
    : list (valarray * valarray) :=
  zip (drop l samples) samples.

(** The sum of vectors of dimension [d]. *)
Definition vector_sum (d : nat) (vectors : list valarray) : valarray :=
  foldr (zip_with Qcplus) (replicate d 0) vectors.

(** A vector divided by the number of samples. *)
Definition over (n : nat) (v : valarray) : valarray :=
  (λ c, c / to_double (N.of_nat n)) <$> v.

(** The mean of the samples. *)
Definition sample_mean (d : nat) (samples : list valarray) : valarray :=
  over (length samples) (vector_sum d samples).

(** [alpha_n(l)], the sum of the [x_{t+l}^T x_t] over [n]. *)
Definition alpha_n (l : nat) (samples : list valarray) : Qc :=
  vsum ((λ p, dot p.1 p.2) <$> lagged_pairs l samples)
  / to_double (N.of_nat (length samples)).

(** [beta_n(l)], the sum of the [x_{t+l} + x_t] over [n]. *)
Definition beta_n (d l : nat) (samples : list valarray) : valarray :=
  over (length samples)
    (vector_sum d
       ((λ p, zip_with Qcplus p.1 p.2) <$> lagged_pairs l samples)).

(** The running sample autocovariance the class is documented to
    compute, the sum of the
    [(x_{t+l} - mean)^T (x_t - mean)] over [n]. *)
Definition autocovariance (d l : nat) (samples : list valarray) : Qc :=
  let mean := sample_mean d samples in
  vsum ((λ p, dot (zip_with Qcminus p.1 mean) (zip_with Qcminus p.2 mean))
          <$> lagged_pairs l samples)
  / to_double (N.of_nat (length samples)).

End Spurious_Autocovariance.

(** ** Part II: properties *)

(** *** Facts about the numeric layer *)

Module NumericFacts.

Lemma to_double_pos (n : N) : (0 < n)%N → 0 < to_double n.
Proof.
  intros Hn. unfold to_double.
  rewrite <- Z2Qc_inj_0. apply (proj1 (Z2Qc_inj_lt 0 (Z.of_N n))). lia.
Qed.

Lemma to_double_nonzero (n : N) : (0 < n)%N → to_double n ≠ 0.
Proof.
  intros Hn Heq. pose proof (to_double_pos n Hn) as Hpos.
  rewrite Heq in Hpos. by apply Qclt_not_eq in Hpos.
Qed.

Lemma to_double_succ (n : N) : to_double (n + 1) = to_double n + 1.
Proof.
  unfold to_double. rewrite N2Z.inj_add, Z2Qc_inj_add.
  change (Z.of_N 1) with 1%Z. by rewrite Z2Qc_inj_1.
Qed.

Lemma sample_index_incr_small (n : N) :
  (n + 1 < sample_index_modulus)%N → sample_index_incr n = (n + 1)%N.
Proof. intros Hn. unfold sample_index_incr. by apply N.mod_small. Qed.

Lemma sample_index_decr_small (n : N) :
  (1 ≤ n < sample_index_modulus)%N → sample_index_decr n = (n - 1)%N.
Proof.
  intros Hn. unfold sample_index_decr.
  replace (n + sample_index_modulus - 1)%N
    with ((n - 1) + 1 * sample_index_modulus)%N by lia.
  rewrite N.Div0.mod_add. apply N.mod_small. lia.
Qed.

Lemma sample_index_div_Some (a b : N) :
  (0 < b)%N → sample_index_div a b = Some (a / b)%N.
Proof.
  intros Hb. unfold sample_index_div. destruct (decide (b = 0%N)); [lia|done].
Qed.

Lemma valarray_binop_Some (f : Qc → Qc → Qc) (a b : valarray) :
  length a = length b → valarray_binop f a b = Some (zip_with f a b).
Proof. intros Hl. unfold valarray_binop. by destruct (decide _). Qed.

Lemma valarray_div_Some (a : valarray) (c : Qc) :
  c ≠ 0 → valarray_div a c = Some ((λ x, x / c) <$> a).
Proof.
  intros Hc. unfold valarray_div, double_div. apply mapM_Some.
  induction a as [|x a IH]; simpl; constructor; [|done].
  by destruct (decide (c = 0)).
Qed.

Lemma double_div_Some (a b : Qc) : b ≠ 0 → double_div a b = Some (a / b).
Proof. intros Hb. unfold double_div. by destruct (decide (b = 0)). Qed.

End NumericFacts.

(** *** MeanValue *)

Module MeanValueSpec.
Import NumericFacts MeanValue.

(** Runs from the constructed object, on scalar and on vector samples. *)
Local Abbreviation scalar_run q :=
  (consume_all (ST := double_sample q) (MeanValue (ST := double_sample q))).
Local Abbreviation scalar_trace q :=
  (get_after_each (ST := double_sample q) (MeanValue (ST := double_sample q))).
Local Abbreviation vector_run :=
  (consume_all (ST := valarray_sample) (MeanValue (ST := valarray_sample))).

Section Scalar.
Variable indeterminate : Qc.
Let dbl : SampleType Qc := double_sample indeterminate.
Local Existing Instance dbl.

(** One more sample keeps [current_mean * n_samples] equal to the
    running sum. *)
Lemma consume_sum (st : state Qc) (x : Qc) :
  (0 < n_samples st)%N →
  (n_samples st + 1 < sample_index_modulus)%N →
  ∃ st', consume st x = Some st'
    ∧ n_samples st' = (n_samples st + 1)%N
    ∧ current_mean st' * to_double (n_samples st')
      = current_mean st * to_double (n_samples st) + x.
Proof.
  intros Hpos Hlt. unfold consume.
  destruct (decide (n_samples st = 0%N)) as [Hz|_]; [lia|].
  rewrite (sample_index_incr_small _ Hlt). simpl.
  assert (to_double (n_samples st + 1) ≠ 0) as Hnz
    by (apply to_double_nonzero; lia).
  rewrite (double_div_Some _ _ Hnz). simpl.
  eexists. split; [reflexivity|]. split; [reflexivity|]. simpl.
  rewrite to_double_succ in *. field. exact Hnz.
Qed.

Lemma consume_all_sum (samples : list Qc) (st : state Qc) :
  (0 < n_samples st)%N →
  (n_samples st + N.of_nat (length samples) < sample_index_modulus)%N →
  ∃ st', consume_all st samples = Some st'
    ∧ n_samples st' = (n_samples st + N.of_nat (length samples))%N
    ∧ current_mean st' * to_double (n_samples st')
      = current_mean st * to_double (n_samples st) + vsum samples.
Proof.
  revert st. induction samples as [|x rest IH]; intros st Hpos Hlt.
  - exists st. simpl. split; [done|]. split; [f_equal; lia|]. ring.
  - simpl in Hlt.
    destruct (consume_sum st x Hpos) as (st1 & Hc & Hn & Hm); [lia|].
    destruct (IH st1) as (st' & Hc' & Hn' & Hm'); [lia|lia|].
    exists st'. simpl. rewrite Hc. simpl. split; [done|].
    split; [lia|]. rewrite Hm', Hm. simpl. ring.
Qed.

Lemma get_after_each_sum (samples : list Qc) (st : state Qc) :
  (0 < n_samples st)%N →
  (n_samples st + N.of_nat (length samples) < sample_index_modulus)%N →
  get_after_each st samples
  = Some ((λ i, (current_mean st * to_double (n_samples st)
                 + vsum (take (S i) samples))
                / to_double (n_samples st + N.of_nat (S i)))
          <$> seq 0 (length samples)).
Proof.
  revert st. induction samples as [|x rest IH]; intros st Hpos Hlt; [done|].
  simpl in Hlt.
  destruct (consume_sum st x Hpos) as (st1 & Hc & Hn & Hm); [lia|].
  simpl. rewrite Hc. simpl. rewrite IH by lia. simpl. f_equal. f_equal.
  - unfold get.
    replace (current_mean st * to_double (n_samples st) + (x + Q2Qc 0))
      with (current_mean st1 * to_double (n_samples st1))
      by (rewrite Hm; ring).
    rewrite Hn. change (N.of_nat 1) with 1%N.
    assert (to_double (n_samples st + 1) ≠ 0)
      by (apply to_double_nonzero; lia).
    field. done.
  - rewrite <- fmap_S_seq, <- list_fmap_compose. apply list_fmap_ext.
    intros _ i _. simpl. rewrite Hm, Hn. f_equal; [ring|].
    f_equal. lia.
Qed.
End Scalar.

(** Vector samples: component [j] of a [valarray] accumulator behaves as
    a scalar accumulator fed the [j]-th components. *)
Section Vector.
Variable indeterminate : Qc.
Local Abbreviation vstate := (state valarray).
Local Abbreviation vconsume := (@consume valarray valarray_sample).
Local Abbreviation vconsume_all := (@consume_all valarray valarray_sample).
Local Abbreviation sconsume := (@consume Qc (double_sample indeterminate)).
Local Abbreviation sconsume_all :=
  (@consume_all Qc (double_sample indeterminate)).

Lemma valarray_div_inv (a b : valarray) (c : Qc) :
  valarray_div a c = Some b →
  a = [] ∧ b = [] ∨ c ≠ 0 ∧ b = (λ x, x / c) <$> a.
Proof.
  intros Hdiv. destruct (decide (c = 0)) as [->|Hc].
  - left. destruct a as [|x a]; [by inversion Hdiv|].
    unfold valarray_div in Hdiv. simpl in Hdiv. unfold double_div in Hdiv.
    by destruct (decide (Q2Qc 0 = 0)).
  - right. split; [done|].
    rewrite (valarray_div_Some a c Hc) in Hdiv. by inversion Hdiv.
Qed.

Lemma vconsume_defined (st : vstate) (x : valarray) :
  (0 < n_samples st)%N →
  (n_samples st + 1 < sample_index_modulus)%N →
  length (current_mean st) = length x →
  ∃ st', vconsume st x = Some st'
    ∧ n_samples st' = (n_samples st + 1)%N
    ∧ length (current_mean st') = length x.
Proof.
  intros Hpos Hlt Hlen. unfold consume.
  destruct (decide (n_samples st = 0%N)) as [Hz|_]; [lia|].
  rewrite (sample_index_incr_small _ Hlt). simpl.
  rewrite valarray_binop_Some by done. simpl.
  rewrite valarray_div_Some by (apply to_double_nonzero; lia). simpl.
  rewrite valarray_binop_Some
    by (rewrite length_fmap, length_zip_with; lia).
  simpl.
  eexists. split; [reflexivity|]. split; [reflexivity|]. simpl.
  rewrite length_zip_with, length_fmap, length_zip_with. lia.
Qed.

Lemma vconsume_proj (j : nat) (st st' : vstate) (x : valarray) :
  vconsume st x = Some st' → (j < length x)%nat →
  sconsume (proj j st) (nth j x 0) = Some (proj j st').
Proof.
  unfold consume. simpl. intros Hc Hj.
  destruct (decide (n_samples st = 0%N)) as [Hz|Hnz].
  { by inversion Hc. }
  destruct (valarray_binop Qcminus x (current_mean st)) as [u|] eqn:Hsub;
    [|done].
  simpl in Hc.
  destruct (valarray_div u _) as [v|] eqn:Hdiv; [|done]. simpl in Hc.
  destruct (valarray_binop Qcplus (current_mean st) v) as [m|] eqn:Hadd;
    [|done].
  simpl in Hc. inversion Hc; subst st'; clear Hc.
  unfold valarray_binop in Hsub, Hadd.
  destruct (decide (length x = _)) as [Hlx|]; [|done].
  destruct (decide (length (current_mean st) = _)) as [Hlv|]; [|done].
  inversion Hsub; subst u; clear Hsub. inversion Hadd; subst m; clear Hadd.
  apply valarray_div_inv in Hdiv as [[Hnil _]|[Hnz' ->]].
  { apply (f_equal length) in Hnil. rewrite length_zip_with in Hnil.
    simpl in Hnil. lia. }
  rewrite (double_div_Some _ _ Hnz'). simpl. unfold proj. simpl. f_equal.
  f_equal.
  destruct (lookup_lt_is_Some_2 x j Hj) as [xj Hxj].
  destruct (lookup_lt_is_Some_2 (current_mean st) j) as [mj Hmj]; [lia|].
  rewrite (nth_lookup_Some _ _ _ _ Hxj), (nth_lookup_Some _ _ _ _ Hmj).
  symmetry. apply nth_lookup_Some.
  rewrite lookup_zip_with, Hmj. simpl.
  rewrite list_lookup_fmap, lookup_zip_with, Hxj. simpl. by rewrite Hmj.
Qed.

Lemma vconsume_all_proj (j : nat) (samples : list valarray) (st st' : vstate) :
  vconsume_all st samples = Some st' →
  Forall (λ x, (j < length x)%nat) samples →
  sconsume_all (proj j st) (component j samples) = Some (proj j st').
Proof.
  revert st. induction samples as [|x rest IH]; intros st Hc Hall.
  { simpl in *. by inversion Hc. }
  simpl in Hc. destruct (vconsume st x) as [st1|] eqn:Hc1; [|done].
  simpl in Hc. inversion Hall as [|? ? Hj Hall']; subst.
  simpl. rewrite (vconsume_proj j st st1 x Hc1 Hj). simpl. by apply IH.
Qed.

Lemma vconsume_all_defined (d : nat) (samples : list valarray) (st : vstate) :
  (0 < n_samples st)%N →
  (n_samples st + N.of_nat (length samples) < sample_index_modulus)%N →
  length (current_mean st) = d →
  Forall (λ x, length x = d) samples →
  ∃ st', vconsume_all st samples = Some st'
    ∧ length (current_mean st') = d.
Proof.
  revert st. induction samples as [|x rest IH]; intros st Hpos Hlt Hd Hall.
  { by exists st. }
  inversion Hall as [|? ? Hx Hall']; subst. simpl in Hlt.
  destruct (vconsume_defined st x) as (st1 & Hc1 & Hn1 & Hl1);
    [lia|lia|congruence|].
  destruct (IH st1) as (st' & Hc' & Hl'); [lia|lia|congruence|done|].
  exists st'. simpl. rewrite Hc1. by simpl.
Qed.
End Vector.

Lemma batch_mean_cons_take (x : Qc) (rest : list Qc) (i : nat) :
  batch_mean (take (S i) (x :: rest))
  = (x * to_double 1 + vsum (take i rest))
    / to_double (1 + N.of_nat (length (take i rest))).
Proof.
  unfold batch_mean. simpl. f_equal.
  - change (to_double 1) with (Qc_of_Z 1). rewrite Z2Qc_inj_1. ring.
  - f_equal. lia.
Qed.

(** The running mean of scalar samples against the batch formula. *)
Lemma consume_all_batch_mean (indeterminate : Qc) (samples : list Qc) :
  samples ≠ [] →
  (N.of_nat (length samples) < sample_index_modulus)%N →
  get <$> scalar_run indeterminate samples
    = Some (batch_mean samples).
Proof.
  intros Hne Hlen. destruct samples as [|x rest]; [done|]. clear Hne.
  simpl in Hlen.
  set (st1 := {| current_mean := x; n_samples := 1 |} : state Qc).
  destruct (consume_all_sum indeterminate rest st1) as (st' & Hc & Hn & Hm);
    [done|simpl; lia|].
  cbn [consume_all]. unfold consume at 1. simpl. fold st1. rewrite Hc. simpl.
  f_equal. unfold get.
  assert (to_double (n_samples st') ≠ 0) as Hnz
    by (apply to_double_nonzero; rewrite Hn; simpl; lia).
  unfold batch_mean. cbn [vsum foldr length].
  replace (N.of_nat (S (length rest))) with (n_samples st')
    by (rewrite Hn; simpl; lia).
  simpl in Hm. change (to_double 1) with (Qc_of_Z 1) in Hm.
  rewrite Z2Qc_inj_1 in Hm.
  replace (x + foldr Qcplus 0 rest)
    with (current_mean st' * to_double (n_samples st'))
    by (rewrite Hm; unfold vsum; ring).
  field. done.
Qed.

(** C2. Fed a non-empty sequence of scalar samples, [get] returns the
    arithmetic mean of the sequence as the batch formula computes it
    (in exact arithmetic), and it does so after every single call: the
    value after the [i]-th call is the batch mean of the first [i]
    samples. Fed 2, 4, 6 it returns 2, 3, 4. *)
Theorem mean_value_is_batch_mean (indeterminate : Qc) (samples : list Qc) :
  samples ≠ [] →
  (N.of_nat (length samples) < sample_index_modulus)%N →
  get <$> scalar_run indeterminate samples
    = Some (batch_mean samples)
  ∧ scalar_trace indeterminate samples
    = Some ((λ i, batch_mean (take (S i) samples)) <$> seq 0 (length samples))
  ∧ scalar_trace indeterminate
      [Qc_of_Z 2; Qc_of_Z 4; Qc_of_Z 6]
    = Some [Qc_of_Z 2; Qc_of_Z 3; Qc_of_Z 4].
Proof.
  intros Hne Hlen. destruct samples as [|x rest]; [done|]. clear Hne.
  simpl in Hlen.
  set (st1 := {| current_mean := x; n_samples := 1 |} : state Qc).
  split; [|split].
  - by apply (consume_all_batch_mean indeterminate (x :: rest)).
  - cbn [get_after_each]. unfold consume at 1. simpl. fold st1.
    rewrite (get_after_each_sum indeterminate rest st1) by (simpl; lia).
    simpl. f_equal. f_equal.
    + unfold get, batch_mean. simpl.
      change (to_double (N.of_nat 1)) with (Qc_of_Z 1).
      rewrite Z2Qc_inj_1. by field.
    + rewrite <- fmap_S_seq, <- list_fmap_compose.
      apply list_fmap_ext. intros k i Hi. simpl.
      apply lookup_seq in Hi as [-> Hi]. simpl.
      change (x :: take (S k) rest) with (take (S (S k)) (x :: rest)).
      rewrite batch_mean_cons_take. rewrite length_take_le by lia. done.
  - compute_done.
Qed.

(** The same for vector samples of a common dimension [d], in exact
    arithmetic: the run is defined and every component of the result is
    the batch mean of that component of the samples. *)
Theorem mean_value_vector_is_batch_mean (d : nat) (samples : list valarray) :
  samples ≠ [] →
  (N.of_nat (length samples) < sample_index_modulus)%N →
  Forall (λ x, length x = d) samples →
  ∃ st, vector_run samples = Some st
    ∧ length (get st) = d
    ∧ ∀ j, (j < d)%nat →
        nth j (get st) 0 = batch_mean (component j samples).
Proof.
  intros Hne Hlen Hall.
  assert (∃ st, vector_run samples = Some st
                ∧ length (get st) = d) as (st & Hc & Hd).
  { destruct samples as [|x rest]; [done|].
    inversion Hall as [|? ? Hx Hall']; subst. simpl in Hlen.
    cbn [consume_all]. unfold consume at 1. simpl.
    apply vconsume_all_defined; simpl; [done|lia|done|done]. }
  exists st. split; [done|]. split; [done|]. intros j Hj.
  assert (Forall (λ x, (j < length x)%nat) samples) as Hall'.
  { eapply List.Forall_impl; [|exact Hall]. simpl. by intros x ->. }
  pose proof (vconsume_all_proj 0 j samples _ _ Hc Hall') as Hproj.
  assert (get <$> scalar_run 0 (component j samples)
          = Some (batch_mean (component j samples))) as Hb.
  { apply consume_all_batch_mean.
    - intros Hnil. by apply fmap_nil_inv in Hnil.
    - unfold component. by rewrite length_fmap. }
  replace (proj j MeanValue) with (MeanValue (ST := double_sample 0))
    in Hproj by (unfold proj, MeanValue; simpl; by destruct j).
  rewrite Hproj in Hb. simpl in Hb. by inversion Hb.
Qed.

(** C9. The documentation of [get] promises a default-constructed
    [InputType] before the first sample. The constructor initialises
    [n_samples] only: for a class type such as [std::valarray<double>]
    the member [current_mean] is default-constructed and [get] returns
    the empty valarray, but for [InputType = double] the member is left
    uninitialised and [get] returns whatever the storage holds, which
    need not be the value [0] of a default-constructed [double]. The
    first sample overwrites it. *)
Theorem get_before_first_sample :
  get (MeanValue (ST := valarray_sample)) = []
  ∧ (∀ indeterminate : Qc,
       get (MeanValue (ST := double_sample indeterminate)) = indeterminate)
  ∧ ¬ (∀ indeterminate : Qc,
         get (MeanValue (ST := double_sample indeterminate)) = 0)
  ∧ (∀ indeterminate x : Qc,
       get <$> consume (ST := double_sample indeterminate)
                 (MeanValue (ST := double_sample indeterminate)) x
       = Some x).
Proof.
  split; [done|]. split; [done|]. split; [|done].
  intros Hzero. specialize (Hzero 1). discriminate Hzero.
Qed.

Lemma mean_value_vector_is_batch_mean_witness :
  ∃ st, vector_run [[1; Qc_of_Z 2]; [Qc_of_Z 3; Qc_of_Z 6]] = Some st
    ∧ length (get st) = 2%nat
    ∧ ∀ j, (j < 2)%nat →
        nth j (get st) 0
        = batch_mean (component j [[1; Qc_of_Z 2]; [Qc_of_Z 3; Qc_of_Z 6]]).
Proof.
  apply (mean_value_vector_is_batch_mean 2
           [[1; Qc_of_Z 2]; [Qc_of_Z 3; Qc_of_Z 6]]).
  - discriminate.
  - vm_compute. reflexivity.
  - repeat constructor.
Defined.

Lemma mean_value_is_batch_mean_witness :
  get <$> scalar_run 0 [Qc_of_Z 1; Qc_of_Z 2; Qc_of_Z 6]
  = Some (batch_mean [Qc_of_Z 1; Qc_of_Z 2; Qc_of_Z 6]).
Proof.
  apply (mean_value_is_batch_mean 0 [Qc_of_Z 1; Qc_of_Z 2; Qc_of_Z 6]).
  - discriminate.
  - vm_compute. reflexivity.
Defined.

End MeanValueSpec.

(** *** Facts about rationals, truncation and clamping *)

Module RationalFacts.
Import NumericFacts.

Lemma Qc_ltb_true (a b : Qc) : Qc_ltb a b = true ↔ a < b.
Proof.
  unfold Qc_ltb. destruct (Qclt_le_dec a b) as [Hlt|Hle]; split; try done.
  intros Hlt. by apply Qcle_not_lt in Hle.
Qed.

Lemma Qc_ltb_false (a b : Qc) : Qc_ltb a b = false ↔ b ≤ a.
Proof.
  unfold Qc_ltb. destruct (Qclt_le_dec a b) as [Hlt|Hle]; split; try done.
  intros Hle. by apply Qcle_not_lt in Hle.
Qed.


Lemma truncate_bounds (q : Qc) (z : Z) :
  0 ≤ q → q ≤ Qc_of_Z z → (0 ≤ truncate q ≤ z)%Z.
Proof.
  unfold Qcle, Qle, truncate. simpl. intros Hlo Hhi.
  assert (0 ≤ Qnum q)%Z as Hnum by lia.
  rewrite Z.quot_div_nonneg by lia. split.
  - apply Z.div_pos; lia.
  - apply Z.div_le_upper_bound; lia.
Qed.

Lemma Qcdiv_0_l (a : Qc) : 0 / a = 0.
Proof. unfold Qcdiv. ring. Qed.

Lemma Qcdiv_pos (a b : Qc) : 0 < a → 0 < b → 0 < a / b.
Proof.
  intros Ha Hb. unfold Qcdiv. apply Qcmult_pos_pos; [done|].
  by apply Qcinv_pos.
Qed.

Lemma Qcdiv_nonneg (a b : Qc) : 0 ≤ a → 0 < b → 0 ≤ a / b.
Proof.
  intros Ha Hb. unfold Qcdiv. apply Qcmult_nonneg_nonneg; [done|].
  apply Qclt_le_weak. by apply Qcinv_pos.
Qed.

Lemma Qcdiv_le_upper (a b c : Qc) : 0 < b → a ≤ c * b → a / b ≤ c.
Proof.
  intros Hb Hle. apply (Qcmult_lt_0_le_reg_r _ _ b Hb).
  replace (a / b * b) with a; [done|].
  field. by apply Qclt_not_eq in Hb.
Qed.

(** The position [offset / (range / n)] lies between 0 and [n]. *)
Lemma position_bounds (offset range : Qc) (n : N) :
  (0 < n)%N → 0 < range → 0 ≤ offset → offset ≤ range →
  0 ≤ offset / (range / to_double n)
  ∧ offset / (range / to_double n) ≤ to_double n.
Proof.
  intros Hn Hrange Hlo Hhi.
  pose proof (to_double_pos n Hn) as Hpos.
  pose proof (Qcdiv_pos _ _ Hrange Hpos) as Hwidth. split.
  - by apply Qcdiv_nonneg.
  - apply Qcdiv_le_upper; [done|].
    replace (to_double n * (range / to_double n)) with range; [done|].
    field. by apply Qclt_not_eq in Hpos.
Qed.

End RationalFacts.

(** *** Histogram *)

Module HistogramSpec.
Import NumericFacts RationalFacts Histogram.

Lemma uint_to_int_small (n : N) :
  (n ≤ 2 ^ 31 - 1)%N → uint_to_int n = Z.of_N n.
Proof.
  intros Hn. unfold uint_to_int, int_max.
  rewrite Z.mod_small by lia. destruct (decide _); lia.
Qed.

Lemma in_int_Some (z : Z) :
  (- 2 ^ 31 ≤ z ≤ 2 ^ 31 - 1)%Z → in_int z = Some z.
Proof.
  intros Hz. unfold in_int, int_min, int_max. by destruct (decide _).
Qed.

Lemma total_insert (l : list N) (i : nat) (c c' : N) :
  l !! i = Some c →
  (foldr N.add 0 (<[i := c']> l) + c = foldr N.add 0 l + c')%N.
Proof.
  revert i. induction l as [|y l IH]; intros [|i] Hi; simplify_eq/=.
  - lia.
  - specialize (IH i Hi). lia.
Qed.

Lemma total_lookup_le (l : list N) (i : nat) (c : N) :
  l !! i = Some c → (c ≤ foldr N.add 0 l)%N.
Proof.
  revert i. induction l as [|y l IH]; intros [|i] Hi; simplify_eq/=.
  - lia.
  - specialize (IH i Hi). lia.
Qed.

Lemma total_replicate_0 (n : nat) : foldr N.add 0%N (replicate n 0%N) = 0%N.
Proof. induction n as [|n IH]; simpl; [done|]. by rewrite IH. Qed.


Lemma mapM_lookup_all {A : Type} (l : list A) :
  mapM (λ i, l !! i) (seq 0 (length l)) = Some l.
Proof.
  apply mapM_Some, Forall2_same_length_lookup. rewrite length_seq.
  split; [done|]. intros i j x Hj Hx.
  apply lookup_seq in Hj as [-> _]. done.
Qed.

Section WithLibm.
Context {libm : Libm}.
Hypothesis ln_monotone : ∀ x y : Qc, 0 < x → x ≤ y → ln x ≤ ln y.

Lemma log_double_pos (x : Qc) : 0 < x → log_double x = Some (ln x).
Proof.
  intros Hx. unfold log_double. by apply Qc_ltb_true in Hx as ->.
Qed.


Lemma Qcminus_nonneg (a b : Qc) : a ≤ b → 0 ≤ b - a.
Proof. intros Hab. by apply Qcle_minus_iff in Hab. Qed.

Lemma Qcminus_pos (a b : Qc) : a < b → 0 < b - a.
Proof. intros Hab. by apply Qclt_minus_iff in Hab. Qed.

Lemma Qcminus_le_mono (a b c : Qc) : a ≤ b → a - c ≤ b - c.
Proof.
  intros Hab. unfold Qcminus.
  by apply Qcplus_le_compat; [|apply Qcle_refl].
Qed.



Lemma in_range_false (h : state) (x : Qc) :
  in_range (min_value h) (max_value h) x = false →
  consume h x = Some h.
Proof.
  unfold in_range, consume. intros Hout.
  apply negb_false_iff in Hout. by rewrite Hout.
Qed.

Lemma in_range_true (lo hi x : Qc) :
  in_range lo hi x = true ↔ lo ≤ x ∧ x ≤ hi.
Proof.
  unfold in_range. rewrite negb_true_iff, orb_false_iff.
  by rewrite !Qc_ltb_false.
Qed.





End WithLibm.


(** The scenario of the specification: range 0 to 10, five bins, linear
    scheme, samples 1, 1, 4, 9.9, -5, 11. *)
Example histogram_scenario :
  counts_after (H := identity_libm) (Histogram 0 (Qc_of_Z 10) 5 linear)
    [1; 1; Qc_of_Z 4; Q2Qc (99 # 10); Qc_of_Z (-5); Qc_of_Z 11]
  = Some [2; 0; 1; 0; 1]%N.
Proof. vm_compute. reflexivity. Qed.









End HistogramSpec.

(** *** Loops and matrices *)

Module LoopFacts.
Import Spurious_Autocovariance.

Lemma loop_from_invariant {S : Type} (I : nat → S → Prop)
    (body : nat → S → M S) (count : nat) :
  ∀ (i : nat) (s : S),
    I i s →
    (∀ j t, (i ≤ j < i + count)%nat → I j t →
            ∃ t', body j t = Some t' ∧ I (Datatypes.S j) t') →
    ∃ s', loop_from count i body s = Some s' ∧ I (i + count)%nat s'.
Proof.
  induction count as [|count IH]; intros i s Hi Hbody.
  - exists s. split; [done|]. by rewrite Nat.add_0_r.
  - destruct (Hbody i s) as (t & Ht & Hit); [lia|done|].
    destruct (IH (Datatypes.S i) t) as (s' & Hs' & His'); [done| |].
    + intros j u Hj Hu. apply Hbody; [lia|done].
    + exists s'. simpl. rewrite Ht. simpl. split; [done|].
      by replace (i + Datatypes.S count)%nat
        with (Datatypes.S i + count)%nat by lia.
Qed.

(** The rule for a counted loop: an invariant that holds at the start
    and is kept by every iteration holds at the end, and the loop ends. *)
Lemma for_uint_invariant {S : Type} (I : nat → S → Prop) (bound : N)
    (body : nat → S → M S) (s : S) :
  (bound < uint_modulus)%N →
  I 0%nat s →
  (∀ j t, (j < N.to_nat bound)%nat → I j t →
          ∃ t', body j t = Some t' ∧ I (Datatypes.S j) t') →
  ∃ s', for_uint bound body s = Some s' ∧ I (N.to_nat bound) s'.
Proof.
  intros Hbound Hstart Hbody. unfold for_uint.
  destruct (decide (bound < uint_modulus)%N); [|done].
  apply (loop_from_invariant I body (N.to_nat bound) 0%nat s Hstart).
  intros j t Hj. apply Hbody. lia.
Qed.

(** A loop returns only when its bound fits the counter. *)
Lemma for_uint_Some {S : Type} (bound : N) (body : nat → S → M S)
    (s s' : S) :
  for_uint bound body s = Some s' → (bound < uint_modulus)%N.
Proof. unfold for_uint. by destruct (decide _). Qed.

Lemma upto_0 {A : Type} (f : nat → A → A) (l : list A) : upto 0 f l = l.
Proof.
  unfold upto. apply list_eq. intros i. rewrite list_lookup_imap.
  destruct (l !! i); simpl; [|done]. try case_decide; done || lia.
Qed.

Lemma length_upto {A : Type} (c : nat) (f : nat → A → A) (l : list A) :
  length (upto c f l) = length l.
Proof. unfold upto. apply length_imap. Qed.

Lemma upto_lookup_ge {A : Type} (c i : nat) (f : nat → A → A) (l : list A) :
  (c ≤ i)%nat → upto c f l !! i = l !! i.
Proof.
  intros Hle. unfold upto. rewrite list_lookup_imap.
  destruct (l !! i); simpl; [|done]. try case_decide; done || lia.
Qed.

Lemma upto_lookup_lt {A : Type} (c i : nat) (f : nat → A → A) (l : list A) :
  (i < c)%nat → upto c f l !! i = f i <$> l !! i.
Proof.
  intros Hlt. unfold upto. rewrite list_lookup_imap.
  destruct (l !! i); simpl; [|done]. try case_decide; done || lia.
Qed.

Lemma upto_S {A : Type} (c : nat) (f : nat → A → A) (l : list A) (a : A) :
  l !! c = Some a → <[c := f c a]> (upto c f l) = upto (Datatypes.S c) f l.
Proof.
  intros Hc. apply list_eq. intros i.
  destruct (decide (i = c)) as [->|Hne].
  - rewrite list_lookup_insert_eq
      by (rewrite length_upto; by eapply lookup_lt_Some).
    rewrite upto_lookup_lt by lia. by rewrite Hc.
  - rewrite list_lookup_insert_ne by done.
    destruct (decide (i < c)%nat).
    + by rewrite !upto_lookup_lt by lia.
    + by rewrite !upto_lookup_ge by lia.
Qed.

Lemma upto_all {A : Type} (c : nat) (f : nat → A → A) (l : list A) :
  (length l ≤ c)%nat → upto c f l = imap f l.
Proof.
  intros Hle. apply list_eq. intros i. rewrite list_lookup_imap.
  destruct (l !! i) as [a|] eqn:Hi.
  - rewrite upto_lookup_lt, Hi; [done|].
    apply lookup_lt_Some in Hi. lia.
  - unfold upto. by rewrite list_lookup_imap, Hi.
Qed.

Lemma upto_fixed {A : Type} (c : nat) (f : nat → A → A) (l : list A) :
  (∀ i a, (c ≤ i)%nat → f i a = a) → upto c f l = imap f l.
Proof.
  intros Hf. apply list_eq. intros i. unfold upto.
  rewrite !list_lookup_imap. destruct (l !! i) as [a|]; simpl; [|done].
  case_decide; [done|]. rewrite Hf; [done|lia].
Qed.

(** Replacing the element that follows a prefix of length [j]. *)
Lemma insert_after_prefix {A : Type} (j : nat) (done_ old : list A) (y : A) :
  length done_ = j → (j < length old)%nat →
  <[j := y]> (done_ ++ drop j old) = (done_ ++ [y]) ++ drop (Datatypes.S j) old.
Proof.
  intros Hlen Hj. rewrite insert_app_r_alt by lia.
  rewrite Hlen, Nat.sub_diag, <- app_assoc. f_equal.
  destruct (drop j old) as [|z rest] eqn:Hdrop.
  - apply (f_equal length) in Hdrop. rewrite length_drop in Hdrop.
    simpl in Hdrop. lia.
  - simpl. f_equal.
    replace (Datatypes.S j) with (j + 1)%nat by lia.
    by rewrite <- drop_drop, Hdrop.
Qed.

End LoopFacts.

Module MatrixFacts.
Import NumericFacts LoopFacts Spurious_Autocovariance.

Lemma read_row (m : matrix) (i j : nat) (row : list cell) (v : Qc) :
  m !! i = Some row → row !! j = Some (Some v) → read m i j = Some v.
Proof. intros Hi Hj. unfold read. rewrite Hi. simpl. by rewrite Hj. Qed.

Lemma read_initialised_row (m : matrix) (i j : nat) (row : list Qc) (v : Qc) :
  m !! i = Some (Some <$> row) → row !! j = Some v → read m i j = Some v.
Proof.
  intros Hi Hj. apply (read_row m i j _ v Hi).
  by rewrite list_lookup_fmap, Hj.
Qed.

Lemma write_row (m : matrix) (i j : nat) (row : list cell) (v : Qc) :
  m !! i = Some row → (j < length row)%nat →
  write m i j v = Some (<[i := <[j := Some v]> row]> m).
Proof.
  intros Hi Hj. unfold write. rewrite Hi. simpl.
  destruct (lookup_lt_is_Some_2 row j Hj) as [c Hc]. by rewrite Hc.
Qed.

Lemma fmap_seq_const {A : Type} (f : nat → A) (x : A) (i n : nat) :
  (∀ j, f j = x) → f <$> seq i n = replicate n x.
Proof.
  intros Hf. revert i. induction n as [|n IH]; intros i; simpl; [done|].
  by rewrite Hf, IH.
Qed.

Lemma resize_empty (size1 size2 : N) :
  resize size1 size2 []
  = replicate (N.to_nat size1) (replicate (N.to_nat size2) None).
Proof.
  unfold resize. apply fmap_seq_const. intros i.
  apply fmap_seq_const. intros j. by rewrite lookup_nil.
Qed.

Lemma initialised_lookup (rows : list (list Qc)) (i : nat) :
  initialised rows !! i = (fmap Some) <$> rows !! i.
Proof. unfold initialised. by rewrite list_lookup_fmap. Qed.

Lemma initialised_insert (rows : list (list Qc)) (i : nat) (row : list Qc) :
  <[i := Some <$> row]> (initialised rows) = initialised (<[i := row]> rows).
Proof. unfold initialised. by rewrite list_fmap_insert. Qed.

Lemma column_lookup (values : list Qc) (i : nat) :
  column values !! i = (λ v, [Some v]) <$> values !! i.
Proof. unfold column. by rewrite list_lookup_fmap. Qed.

Lemma column_insert (values : list Qc) (i : nat) (v : Qc) :
  <[i := [Some v]]> (column values) = column (<[i := v]> values).
Proof. unfold column. by rewrite list_fmap_insert. Qed.

Lemma read_column (values : list Qc) (i : nat) (v : Qc) :
  values !! i = Some v → read (column values) i 0 = Some v.
Proof.
  intros Hi. apply (read_row _ _ _ [Some v]); [|done].
  by rewrite column_lookup, Hi.
Qed.

Lemma write_column (values : list Qc) (i : nat) (v : Qc) :
  (i < length values)%nat →
  write (column values) i 0 v = Some (column (<[i := v]> values)).
Proof.
  intros Hi. destruct (lookup_lt_is_Some_2 values i Hi) as [old Hold].
  rewrite (write_row _ _ _ [Some old]); [|by rewrite column_lookup, Hold|].
  - simpl. by rewrite column_insert.
  - simpl. lia.
Qed.

(** A loop that writes row [r], element after element, with values that
    do not depend on the matrix it writes. *)
Lemma fill_row (f : nat → M Qc) (xs : list Qc) (r : nat) (m : matrix)
    (old : list cell) :
  (N.of_nat (length xs) < uint_modulus)%N →
  m !! r = Some old → length old = length xs →
  (∀ j x, xs !! j = Some x → f j = Some x) →
  for_uint (N.of_nat (length xs)) (λ j m, x ← f j; write m r j x) m
  = Some (<[r := Some <$> xs]> m).
Proof.
  intros Hbound Hr Hlen Hf.
  pose proof (lookup_lt_Some _ _ _ Hr) as Hrlt.
  destruct (for_uint_invariant
              (λ j m', m' = <[r := (Some <$> take j xs) ++ drop j old]> m)
              (N.of_nat (length xs)) (λ j m, x ← f j; write m r j x) m)
    as (m' & Hloop & Hm'); [done| | |].
  - simpl. by rewrite list_insert_id.
  - intros j t Hj ->. rewrite Nat2N.id in Hj.
    destruct (lookup_lt_is_Some_2 xs j Hj) as [x Hx].
    rewrite (Hf j x Hx). simpl.
    assert (length (Some <$> take j xs) = j) as Hdone
      by (rewrite length_fmap, length_take; lia).
    erewrite write_row; [|by apply list_lookup_insert_eq|].
    + eexists. split; [reflexivity|].
      rewrite list_insert_insert_eq. f_equal.
      rewrite insert_after_prefix by (done || lia).
      by rewrite (take_S_r _ _ _ Hx), fmap_app.
    + rewrite length_app, Hdone, length_drop. lia.
  - rewrite Hloop, Hm', Nat2N.id. f_equal. f_equal.
    rewrite take_ge, drop_ge by lia. apply app_nil_r.
Qed.

End MatrixFacts.

(** *** The loops of Spurious_Autocovariance::consume *)

Module AutocovarianceLoops.
Import NumericFacts LoopFacts MatrixFacts MeanValueSpec Spurious_Autocovariance.

Lemma vsum_snoc (l : list Qc) (y : Qc) : vsum (l ++ [y]) = vsum l + y.
Proof.
  unfold vsum. induction l as [|x l IH]; simpl; [ring|]. rewrite IH. ring.
Qed.

Lemma dot_snoc (xs ps : list Qc) (j : nat) (x p : Qc) :
  xs !! j = Some x → ps !! j = Some p →
  dot (take (S j) xs) (take (S j) ps)
  = dot (take j xs) (take j ps) + x * p.
Proof.
  intros Hx Hp. unfold dot.
  rewrite (take_S_r _ _ _ Hx), (take_S_r _ _ _ Hp).
  apply lookup_lt_Some in Hx, Hp.
  rewrite zip_with_app by (rewrite !length_take; lia).
  simpl. apply vsum_snoc.
Qed.

Lemma dot_take_all (xs ps : list Qc) (d : nat) :
  length xs = d → length ps = d → dot (take d xs) (take d ps) = dot xs ps.
Proof. intros Hx Hp. by rewrite !take_ge by lia. Qed.

(** The loop that accumulates [sample[j]*past_sample(i,j)]. *)
Lemma dot_loop (xs : valarray) (past : matrix) (i : nat) (ps : list Qc) :
  (N.of_nat (length xs) < uint_modulus)%N →
  past !! i = Some (Some <$> ps) → length ps = length xs →
  for_uint (N.of_nat (length xs))
    (λ j alphaupd,
       x ← xs !! j; p ← read past i j; Some (alphaupd + x * p))
    0
  = Some (dot xs ps).
Proof.
  intros Hbound Hrow Hlen.
  destruct (for_uint_invariant
              (λ j acc, acc = dot (take j xs) (take j ps))
              (N.of_nat (length xs))
              (λ j alphaupd,
                 x ← xs !! j; p ← read past i j; Some (alphaupd + x * p))
              0)
    as (acc & Hloop & Hacc); [done|done| |].
  - intros j t Hj ->. rewrite Nat2N.id in Hj.
    destruct (lookup_lt_is_Some_2 xs j Hj) as [x Hx].
    destruct (lookup_lt_is_Some_2 ps j) as [p Hp]; [lia|].
    rewrite Hx. simpl. rewrite (read_initialised_row _ _ _ _ _ Hrow Hp).
    simpl. eexists. split; [reflexivity|].
    by rewrite (dot_snoc _ _ _ _ _ Hx Hp).
  - rewrite Hloop, Hacc, Nat2N.id. f_equal. by apply dot_take_all.
Qed.

(** The loop that updates row [i] of [beta]. *)
Lemma beta_loop (xs : valarray) (past beta : matrix) (i : nat)
    (ps bs : list Qc) (n : N) :
  (N.of_nat (length xs) < uint_modulus)%N →
  to_double n ≠ 0 →
  past !! i = Some (Some <$> ps) → length ps = length xs →
  beta !! i = Some (Some <$> bs) → length bs = length xs →
  ∃ betaupd,
    for_uint (N.of_nat (length xs))
      (λ j '(betaupd, beta),
         u ← betaupd !! j;
         p ← read past i j;
         b ← read beta i j;
         u ← double_div (u + p - b) (to_double n);
         b ← read beta i j;
         beta ← write beta i j (b + u);
         Some (<[j := u]> betaupd, beta))
      (xs, beta)
    = Some (betaupd,
            <[i := Some <$> zip_with (welford (to_double n)) bs
                              (zip_with Qcplus xs ps)]> beta).
Proof.
  intros Hbound Hn Hpast Hps Hbeta Hbs.
  set (new := zip_with (welford (to_double n)) bs (zip_with Qcplus xs ps)).
  assert (length new = length xs) as Hnew
    by (unfold new; rewrite !length_zip_with; lia).
  pose proof (lookup_lt_Some _ _ _ Hbeta) as Hi.
  destruct (for_uint_invariant
              (λ j (s : valarray * matrix),
                 drop j s.1 = drop j xs
                 ∧ s.2 = <[i := Some <$> (take j new ++ drop j bs)]> beta)
              (N.of_nat (length xs))
              (λ j '(betaupd, beta),
                 u ← betaupd !! j;
                 p ← read past i j;
                 b ← read beta i j;
                 u ← double_div (u + p - b) (to_double n);
                 b ← read beta i j;
                 beta ← write beta i j (b + u);
                 Some (<[j := u]> betaupd, beta))
              (xs, beta))
    as ([betaupd beta'] & Hloop & _ & Hbeta'); [done| | |].
  - simpl. split; [done|]. by rewrite list_insert_id.
  - intros j [bu be] Hj [Hbu Hbe]. simpl in Hbu, Hbe. subst be.
    rewrite Nat2N.id in Hj.
    destruct (lookup_lt_is_Some_2 xs j Hj) as [x Hx].
    destruct (lookup_lt_is_Some_2 ps j) as [p Hp]; [lia|].
    destruct (lookup_lt_is_Some_2 bs j) as [b Hb]; [lia|].
    assert (bu !! j = Some x) as Hu.
    { rewrite <- (Nat.add_0_r j) at 1. rewrite <- lookup_drop, Hbu.
      by rewrite lookup_drop, Nat.add_0_r. }
    assert (length (take j new) = j) as Hdone
      by (rewrite length_take; lia).
    assert ((take j new ++ drop j bs) !! j = Some b) as Hrowj.
    { rewrite lookup_app_r by lia. rewrite Hdone, Nat.sub_diag.
      by rewrite lookup_drop, Nat.add_0_r. }
    assert (<[i:=Some <$> take j new ++ drop j bs]> beta !! i
            = Some (Some <$> take j new ++ drop j bs)) as Hrow
      by (by apply list_lookup_insert_eq).
    rewrite Hu. simpl. rewrite (read_initialised_row _ _ _ _ _ Hpast Hp).
    simpl. rewrite (read_initialised_row _ _ _ _ _ Hrow Hrowj). simpl.
    rewrite (double_div_Some _ _ Hn). simpl.
    erewrite write_row; [|exact Hrow|].
    2:{ rewrite length_fmap, length_app, Hdone, length_drop. lia. }
    eexists. split; [reflexivity|]. simpl. split.
    + rewrite drop_insert_lt by lia.
      replace (S j) with (j + 1)%nat by lia.
      by rewrite <- !drop_drop, Hbu.
    + rewrite list_insert_insert_eq. f_equal.
      rewrite <- list_fmap_insert. f_equal.
      rewrite insert_after_prefix by (done || lia). f_equal.
      symmetry. apply take_S_r. unfold new.
      rewrite lookup_zip_with, Hb. simpl.
      rewrite lookup_zip_with, Hx. simpl. rewrite Hp. simpl.
      done.
  - exists betaupd. rewrite Hloop. simpl in Hbeta'. rewrite Hbeta'.
    rewrite Nat2N.id. rewrite take_ge, drop_ge by lia.
    by rewrite app_nil_r.
Qed.

(** One iteration of the loop over the lags, for a lag whose partner
    sample is in the window. *)
Lemma update_alpha_beta_lag (xs : valarray) (past : matrix) (n : N) (i : nat)
    (av : list Qc) (bv : list (list Qc)) (ps bs : list Qc) (a : Qc) :
  (N.of_nat (length xs) < uint_modulus)%N →
  to_double n ≠ 0 →
  past !! i = Some (Some <$> ps) → length ps = length xs →
  av !! i = Some a →
  bv !! i = Some bs → length bs = length xs →
  update_alpha_beta xs past n i (column av, initialised bv)
  = Some (column (<[i := welford (to_double n) a (dot xs ps)]> av),
          initialised
            (<[i := zip_with (welford (to_double n)) bs
                      (zip_with Qcplus xs ps)]> bv)).
Proof.
  intros Hbound Hn Hpast Hps Ha Hb Hbs. unfold update_alpha_beta.
  rewrite (dot_loop xs past i ps Hbound Hpast Hps).
  cbn [mbind option_bind fst snd].
  rewrite (read_column av i a Ha). cbn [mbind option_bind].
  rewrite (double_div_Some _ _ Hn). cbn [mbind option_bind].
  rewrite write_column by (by eapply lookup_lt_Some).
  cbn [mbind option_bind].
  destruct (beta_loop xs past (initialised bv) i ps bs n) as [bu Hbu];
    [done|done|done|done|by rewrite initialised_lookup, Hb|done|].
  rewrite Hbu. cbn [mbind option_bind]. by rewrite initialised_insert.
Qed.

Lemma window_row (past : matrix) (w : list (list Qc)) (i : nat) (ps : list Qc) :
  take (length w) past = initialised w → w !! i = Some ps →
  past !! i = Some (Some <$> ps).
Proof.
  intros Htake Hw. pose proof (lookup_lt_Some _ _ _ Hw) as Hi.
  rewrite <- (lookup_take_lt past (length w) i Hi), Htake.
  by rewrite initialised_lookup, Hw.
Qed.

(** The loop over the lags: every lag with a partner in the window is
    updated, the others are left as they are. *)
Lemma update_loop (xs : valarray) (past : matrix) (n : N)
    (w : list (list Qc)) (av : list Qc) (bv : list (list Qc)) :
  (N.of_nat (length xs) < uint_modulus)%N →
  (N.of_nat (length w) < uint_modulus)%N →
  to_double n ≠ 0 →
  take (length w) past = initialised w →
  Forall (λ row, length row = length xs) w →
  Forall (λ row, length row = length xs) bv →
  (length w ≤ length av)%nat → (length w ≤ length bv)%nat →
  for_uint (N.of_nat (length w)) (update_alpha_beta xs past n)
    (column av, initialised bv)
  = Some (column (imap (alpha_step xs (to_double n) w) av),
          initialised (imap (beta_step xs (to_double n) w) bv)).
Proof.
  intros Hsize Hbound Hn Hpast Hw Hbv Hav Hbvl.
  set (fa := alpha_step xs (to_double n) w).
  set (fb := beta_step xs (to_double n) w).
  destruct (for_uint_invariant
              (λ i (s : matrix * matrix),
                 s = (column (upto i fa av), initialised (upto i fb bv)))
              (N.of_nat (length w)) (update_alpha_beta xs past n)
              (column av, initialised bv))
    as (s & Hloop & Hs); [done|by rewrite !upto_0| |].
  - intros i t Hi ->. rewrite Nat2N.id in Hi.
    destruct (lookup_lt_is_Some_2 w i Hi) as [ps Hps].
    destruct (lookup_lt_is_Some_2 av i) as [a Ha]; [lia|].
    destruct (lookup_lt_is_Some_2 bv i) as [bs Hbs]; [lia|].
    pose proof (Forall_lookup_1 _ _ _ _ Hw Hps) as Hlps.
    pose proof (Forall_lookup_1 _ _ _ _ Hbv Hbs) as Hlbs.
    simpl in Hlps, Hlbs.
    rewrite (update_alpha_beta_lag xs past n i _ _ ps bs a);
      [|done|done|by eapply window_row|done
       |by rewrite upto_lookup_ge by lia
       |by rewrite upto_lookup_ge by lia|done].
    eexists. split; [reflexivity|].
    rewrite <- (upto_S i fa av a Ha), <- (upto_S i fb bv bs Hbs).
    unfold fa, fb, alpha_step, beta_step. by rewrite Hps.
  - rewrite Hloop, Hs, Nat2N.id. do 3 f_equal.
    + apply upto_fixed. intros i a Hi. unfold fa, alpha_step.
      by rewrite lookup_ge_None_2.
    + apply upto_fixed. intros i a Hi. unfold fb, beta_step.
      by rewrite lookup_ge_None_2.
Qed.

Lemma shape_insert (size1 size2 : nat) (m : matrix) (i : nat)
    (row : list cell) :
  shape size1 size2 m → length row = size2 →
  shape size1 size2 (<[i := row]> m).
Proof.
  intros [Hl Hrows] Hrow. split; [by rewrite length_insert|].
  by apply Forall_insert.
Qed.

Lemma shape_lookup (size1 size2 : nat) (m : matrix) (i : nat) :
  shape size1 size2 m → (i < size1)%nat →
  ∃ row, m !! i = Some row ∧ length row = size2.
Proof.
  intros [Hl Hrows] Hi.
  destruct (lookup_lt_is_Some_2 m i) as [row Hrow]; [lia|].
  exists row. split; [done|]. by apply (Forall_lookup_1 _ _ _ _ Hrows Hrow).
Qed.

(** "Save needed past values": the sample followed by the first [b]
    samples of the window. *)
Lemma shift_window_spec (xs : valarray) (past psr : matrix)
    (w : list (list Qc)) (b size1 : nat) :
  (N.of_nat (length xs) < uint_modulus)%N →
  (N.of_nat b < uint_modulus)%N →
  take (length w) past = initialised w →
  Forall (λ row, length row = length xs) w →
  (b ≤ length w)%nat → (b < size1)%nat →
  shape size1 (length xs) psr →
  ∃ psr', shift_window xs past psr (N.of_nat b) = Some psr'
    ∧ shape size1 (length xs) psr'
    ∧ take (S b) psr' = initialised (xs :: take b w).
Proof.
  intros Hsize Hbound Hpast Hw Hb Hb1 Hshape. unfold shift_window.
  destruct (for_uint_invariant
              (λ i (m : matrix),
                 shape size1 (length xs) m
                 ∧ ∀ r ps, (r < i)%nat → w !! r = Some ps →
                           m !! S r = Some (Some <$> ps))
              (N.of_nat b)
              (λ i past_replace,
                 for_uint (N.of_nat (length xs))
                   (λ j past_replace,
                      p ← read past i j; write past_replace (i + 1) j p)
                   past_replace)
              psr)
    as (m & Hloop & Hm & Hrows); [done| | |].
  - split; [done|]. intros r ps Hr. lia.
  - intros i t Hi [Ht Hrows]. rewrite Nat2N.id in Hi.
    destruct (lookup_lt_is_Some_2 w i) as [ps Hps]; [lia|].
    pose proof (Forall_lookup_1 _ _ _ _ Hw Hps) as Hlps. simpl in Hlps.
    destruct (shape_lookup _ _ t (i + 1) Ht) as (old & Hold & Hlold); [lia|].
    rewrite <- Hlps.
    rewrite (fill_row (λ j, read past i j) ps (i + 1) t old);
      [|by rewrite Hlps|done|lia|].
    2:{ intros j x Hx. eapply read_initialised_row; [|done].
        by eapply window_row. }
    eexists. split; [reflexivity|]. split.
    + rewrite Hlps. apply shape_insert; [done|]. by rewrite length_fmap.
    + intros r qs Hr Hqs. destruct (decide (r = i)) as [->|Hne].
      * replace (S i) with (i + 1)%nat by lia.
        rewrite list_lookup_insert_eq by (by eapply lookup_lt_Some).
        by simplify_eq.
      * rewrite list_lookup_insert_ne by lia. apply Hrows; [lia|done].
  - rewrite Hloop. cbn [mbind option_bind]. rewrite Nat2N.id in Hrows.
    destruct (shape_lookup _ _ m 0 Hm) as (old & Hold & Hlold); [lia|].
    rewrite (fill_row (λ j, xs !! j) xs 0 m old); [|done|done|done|done].
    eexists. split; [reflexivity|]. split.
    + apply shape_insert; [done|]. by rewrite length_fmap.
    + apply list_eq. intros c.
      assert (length (initialised (xs :: take b w)) = S b) as Hlen.
      { unfold initialised. rewrite length_fmap. simpl.
        rewrite length_take. lia. }
      destruct (decide (c < S b)%nat) as [Hc|Hc].
      * rewrite lookup_take_lt by done. destruct c as [|r].
        { rewrite list_lookup_insert_eq by (by eapply lookup_lt_Some).
          done. }
        rewrite list_lookup_insert_ne by lia.
        destruct (lookup_lt_is_Some_2 w r) as [ps Hps]; [lia|].
        rewrite (Hrows r ps); [|lia|done].
        rewrite initialised_lookup. simpl.
        rewrite lookup_take_lt by lia. by rewrite Hps.
      * rewrite lookup_take_ge by lia. symmetry.
        apply lookup_ge_None_2. lia.
Qed.

Lemma welford_zip (n : Qc) (mean xs : list Qc) :
  zip_with Qcplus mean ((λ u, u / n) <$> zip_with Qcminus xs mean)
  = zip_with (welford n) mean xs.
Proof.
  revert xs. induction mean as [|m mean IH]; intros [|x xs]; simpl; try done.
  by rewrite IH.
Qed.

(** The update of the running mean. *)
Lemma update_mean_spec (xs mean : valarray) (n : N) :
  length mean = length xs → to_double n ≠ 0 →
  update_mean xs mean n = Some (zip_with (welford (to_double n)) mean xs).
Proof.
  intros Hlen Hn. unfold update_mean.
  rewrite valarray_binop_Some by done. cbn [mbind option_bind].
  rewrite (valarray_div_Some _ _ Hn). cbn [mbind option_bind].
  rewrite valarray_binop_Some
    by (rewrite length_fmap, length_zip_with; lia).
  by rewrite welford_zip.
Qed.

(** The loop that subtracts [current_mean[j]*beta(i,j)] from the
    exported value of lag [i]. *)
Lemma subtract_loop (mean : valarray) (beta ac : matrix) (i : nat)
    (bs : list Qc) (a : Qc) (old : list cell) :
  (N.of_nat (length mean) < uint_modulus)%N →
  beta !! i = Some (Some <$> bs) → length bs = length mean →
  ac !! i = Some (Some a :: old) →
  for_uint (N.of_nat (length mean))
    (λ j autocovariation,
       m ← mean !! j;
       b ← read beta i j;
       c ← read autocovariation i 0;
       write autocovariation i 0 (c - m * b))
    ac
  = Some (<[i := Some (a - dot mean bs) :: old]> ac).
Proof.
  intros Hbound Hbeta Hbs Hac.
  pose proof (lookup_lt_Some _ _ _ Hac) as Hi.
  destruct (for_uint_invariant
              (λ j (m : matrix),
                 m = <[i := Some (a - dot (take j mean) (take j bs)) :: old]> ac)
              (N.of_nat (length mean))
              (λ j autocovariation,
                 m ← mean !! j;
                 b ← read beta i j;
                 c ← read autocovariation i 0;
                 write autocovariation i 0 (c - m * b))
              ac)
    as (m & Hloop & Hm); [done| | |].
  - simpl. unfold dot. simpl. rewrite list_insert_id; [done|].
    rewrite Hac. do 3 f_equal. ring.
  - intros j t Hj ->. rewrite Nat2N.id in Hj.
    destruct (lookup_lt_is_Some_2 mean j Hj) as [x Hx].
    destruct (lookup_lt_is_Some_2 bs j) as [b Hb]; [lia|].
    rewrite Hx. cbn [mbind option_bind].
    rewrite (read_initialised_row _ _ _ _ _ Hbeta Hb). cbn [mbind option_bind].
    erewrite read_row; [|by apply list_lookup_insert_eq|done].
    cbn [mbind option_bind].
    erewrite write_row; [|by apply list_lookup_insert_eq|simpl; lia].
    eexists. split; [reflexivity|].
    rewrite list_insert_insert_eq. simpl.
    rewrite (dot_snoc _ _ _ _ _ Hx Hb). do 3 f_equal. ring.
  - rewrite Hloop, Hm, Nat2N.id. by rewrite dot_take_all.
Qed.

(** "Calculate autocovariance value using formula described above". *)
Lemma recompute_spec (xs mean : valarray) (av : list Qc)
    (bv : list (list Qc)) (gv : list Qc) (n : N) :
  (N.of_nat (length xs) < uint_modulus)%N →
  length mean = length xs → (0 < length xs)%nat →
  (1 ≤ n < sample_index_modulus)%N →
  length av = N.to_nat k → length bv = N.to_nat k → length gv = N.to_nat k →
  Forall (λ row, length row = length xs) bv →
  recompute xs mean (column av) (initialised bv) n (column gv)
  = Some (column (zip_with (exported n mean) av bv)).
Proof.
  intros Hsize Hmean Hpos Hn Hav Hbv Hgv Hrows. unfold recompute.
  set (g := λ (i : nat) (_ : Qc),
         match av !! i, bv !! i with
         | Some a, Some b => exported n mean a b
         | _, _ => 0
         end).
  rewrite <- Hmean in *.
  destruct (for_uint_invariant
              (λ i (m : matrix), m = column (upto i g gv)) k
              (λ i autocovariation,
                 a ← read (column av) i 0;
                 autocovariation ← write autocovariation i 0 a;
                 autocovariation ←
                   for_uint (N.of_nat (length mean))
                     (λ j autocovariation,
                        m ← mean !! j;
                        b ← read (initialised bv) i j;
                        c ← read autocovariation i 0;
                        write autocovariation i 0 (c - m * b))
                     autocovariation;
                 quotient ← sample_index_div (sample_index_decr n) n;
                 squares ← valarray_binop Qcmult mean mean;
                 total ← valarray_sum squares;
                 c ← read autocovariation i 0;
                 write autocovariation i 0 (c + to_double quotient * total))
              (column gv))
    as (m & Hloop & Hm); [done|by rewrite upto_0| |].
  - intros i t Hi ->.
    destruct (lookup_lt_is_Some_2 av i) as [a Ha]; [lia|].
    destruct (lookup_lt_is_Some_2 bv i) as [bs Hbs]; [lia|].
    destruct (lookup_lt_is_Some_2 gv i) as [old Hold]; [lia|].
    pose proof (Forall_lookup_1 _ _ _ _ Hrows Hbs) as Hlbs. simpl in Hlbs.
    assert (i < length (upto i g gv))%nat as Hi'
      by (rewrite length_upto; lia).
    rewrite (read_column av i a Ha). cbn [mbind option_bind].
    rewrite write_column by done. cbn [mbind option_bind].
    rewrite (subtract_loop mean (initialised bv) _ i bs a []);
      [|done|by rewrite initialised_lookup, Hbs|done
       |by rewrite column_lookup, list_lookup_insert_eq].
    cbn [mbind option_bind].
    rewrite sample_index_decr_small, sample_index_div_Some by lia.
    cbn [mbind option_bind].
    rewrite valarray_binop_Some by done. cbn [mbind option_bind].
    assert (valarray_sum (zip_with Qcmult mean mean) = Some (dot mean mean))
      as ->.
    { unfold dot. destruct mean; [simpl in Hpos; lia|done]. }
    cbn [mbind option_bind].
    rewrite column_insert, list_insert_insert_eq.
    rewrite (read_column _ i (a - dot mean bs))
      by (by rewrite list_lookup_insert_eq).
    cbn [mbind option_bind].
    rewrite write_column by (by rewrite length_insert).
    eexists. split; [reflexivity|].
    rewrite list_insert_insert_eq, <- (upto_S i g gv old Hold).
    unfold g. by rewrite Ha, Hbs.
  - rewrite Hloop, Hm. do 2 f_equal.
    rewrite upto_all by lia. apply list_eq. intros i.
    rewrite list_lookup_imap, lookup_zip_with. unfold g.
    destruct (av !! i) as [a|] eqn:Ha; simpl.
    + destruct (lookup_lt_is_Some_2 gv i) as [old Hold];
        [apply lookup_lt_Some in Ha; lia|].
      rewrite Hold. simpl.
      destruct (lookup_lt_is_Some_2 bv i) as [bs Hbs];
        [apply lookup_lt_Some in Ha; lia|].
      by rewrite Hbs.
    + rewrite lookup_ge_None_2; [done|].
      apply lookup_ge_None_1 in Ha. lia.
Qed.

Lemma shape_replicate (size1 size2 : nat) (c : cell) :
  shape size1 size2 (replicate size1 (replicate size2 c)).
Proof.
  split; [apply length_replicate|].
  apply Forall_replicate, length_replicate.
Qed.

(** The loop of the first branch that zeroes the exported values,
    [alpha] and [beta]. *)
Lemma zero_loop (d : nat) :
  (N.of_nat d < uint_modulus)%N →
  for_uint k
    (λ i '(autocovariation, alpha, beta),
       autocovariation ← write autocovariation i 0 0;
       alpha ← write alpha i 0 0;
       beta ← for_uint (N.of_nat d) (λ j beta, write beta i j 0) beta;
       Some (autocovariation, alpha, beta))
    (resize k 1 [], resize k 1 [], resize k (N.of_nat d) [])
  = Some (column (replicate (N.to_nat k) 0),
          column (replicate (N.to_nat k) 0),
          initialised (replicate (N.to_nat k) (replicate d 0))).
Proof.
  intros Hsize. rewrite !resize_empty, Nat2N.id.
  set (one := λ (_ : nat) (_ : list cell), [Some (Q2Qc 0)]).
  set (row := λ (_ : nat) (_ : list cell), Some <$> replicate d (Q2Qc 0)).
  set (A := replicate (N.to_nat k) (replicate (N.to_nat 1) (None : cell))).
  set (B := replicate (N.to_nat k) (replicate d (None : cell))).
  destruct (for_uint_invariant
              (λ i (s : matrix * matrix * matrix),
                 s = (upto i one A, upto i one A, upto i row B))
              k
              (λ i '(autocovariation, alpha, beta),
                 autocovariation ← write autocovariation i 0 0;
                 alpha ← write alpha i 0 0;
                 beta ← for_uint (N.of_nat d) (λ j beta, write beta i j 0) beta;
                 Some (autocovariation, alpha, beta))
              (A, A, B))
    as (s & Hloop & Hs); [done|by rewrite !upto_0| |].
  - intros i t Hi ->.
    assert (upto i one A !! i = Some [None]) as HA.
    { rewrite upto_lookup_ge by lia. by apply lookup_replicate_2. }
    assert (upto i row B !! i = Some (replicate d None)) as HB.
    { rewrite upto_lookup_ge by lia. by apply lookup_replicate_2. }
    rewrite (write_row _ _ _ _ _ HA) by (simpl; lia).
    cbn [mbind option_bind].
    pose proof (fill_row (λ _, Some (Q2Qc 0)) (replicate d 0) i
                  (upto i row B) (replicate d None)) as Hfill.
    rewrite !length_replicate in Hfill. cbn [mbind option_bind] in Hfill.
    rewrite Hfill; [|done|done|done|].
    2:{ intros j x Hx. apply lookup_replicate in Hx as [-> _]. done. }
    cbn [mbind option_bind]. eexists. split; [reflexivity|].
    rewrite <- (upto_S i one A [None]), <- (upto_S i row B (replicate d None));
      [done| |].
    + rewrite upto_lookup_ge in HB by lia. done.
    + rewrite upto_lookup_ge in HA by lia. done.
  - rewrite Hloop, Hs.
    rewrite !upto_all by (unfold A, B; by rewrite length_replicate).
    reflexivity.
Qed.

End AutocovarianceLoops.

(** *** The three branches of consume against the summary *)

Module AutocovarianceSteps.
Import NumericFacts LoopFacts MatrixFacts AutocovarianceLoops.
Import Spurious_Autocovariance.

Lemma to_nat_k : N.to_nat k = 10%nat.
Proof. reflexivity. Qed.

Lemma beta_step_length (xs : valarray) (n : Qc) (w : list (list Qc))
    (i : nat) (b : list Qc) :
  Forall (λ row, length row = length xs) w → length b = length xs →
  length (beta_step xs n w i b) = length xs.
Proof.
  intros Hw Hb. unfold beta_step. destruct (w !! i) as [ps|] eqn:Hps; [|done].
  pose proof (Forall_lookup_1 _ _ _ _ Hw Hps) as Hl. simpl in Hl.
  rewrite !length_zip_with. lia.
Qed.

Lemma beta_rows (xs : valarray) (n : Qc) (w bv : list (list Qc)) :
  Forall (λ row, length row = length xs) w →
  Forall (λ row, length row = length xs) bv →
  Forall (λ row, length row = length xs) (imap (beta_step xs n w) bv).
Proof.
  intros Hw Hbv. apply Forall_lookup. intros i row Hrow.
  rewrite list_lookup_imap in Hrow.
  destruct (bv !! i) as [b|] eqn:Hb; simplify_eq/=.
  apply beta_step_length; [done|].
  by apply (Forall_lookup_1 _ _ _ _ Hbv Hb).
Qed.

(** The first sample. *)
Lemma first_sample_spec (xs : valarray) :
  (N.of_nat (length xs) < uint_modulus)%N →
  ∃ st, first_sample Spurious_Autocovariance xs = Some st
    ∧ represents (length xs) (first_summary xs) st.
Proof.
  intros Hsize. unfold first_sample.
  cbn [current_autocovariation alpha beta past_sample past_sample_replace
       Spurious_Autocovariance].
  rewrite (zero_loop (length xs) Hsize). cbn [mbind option_bind].
  rewrite !resize_empty, Nat2N.id.
  rewrite (fill_row (λ i, xs !! i) xs 0 _ (replicate (length xs) None));
    [|done|done|by rewrite length_replicate|done].
  cbn [mbind option_bind]. eexists. split; [reflexivity|].
  unfold represents, first_summary. simpl.
  repeat split; try done.
  all: repeat constructor; by rewrite ?length_fmap, ?length_replicate.
Qed.

Ltac open_represents H :=
  destruct H as (Hn & Hcount & Hmean & Hlmean & Halpha & Hlalpha & Hbeta
                 & Hlbeta & Hrbeta & Hgamma & Hlgamma & Hpast & Hlwindow
                 & Hrwindow & Hspast & Hsreplace).

(** A sample in the branch [n_samples < k]. *)
Lemma warm_up_spec (s : summary) (st : state) (xs : valarray) :
  represents (length xs) s st →
  (N.of_nat (length xs) < uint_modulus)%N →
  (count s < k)%N →
  ∃ st', warm_up st xs = Some st'
    ∧ represents (length xs) (warm_up_summary s xs) st'.
Proof.
  intros Hrep Hsize Hlt. open_represents Hrep.
  assert (count s + 1 < sample_index_modulus)%N as Hsmall
    by (unfold k in Hlt; unfold sample_index_modulus; lia).
  assert (N.of_nat (length (window s)) = count s) as Hw
    by (rewrite Hlwindow; lia).
  assert (to_double (count s + 1) ≠ 0) as Hnz
    by (apply to_double_nonzero; lia).
  unfold warm_up. rewrite Hn, (sample_index_incr_small _ Hsmall).
  rewrite sample_index_decr_small by lia.
  replace (count s + 1 - 1)%N with (N.of_nat (length (window s))) by lia.
  rewrite Halpha, Hbeta.
  rewrite (update_loop xs (past_sample st) (count s + 1) (window s));
    [|done|unfold uint_modulus, k in *; lia|done|done|done|done
     |rewrite Hlalpha; unfold k in *; lia
     |rewrite Hlbeta; unfold k in *; lia].
  cbn [mbind option_bind].
  destruct (shift_window_spec xs (past_sample st) (past_sample_replace st)
              (window s) (length (window s)) (N.to_nat k))
    as (past' & Hshift & Hshape' & Htake');
    [done|unfold uint_modulus, k in *; lia|done|done|lia
    |unfold k in *; lia|done|].
  rewrite Hshift. cbn [mbind option_bind].
  rewrite Hmean, (update_mean_spec xs (mean s) (count s + 1)) by done.
  cbn [mbind option_bind]. eexists. split; [reflexivity|].
  rewrite (take_ge (window s)) in Htake' by lia.
  unfold represents, warm_up_summary. simpl.
  repeat split; try done.
  - lia.
  - rewrite length_zip_with. lia.
  - by rewrite length_imap.
  - by rewrite length_imap.
  - by apply beta_rows.
  - unfold k in *. lia.
  - by constructor.
  - apply Hshape'.
  - apply Hshape'.
  - apply Hshape'.
  - apply Hshape'.
Qed.

(** A sample in the last branch. *)
Lemma steady_state_spec (s : summary) (st : state) (xs : valarray) :
  represents (length xs) s st →
  (N.of_nat (length xs) < uint_modulus)%N →
  (0 < length xs)%nat →
  (k ≤ count s)%N →
  (count s + 1 < sample_index_modulus)%N →
  ∃ st', steady_state st xs = Some st'
    ∧ represents (length xs) (steady_state_summary s xs) st'.
Proof.
  intros Hrep Hsize Hpos Hge Hsmall. open_represents Hrep.
  assert (length (window s) = N.to_nat k) as Hw
    by (unfold k in *; lia).
  assert (to_double (count s + 1) ≠ 0) as Hnz
    by (apply to_double_nonzero; lia).
  unfold steady_state. rewrite Hn, (sample_index_incr_small _ Hsmall).
  rewrite Halpha, Hbeta.
  pose proof (update_loop xs (past_sample st) (count s + 1) (window s)
                (lag_alpha s) (lag_beta s)) as Hupdate.
  rewrite Hw, N2Nat.id in Hupdate.
  rewrite Hupdate; [|done|done|done|by rewrite <- Hw|done|done|lia|lia].
  cbn [mbind option_bind].
  destruct (shift_window_spec xs (past_sample st) (past_sample_replace st)
              (window s) 9 (N.to_nat k))
    as (past' & Hshift & Hshape' & Htake');
    [done|done|done|done|rewrite Hw, to_nat_k; lia|rewrite to_nat_k; lia
    |done|].
  change (k - 1)%N with (N.of_nat 9).
  rewrite Hshift. cbn [mbind option_bind].
  rewrite Hmean, (update_mean_spec xs (mean s) (count s + 1)) by done.
  cbn [mbind option_bind]. rewrite Hgamma.
  rewrite recompute_spec;
    [|done|rewrite length_zip_with; lia|done|lia|by rewrite length_imap
     |by rewrite length_imap|done|by apply beta_rows].
  cbn [mbind option_bind]. eexists. split; [reflexivity|].
  unfold represents, steady_state_summary. simpl.
  change (N.to_nat (k - 1)) with 9%nat.
  assert (length (take 9 (window s)) = 9%nat) as Htl
    by (rewrite length_take, Hw, to_nat_k; lia).
  repeat split; try done.
  - lia.
  - rewrite length_zip_with. lia.
  - by rewrite length_imap.
  - by rewrite length_imap.
  - by apply beta_rows.
  - rewrite length_zip_with, !length_imap. lia.
  - by rewrite Htl.
  - rewrite Htl. unfold k in *. lia.
  - constructor; [done|]. by apply Forall_take.
  - apply Hshape'.
  - apply Hshape'.
  - apply Hshape'.
  - apply Hshape'.
Qed.

Lemma phase_of_First (n : N) : phase_of n = First ↔ n = 0%N.
Proof. unfold phase_of. repeat case_decide; split; done. Qed.

Lemma phase_of_WarmUp (n : N) : phase_of n = WarmUp ↔ (1 ≤ n < k)%N.
Proof.
  unfold phase_of.
  destruct (decide (n = 0%N)); [|destruct (decide (n < k)%N)];
    split; intros H; try discriminate; try reflexivity; unfold k in *; lia.
Qed.

Lemma phase_of_Steady (n : N) : phase_of n = Steady ↔ (k ≤ n)%N.
Proof.
  unfold phase_of.
  destruct (decide (n = 0%N)); [|destruct (decide (n < k)%N)];
    split; intros H; try discriminate; try reflexivity; unfold k in *; lia.
Qed.

(** One call of [consume] on a state that holds a summary. *)
Lemma consume_spec (s : summary) (st : state) (xs : valarray) :
  represents (length xs) s st →
  (N.of_nat (length xs) < uint_modulus)%N →
  (count s + 1 < sample_index_modulus)%N →
  ((k ≤ count s)%N → (0 < length xs)%nat) →
  ∃ st', consume st xs = Some st'
    ∧ represents (length xs) (step_summary s xs) st'.
Proof.
  intros Hrep Hsize Hsmall Hpos. unfold consume, step_summary.
  pose proof Hrep as (Hn & Hcount & _). rewrite Hn.
  destruct (decide (count s < k)%N) as [Hlt|Hge].
  - rewrite (proj2 (phase_of_WarmUp _)) by lia. by apply warm_up_spec.
  - rewrite (proj2 (phase_of_Steady _)) by lia.
    apply steady_state_spec; [done|done|apply Hpos; lia|lia|done].
Qed.

Lemma update_mean_Some (xs mean mean' : valarray) (n : N) :
  update_mean xs mean n = Some mean' → length xs = length mean.
Proof.
  unfold update_mean, valarray_binop. by destruct (decide (length xs = _)).
Qed.

Lemma shift_window_Some (xs : valarray) (past psr psr' : matrix) (b : N) :
  shift_window xs past psr b = Some psr' →
  (N.of_nat (length xs) < uint_modulus)%N.
Proof.
  unfold shift_window. intros H.
  apply bind_Some in H as (m & _ & H). by apply for_uint_Some in H.
Qed.

Lemma for_uint_first {S : Type} (bound : N) (body : nat → S → M S)
    (s s' : S) :
  for_uint bound body s = Some s' → (0 < bound)%N → is_Some (body 0%nat s).
Proof.
  unfold for_uint. destruct (decide _); [|done]. intros Hloop Hpos.
  destruct (N.to_nat bound) as [|c] eqn:Hc; [lia|]. simpl in Hloop.
  by destruct (body 0%nat s).
Qed.

Lemma update_alpha_beta_Some (xs : valarray) (past : matrix) (n : N)
    (i : nat) (ab : matrix * matrix) :
  is_Some (update_alpha_beta xs past n i ab) → to_double n ≠ 0.
Proof.
  unfold update_alpha_beta. intros [r H] Hz.
  apply bind_Some in H as (acc & _ & H).
  apply bind_Some in H as (a & _ & H).
  apply bind_Some in H as (u & Hdiv & _).
  unfold double_div in Hdiv. by destruct (decide (to_double n = 0)).
Qed.

Lemma to_double_0 (n : N) : to_double n = 0 → n = 0%N.
Proof.
  intros Hz. destruct (decide (n = 0%N)) as [|Hne]; [done|].
  exfalso. apply (to_double_nonzero n); [lia|done].
Qed.

Lemma recompute_Some (xs mean : valarray) (al be ac ac' : matrix) (n : N) :
  recompute xs mean al be n ac = Some ac' → mean ≠ [].
Proof.
  unfold recompute. intros Hloop ->.
  apply for_uint_first in Hloop as [r H]; [|done].
  apply bind_Some in H as (a & _ & H).
  apply bind_Some in H as (m1 & _ & H).
  apply bind_Some in H as (m2 & _ & H).
  apply bind_Some in H as (q & _ & H).
  simpl in H. done.
Qed.

(** What a call of [consume] that returns says of the sample, and the
    summary its result holds. *)
Lemma consume_inv (d : nat) (s : summary) (st st' : state) (xs : valarray) :
  represents d s st → consume st xs = Some st' →
  length xs = d
  ∧ (N.of_nat d < uint_modulus)%N
  ∧ (count s + 1 < sample_index_modulus)%N
  ∧ ((k ≤ count s)%N → (0 < d)%nat)
  ∧ represents d (step_summary s xs) st'.
Proof.
  intros Hrep Hc.
  pose proof Hrep as (Hn & Hcount & Hmean & Hlmean & _).
  assert (length xs = d ∧ (N.of_nat d < uint_modulus)%N
          ∧ (count s + 1 < sample_index_modulus)%N
          ∧ ((k ≤ count s)%N → (0 < d)%nat)) as (Hd & Hsize & Hsmall & Hpos).
  { unfold consume in Hc. rewrite Hn in Hc.
    destruct (decide (count s < k)%N) as [Hlt|Hge].
    - rewrite (proj2 (phase_of_WarmUp _)) in Hc by lia.
      unfold warm_up in Hc.
      apply bind_Some in Hc as ([al be] & _ & Hc).
      apply bind_Some in Hc as (past' & Hshift & Hc).
      apply bind_Some in Hc as (mean' & Hupd & _).
      apply update_mean_Some in Hupd. apply shift_window_Some in Hshift.
      rewrite Hmean, Hlmean in Hupd. subst d.
      repeat split; try done; unfold k, sample_index_modulus in *; lia.
    - rewrite (proj2 (phase_of_Steady _)) in Hc by lia.
      unfold steady_state in Hc.
      apply bind_Some in Hc as ([al be] & Hloop & Hc).
      apply bind_Some in Hc as (past' & Hshift & Hc).
      apply bind_Some in Hc as (mean' & Hupd & Hc).
      apply bind_Some in Hc as (ac' & Hrec & _).
      apply for_uint_first in Hloop; [|done].
      apply update_alpha_beta_Some in Hloop.
      assert (sample_index_incr (n_samples st) ≠ 0%N) as Hincr
        by (intros Hz; apply Hloop; rewrite Hz; apply Z2Qc_inj_0).
      pose proof (update_mean_Some _ _ _ _ Hupd) as Hlen.
      apply shift_window_Some in Hshift.
      rewrite Hmean, Hlmean in Hlen. subst d.
      assert (count s + 1 < sample_index_modulus)%N as Hsmall.
      { unfold sample_index_incr in Hincr. rewrite Hn in Hincr.
        destruct (decide (count s + 1 = sample_index_modulus)%N) as [Heq|];
          [|lia].
        rewrite Heq, N.Div0.mod_same in Hincr. done. }
      split; [done|]. split; [by rewrite <- Hlen|]. split; [done|].
      intros _. rewrite <- Hlen.
      apply recompute_Some in Hrec.
      rewrite Hmean, update_mean_spec in Hupd;
        [|done|apply to_double_nonzero; rewrite Hn,
                 sample_index_incr_small; lia].
      destruct xs; [|simpl; lia].
      destruct (mean s); simpl in Hupd; by simplify_eq. }
  do 4 (split; [done|]).
  destruct (consume_spec s st xs) as (st2 & Hc2 & Hrep2);
    [by rewrite Hd|by rewrite Hd|done|by rewrite Hd|].
  rewrite Hc in Hc2. rewrite Hd in Hrep2. by simplify_eq.
Qed.

Lemma count_step (s : summary) (xs : valarray) :
  count (step_summary s xs) = (count s + 1)%N.
Proof. unfold step_summary. by case_decide. Qed.

Lemma count_run (samples : list valarray) (s : summary) :
  count (run_summary s samples) = (count s + N.of_nat (length samples))%N.
Proof.
  revert s. unfold run_summary.
  induction samples as [|x rest IH]; intros s; simpl; [lia|].
  rewrite IH, count_step. lia.
Qed.

(** While the count stays within [k] the exported values stay. *)
Lemma gamma_run_warm_up (samples : list valarray) (s : summary) :
  (count s + N.of_nat (length samples) ≤ k)%N →
  gamma (run_summary s samples) = gamma s.
Proof.
  revert s. unfold run_summary.
  induction samples as [|x rest IH]; intros s Hle; simpl; [done|].
  simpl in Hle. rewrite IH by (rewrite count_step; lia).
  unfold step_summary. case_decide; [done|lia].
Qed.

(** A sequence of calls from a state that holds a summary. *)
Lemma consume_all_spec (d : nat) (samples : list valarray) (s : summary)
    (st : state) :
  represents d s st →
  Forall (λ x, length x = d) samples →
  (N.of_nat d < uint_modulus)%N →
  (count s + N.of_nat (length samples) < sample_index_modulus)%N →
  ((0 < d)%nat ∨ (count s + N.of_nat (length samples) ≤ k)%N) →
  ∃ st', consume_all st samples = Some st'
    ∧ represents d (run_summary s samples) st'.
Proof.
  revert s st. induction samples as [|x rest IH];
    intros s st Hrep Hall Hsize Hsmall Hpos.
  { exists st. by split. }
  inversion Hall as [|? ? Hx Hrest]; subst. simpl in Hsmall, Hpos.
  destruct (consume_spec s st x) as (st1 & Hc1 & Hrep1);
    [done|done|lia|intros Hk; destruct Hpos; [done|lia]|].
  destruct (IH (step_summary s x) st1) as (st' & Hc' & Hrep');
    [done|done|done|rewrite count_step; lia
    |rewrite count_step; destruct Hpos; [by left|right; lia]|].
  exists st'. simpl. rewrite Hc1. by simpl.
Qed.

Lemma consume_all_inv (d : nat) (samples : list valarray) (s : summary)
    (st st' : state) :
  represents d s st → consume_all st samples = Some st' →
  Forall (λ x, length x = d) samples
  ∧ (samples ≠ [] → (N.of_nat d < uint_modulus)%N)
  ∧ (count s + N.of_nat (length samples) < sample_index_modulus)%N
  ∧ represents d (run_summary s samples) st'.
Proof.
  revert s st. induction samples as [|x rest IH]; intros s st Hrep Hc.
  { simpl in Hc. simplify_eq. split; [constructor|]. split; [done|].
    split; [|done]. simpl. rewrite N.add_0_r. apply Hrep. }
  simpl in Hc. apply bind_Some in Hc as (st1 & Hc1 & Hc).
  destruct (consume_inv d s st st1 x Hrep Hc1)
    as (Hx & Hsize & Hsmall & Hpos & Hrep1).
  destruct (IH _ _ Hrep1 Hc) as (Hall & _ & Hsmall' & Hrep').
  rewrite count_step in Hsmall'.
  split; [by constructor|]. split; [done|]. split; [simpl; lia|done].
Qed.

Lemma phase_of_0 : phase_of 0 = First.
Proof. reflexivity. Qed.

Lemma first_inv (xs : valarray) (st : state) :
  consume Spurious_Autocovariance xs = Some st →
  (N.of_nat (length xs) < uint_modulus)%N
  ∧ represents (length xs) (first_summary xs) st.
Proof.
  unfold consume. cbn [n_samples Spurious_Autocovariance].
  rewrite phase_of_0. intros Hc.
  assert (N.of_nat (length xs) < uint_modulus)%N as Hsize.
  { unfold first_sample in Hc.
    apply bind_Some in Hc as ([[ac al] be] & _ & Hc).
    apply bind_Some in Hc as (past & Hfill & _).
    by apply for_uint_Some in Hfill. }
  split; [done|].
  destruct (first_sample_spec xs Hsize) as (st2 & Hc2 & Hrep2).
  rewrite Hc in Hc2. by simplify_eq.
Qed.

(** Every run that returns, from the constructed object on. *)
Lemma run_inv (x : valarray) (rest : list valarray) (st : state) :
  consume_all Spurious_Autocovariance (x :: rest) = Some st →
  Forall (λ y, length y = length x) rest
  ∧ (N.of_nat (length x) < uint_modulus)%N
  ∧ (N.of_nat (length (x :: rest)) < sample_index_modulus)%N
  ∧ represents (length x) (run_summary (first_summary x) rest) st.
Proof.
  intros Hc. simpl in Hc. apply bind_Some in Hc as (st1 & Hc1 & Hc).
  destruct (first_inv x st1 Hc1) as (Hsize & Hrep1).
  destruct (consume_all_inv _ _ _ _ _ Hrep1 Hc) as (Hall & _ & Hsmall & Hrep).
  simpl in Hsmall. split; [done|]. split; [done|]. split; [|done].
  simpl. lia.
Qed.

Lemma run_spec (x : valarray) (rest : list valarray) :
  Forall (λ y, length y = length x) rest →
  (N.of_nat (length x) < uint_modulus)%N →
  (N.of_nat (length (x :: rest)) < sample_index_modulus)%N →
  ((0 < length x)%nat ∨ (N.of_nat (length (x :: rest)) ≤ k)%N) →
  ∃ st, consume_all Spurious_Autocovariance (x :: rest) = Some st
    ∧ represents (length x) (run_summary (first_summary x) rest) st.
Proof.
  intros Hall Hsize Hsmall Hpos.
  destruct (first_sample_spec x Hsize) as (st1 & Hc1 & Hrep1).
  destruct (consume_all_spec (length x) rest (first_summary x) st1)
    as (st & Hc & Hrep); [done|done|done|simpl in *; lia| |].
  { destruct Hpos; [by left|right; simpl in *; lia]. }
  exists st. split; [|done]. cbn [consume_all].
  unfold consume at 1. cbn [n_samples Spurious_Autocovariance].
  rewrite phase_of_0, Hc1. by simpl.
Qed.

End AutocovarianceSteps.

(** *** Spurious_Autocovariance *)

Module AutocovarianceSpec.
Import NumericFacts LoopFacts MatrixFacts AutocovarianceLoops.
Import AutocovarianceSteps Spurious_Autocovariance.

Lemma column_zeros : column (replicate (N.to_nat k) 0) = zeros 10 1.
Proof. reflexivity. Qed.

Lemma initialised_zeros (d : nat) :
  initialised (replicate (N.to_nat k) (replicate d 0)) = zeros 10 d.
Proof.
  unfold initialised, zeros. rewrite fmap_replicate. f_equal.
  apply fmap_replicate.
Qed.

(** C7. After exactly one call, on a sample the loops can index, [get]
    returns the all-zero matrix with ten rows and one column; [alpha]
    and [beta] are zero for all ten lags, the running mean is the
    sample and the sample is the first row of the window. *)
Theorem zero_after_first_sample (x : valarray) :
  (N.of_nat (length x) < uint_modulus)%N →
  ∃ st, consume Spurious_Autocovariance x = Some st
    ∧ get st = zeros 10 1
    ∧ alpha st = zeros 10 1
    ∧ beta st = zeros 10 (length x)
    ∧ current_mean st = x
    ∧ past_sample st !! 0%nat = Some (Some <$> x)
    ∧ n_samples st = 1%N.
Proof.
  intros Hsize.
  destruct (run_spec x []) as (st & Hrun & Hrep);
    [done|done|done|right; unfold k; simpl; lia|].
  simpl in Hrun. apply bind_Some in Hrun as (st1 & Hc & Heq).
  simplify_eq. exists st. split; [done|].
  destruct Hrep as (Hn & _ & Hmean & _ & Halpha & _ & Hbeta & _ & _ & Hgamma
                    & _ & Hpast & _).
  unfold run_summary in *.
  cbn [foldl first_summary count mean lag_alpha lag_beta window gamma] in *.
  unfold get. rewrite Hgamma, Halpha, Hbeta, Hmean, Hn.
  rewrite column_zeros, initialised_zeros.
  repeat split; try done.
  destruct (past_sample st) as [|row rest]; simpl in Hpast; by simplify_eq.
Qed.

(** Without the bound on the dimension the call does not return. *)
Lemma first_sample_returns (x : valarray) :
  is_Some (consume Spurious_Autocovariance x)
  ↔ (N.of_nat (length x) < uint_modulus)%N.
Proof.
  split.
  - intros [st Hc]. by apply first_inv in Hc as [Hsize _].
  - intros Hsize.
    destruct (run_spec x []) as (st & Hrun & _);
      [done|done|done|right; unfold k; simpl; lia|].
    cbn [consume_all] in Hrun.
    apply bind_Some in Hrun as (st1 & Hc & _). by exists st1.
Qed.

Lemma shape_column (values : list Qc) :
  shape (length values) 1 (column values).
Proof.
  unfold shape, column. rewrite length_fmap. split; [done|].
  apply Forall_fmap, Forall_forall. done.
Qed.

(** C5, as amended. The lag depth is the constant [k = 10] of [consume],
    the same for every object and every call: after at least one sample
    the matrix [get] returns has ten rows, one per lag, and one column;
    and every sequence of samples of one positive dimension is
    consumed. *)
Theorem lag_depth_is_ten :
  k = 10%N
  ∧ honours_lag_depth k
  ∧ ∀ (d : nat) (samples : list valarray),
      Forall (λ x, length x = d) samples →
      (0 < d)%nat → (N.of_nat d < uint_modulus)%N →
      (N.of_nat (length samples) < sample_index_modulus)%N →
      is_Some (consume_all Spurious_Autocovariance samples).
Proof.
  split; [done|]. split.
  - intros samples st Hne Hrun.
    destruct samples as [|x rest]; [done|].
    apply run_inv in Hrun as (_ & _ & _ & Hrep).
    destruct Hrep as (_ & _ & _ & _ & _ & _ & _ & _ & _ & Hgamma & Hl & _).
    unfold get. rewrite Hgamma, <- Hl. apply shape_column.
  - intros d samples Hall Hpos Hsize Hsmall.
    destruct samples as [|x rest]; [by eexists|].
    inversion Hall as [|? ? Hx Hrest]; subst.
    destruct (run_spec x rest) as (st & Hrun & _);
      [done|done|done|by left|].
    by exists st.
Qed.

(** C5 as stated fails: no lag depth is supplied at construction (the
    constructor takes no argument), and an object meant to track, say,
    three lags returns ten rows. *)
Lemma lag_depth_counterexample : ¬ honours_lag_depth 3.
Proof.
  intros H.
  destruct (run_spec [1] []) as (st & Hrun & Hrep);
    [done|done|done|left; simpl; lia|].
  destruct (H [[1]] st) as [Hrows _]; [done|done|].
  destruct Hrep as (_ & _ & _ & _ & _ & _ & _ & _ & _ & Hgamma & Hl & _).
  unfold get in Hrows. rewrite Hgamma in Hrows.
  unfold column in Hrows. rewrite length_fmap, Hl in Hrows. done.
Qed.

(** C3, as amended. On a state reached by [n - 1 >= 1] samples, the
    call that brings the count to [n] takes the last branch exactly
    when [n > k] and the branch [n_samples < k] exactly when
    [1 < n <= k]. In the last branch the call returns and the new state
    holds [steady_state_summary]: [alpha(i)] and [beta(i)] updated for
    every lag index [i] in [0..k-1], the window shifted with its oldest
    sample dropped, the mean updated and the exported value recomputed
    for every lag. In the other the new state holds [warm_up_summary]
    and the exported values are those before the call. *)
Theorem steady_state_phase (samples : list valarray) (st : state)
    (x : valarray) :
  samples ≠ [] →
  consume_all Spurious_Autocovariance samples = Some st →
  Forall (λ y, length y = length x) samples →
  (N.of_nat (length samples) + 1 < sample_index_modulus)%N →
  ∃ s, represents (length x) s st
    ∧ (count s + 1 = N.of_nat (length samples) + 1)%N
    ∧ (phase_of (n_samples st) = Steady ↔ (k < count s + 1)%N)
    ∧ (phase_of (n_samples st) = WarmUp ↔ (1 < count s + 1 ≤ k)%N)
    ∧ ((k < count s + 1)%N → (0 < length x)%nat →
       length (window s) = N.to_nat k
       ∧ ∃ st', consume st x = Some st'
           ∧ steady_state st x = Some st'
           ∧ represents (length x) (steady_state_summary s x) st')
    ∧ ((count s + 1 ≤ k)%N →
       ∃ st', consume st x = Some st'
         ∧ warm_up st x = Some st'
         ∧ represents (length x) (warm_up_summary s x) st'
         ∧ get st' = get st)
    ∧ steady_from_count (k + 1).
Proof.
  intros Hne Hrun Hall Hsmall.
  destruct samples as [|y rest]; [done|]. clear Hne.
  inversion Hall as [|? ? Hy Hrest]; subst.
  destruct (run_inv _ _ _ Hrun) as (_ & Hsize & _ & Hrep).
  rewrite Hy in Hsize, Hrep.
  set (s := run_summary (first_summary y) rest) in *.
  assert (count s = N.of_nat (length (y :: rest))) as Hcount.
  { unfold s. rewrite count_run. simpl. lia. }
  pose proof Hrep as (Hn & Hc1 & _ & _ & _ & _ & _ & _ & _ & Hgamma & _
                      & _ & Hlw & _).
  exists s. split; [done|]. split; [by rewrite Hcount|].
  rewrite Hn. split; [rewrite phase_of_Steady; lia|].
  split; [rewrite phase_of_WarmUp; lia|]. split; [|split].
  - intros Hk Hpos. split; [unfold k in *; lia|].
    destruct (steady_state_spec s st x) as (st' & Hc & Hrep');
      [done|done|done|lia|lia|].
    exists st'. split; [|done]. unfold consume.
    rewrite Hn, (proj2 (phase_of_Steady _)); [done|lia].
  - intros Hk.
    destruct (warm_up_spec s st x) as (st' & Hc & Hrep');
      [done|done|lia|].
    exists st'. split; [|split; [done|split; [done|]]].
    + unfold consume. rewrite Hn, (proj2 (phase_of_WarmUp _)); [done|lia].
    + destruct Hrep' as (_ & _ & _ & _ & _ & _ & _ & _ & _ & Hgamma' & _).
      unfold get. by rewrite Hgamma', Hgamma.
  - intros samples' st' Hne' Hrun'.
    destruct samples' as [|z rest']; [done|].
    destruct (run_inv _ _ _ Hrun') as (_ & _ & _ & Hrep').
    destruct Hrep' as (Hn' & _). rewrite Hn', count_run, phase_of_Steady.
    simpl. lia.
Qed.

(** C3 as stated fails: the tenth call brings the count to [k] and
    still takes the branch [n_samples < k]. *)
Lemma steady_state_counterexample : ¬ steady_from_count k.
Proof.
  intros H.
  destruct (run_spec [1] (replicate 8 [1])) as (st & Hrun & Hrep);
    [by apply Forall_replicate|done|done|left; simpl; lia|].
  destruct (H (replicate 9 [1]) st) as [_ Hsteady]; [done|done|].
  destruct Hrep as (Hn & _). rewrite Hn, count_run in Hsteady.
  by specialize (Hsteady ltac:(by vm_compute)).
Qed.

Lemma integer_quotient_is_zero (n : N) : (1 ≤ n)%N → ((n - 1) / n = 0)%N.
Proof. intros Hn. apply N.div_small. lia. Qed.

(** What the last branch exports: the term with [(n-1)/n] vanishes. *)
Lemma exported_without_mean_term (n : N) (m : list Qc) (a : Qc) (b : list Qc) :
  (1 ≤ n)%N → exported n m a b = a - dot m b.
Proof.
  intros Hn. unfold exported. rewrite integer_quotient_is_zero by done.
  change (to_double 0) with (Qc_of_Z 0). rewrite Z2Qc_inj_0. ring.
Qed.

(** C1, evaluated. On eleven samples equal to 1 the exported values
    are [-10/11, ..., -1/11], those of [alpha(l) - mean · beta(l)],
    while the closed form with the quotient [(n-1)/n = 10/11] gives
    [0, 1/11, ..., 9/11]: in [consume] the quotient is an integer
    division and is zero. In general the two differ by
    [((n-1)/n) · (mean · mean)]. *)
Theorem exported_value_misses_mean_term :
  (∀ (n : N) (m : list Qc) (a : Qc) (b : list Qc),
      (1 ≤ n)%N →
      closed_form n m a b - exported n m a b
      = to_double (n - 1) / to_double n * dot m m)
  ∧ ∃ st s,
      consume_all Spurious_Autocovariance (replicate 11 [1]) = Some st
      ∧ represents 1 s st
      ∧ phase_of 10 = Steady
      ∧ count s = 11%N
      ∧ mean s = [1]
      ∧ get st = column (gamma s)
      ∧ gamma s = zip_with (exported 11 (mean s)) (lag_alpha s) (lag_beta s)
      ∧ gamma s
        = (λ z, Q2Qc (z # 11)) <$> [-10; -9; -8; -7; -6; -5; -4; -3; -2; -1]%Z
      ∧ zip_with (closed_form 11 (mean s)) (lag_alpha s) (lag_beta s)
        = (λ z, Q2Qc (z # 11)) <$> [0; 1; 2; 3; 4; 5; 6; 7; 8; 9]%Z.
Proof.
  split.
  - intros n m a b Hn. rewrite exported_without_mean_term by done.
    unfold closed_form. ring.
  - destruct (run_spec [1] (replicate 10 [1])) as (st & Hrun & Hrep);
      [by apply Forall_replicate|done|done|left; simpl; lia|].
    exists st, (run_summary (first_summary [1]) (replicate 10 [1])).
    split; [exact Hrun|]. split; [exact Hrep|]. split; [reflexivity|].
    pose proof Hrep as (_ & _ & _ & _ & _ & _ & _ & _ & _ & Hgamma & _).
    split; [compute_done|]. split; [compute_done|]. split; [exact Hgamma|].
    split; [compute_done|]. split; compute_done.
Qed.

Lemma zero_after_first_sample_witness :
  ∃ st, consume Spurious_Autocovariance [1; Qc_of_Z 2] = Some st
    ∧ get st = zeros 10 1.
Proof.
  destruct (zero_after_first_sample [1; Qc_of_Z 2]) as (st & Hc & Hget & _).
  - vm_compute. reflexivity.
  - exists st. split; [exact Hc|exact Hget].
Defined.

Lemma steady_state_phase_witness :
  ∃ s, represents 1 s (after (replicate 10 [1]))
    ∧ (phase_of (n_samples (after (replicate 10 [1]))) = Steady
       ↔ (k < count s + 1)%N)
    ∧ count s = 10%N.
Proof.
  destruct (steady_state_phase (replicate 10 [1]) (after (replicate 10 [1]))
              [1])
    as (s & Hrep & Hcount & Hsteady & _).
  - discriminate.
  - vm_compute. reflexivity.
  - repeat constructor.
  - vm_compute. reflexivity.
  - exists s. split; [exact Hrep|]. split; [exact Hsteady|].
    simpl in Hcount. lia.
Defined.

Lemma lag_depth_is_ten_witness :
  shape 10 1 (get (after [[1]; [Qc_of_Z 3]])).
Proof.
  destruct lag_depth_is_ten as (_ & Hshape & _).
  apply (Hshape [[1]; [Qc_of_Z 3]]).
  - discriminate.
  - vm_compute. reflexivity.
Defined.

End AutocovarianceSpec.

(** *** Histogram: bins, end points and the plot *)

Module HistogramProperties.
Import NumericFacts RationalFacts Histogram HistogramSpec.

(** **** The integer part of a non-negative rational *)

Lemma Qc_of_Z_le (q : Qc) (z : Z) :
  Qc_of_Z z ≤ q ↔ (z * Zpos (Qden q) ≤ Qnum q)%Z.
Proof. unfold Qcle, Qle. simpl. lia. Qed.

Lemma Qc_lt_of_Z (q : Qc) (z : Z) :
  q < Qc_of_Z z ↔ (Qnum q < z * Zpos (Qden q))%Z.
Proof. unfold Qclt, Qlt. simpl. lia. Qed.

Lemma truncate_floor (q : Qc) :
  0 ≤ q → Qc_of_Z (truncate q) ≤ q ∧ q < Qc_of_Z (truncate q + 1).
Proof.
  intros Hq. assert (0 ≤ Qnum q)%Z as Hnum.
  { unfold Qcle, Qle in Hq. simpl in Hq. lia. }
  rewrite Qc_of_Z_le, Qc_lt_of_Z. unfold truncate.
  rewrite Z.quot_div_nonneg by lia.
  pose proof (Z.mul_div_le (Qnum q) (Zpos (Qden q))).
  pose proof (Z.mul_succ_div_gt (Qnum q) (Zpos (Qden q))).
  lia.
Qed.

Lemma truncate_mono (p q : Qc) :
  0 ≤ p → p ≤ q → (truncate p ≤ truncate q)%Z.
Proof.
  intros Hp Hpq.
  assert (0 ≤ q) as Hq by (by apply (Qcle_trans _ p)).
  destruct (truncate_floor p Hp) as [Hp1 _].
  destruct (truncate_floor q Hq) as [_ Hq2].
  pose proof (Qcle_lt_trans _ _ _ (Qcle_trans _ _ _ Hp1 Hpq) Hq2) as Hlt.
  unfold Qclt, Qlt in Hlt. simpl in Hlt. lia.
Qed.

(** An integer is below [q] exactly when it is below its integer
    part. *)
Lemma truncate_ge (q : Qc) (z : Z) :
  0 ≤ q → Qc_of_Z z ≤ q ↔ (z ≤ truncate q)%Z.
Proof.
  intros Hq. destruct (truncate_floor q Hq) as [Hlo Hhi]. split.
  - intros Hz. pose proof (Qcle_lt_trans _ _ _ Hz Hhi) as Hlt.
    unfold Qclt, Qlt in Hlt. simpl in Hlt. lia.
  - intros Hz. apply (Qcle_trans _ (Qc_of_Z (truncate q))); [|done].
    unfold Qcle, Qle. simpl. lia.
Qed.

Lemma truncate_lt (q : Qc) (z : Z) :
  0 ≤ q → q < Qc_of_Z z ↔ (truncate q < z)%Z.
Proof.
  intros Hq. split.
  - intros Hlt. destruct (Z.lt_ge_cases (truncate q) z) as [|Hge]; [done|].
    apply (truncate_ge q z Hq) in Hge. by apply Qcle_not_lt in Hge.
  - intros Hlt. apply Qcnot_le_lt. intros Hge.
    apply (truncate_ge q z Hq) in Hge. lia.
Qed.

(** **** Quotients by a positive number *)

Lemma Qcdiv_mult_cancel (a b : Qc) : b ≠ 0 → a / b * b = a.
Proof. intros Hb. by field. Qed.

Lemma Qcle_div_iff (a b c : Qc) : 0 < b → c ≤ a / b ↔ c * b ≤ a.
Proof.
  intros Hb. assert (b ≠ 0) as Hnz by (by apply Qclt_not_eq in Hb).
  split; intros Hle.
  - rewrite <- (Qcdiv_mult_cancel a b Hnz).
    apply Qcmult_le_compat_r; [done|by apply Qclt_le_weak].
  - apply (Qcmult_lt_0_le_reg_r _ _ b Hb).
    by rewrite (Qcdiv_mult_cancel a b Hnz).
Qed.

Lemma Qcdiv_lt_iff (a b c : Qc) : 0 < b → a / b < c ↔ a < c * b.
Proof.
  intros Hb. split; intros Hlt.
  - apply Qcnot_le_lt. intros Hle. apply (Qcle_div_iff a b c Hb) in Hle.
    by apply Qcle_not_lt in Hle.
  - apply Qcnot_le_lt. intros Hle. apply (Qcle_div_iff a b c Hb) in Hle.
    by apply Qcle_not_lt in Hle.
Qed.

Lemma Qcdiv_le_mono (a b c : Qc) : 0 < c → a ≤ b → a / c ≤ b / c.
Proof.
  intros Hc Hab. apply Qcle_div_iff; [done|].
  rewrite Qcdiv_mult_cancel; [done|]. by apply Qclt_not_eq in Hc.
Qed.

(** **** What [consume] keeps *)

Section Runs.
Context {libm : Libm}.

(** The bin of a value depends on the configuration only. *)
Lemma bin_number_set_bins (h : state) (b : list N) (x : Qc) :
  bin_number (set_bins h b) x = bin_number h x.
Proof. reflexivity. Qed.

Lemma consume_cases (h h' : state) (x : Qc) :
  consume h x = Some h' →
  h' = h
  ∨ ∃ bin count, bin_number h x = Some bin
      ∧ bins h !! N.to_nat bin = Some count
      ∧ h' = set_bins h
               (<[N.to_nat bin := sample_index_incr count]> (bins h)).
Proof.
  unfold consume. intros Hc.
  destruct (Qc_ltb x (min_value h) || Qc_ltb (max_value h) x).
  { left. by inversion Hc. }
  destruct (bin_number h x) as [bin|]; [|done]. simpl in Hc.
  destruct (bins h !! N.to_nat bin) as [count|] eqn:Hcount; [|done].
  simpl in Hc. right. exists bin, count. by inversion Hc.
Qed.

Lemma consume_configuration (h h' : state) (x : Qc) :
  consume h x = Some h' →
  min_value h' = min_value h
  ∧ max_value h' = max_value h
  ∧ n_subdivisions h' = n_subdivisions h
  ∧ subdivision_scheme h' = subdivision_scheme h
  ∧ length (bins h') = length (bins h).
Proof.
  intros [->|(bin & count & _ & _ & ->)]%consume_cases; [done|].
  simpl. by rewrite length_insert.
Qed.

Lemma consume_all_configuration (samples : list Qc) (h h' : state) :
  consume_all h samples = Some h' →
  min_value h' = min_value h
  ∧ max_value h' = max_value h
  ∧ n_subdivisions h' = n_subdivisions h
  ∧ subdivision_scheme h' = subdivision_scheme h
  ∧ length (bins h') = length (bins h).
Proof.
  revert h. induction samples as [|x rest IH]; intros h Hrun.
  { simpl in Hrun. by inversion Hrun. }
  simpl in Hrun. destruct (consume h x) as [h1|] eqn:Hc; [|done].
  simpl in Hrun.
  destruct (consume_configuration _ _ _ Hc) as (<- & <- & <- & <- & <-).
  by apply IH.
Qed.

(** Two calls in either order. *)
Lemma consume_swap (h : state) (x y : Qc) :
  (h' ← consume h x; consume h' y) = (h' ← consume h y; consume h' x).
Proof.
  unfold consume.
  destruct (Qc_ltb x (min_value h) || Qc_ltb (max_value h) x) eqn:Hx;
    destruct (Qc_ltb y (min_value h) || Qc_ltb (max_value h) y) eqn:Hy;
    cbn [mbind option_bind]; rewrite ?Hx, ?Hy; try done.
  - destruct (bin_number h y) as [by_|]; [|done]. simpl.
    destruct (bins h !! N.to_nat by_) as [cy|]; [|done]. simpl.
    by rewrite Hx.
  - destruct (bin_number h x) as [bx|]; [|done]. simpl.
    destruct (bins h !! N.to_nat bx) as [cx|]; [|done]. simpl.
    by rewrite Hy.
  - destruct (bin_number h x) as [bx|] eqn:Hbx;
      destruct (bin_number h y) as [by_|] eqn:Hby; simpl; try done.
    + destruct (bins h !! N.to_nat bx) as [cx|] eqn:Hcx;
        destruct (bins h !! N.to_nat by_) as [cy|] eqn:Hcy; simpl;
        rewrite ?Hx, ?Hy, ?bin_number_set_bins, ?Hbx, ?Hby; simpl;
        try done.
      * destruct (decide (N.to_nat bx = N.to_nat by_)) as [Heq|Hne].
        -- rewrite Heq in *. simplify_eq.
           rewrite !list_lookup_insert_eq
             by (by eapply lookup_lt_Some).
           simpl. done.
        -- rewrite !list_lookup_insert_ne by done. rewrite Hcx, Hcy.
           simpl. unfold set_bins. simpl. f_equal. f_equal.
           apply list_insert_insert_ne. congruence.
      * destruct (decide (N.to_nat bx = N.to_nat by_)) as [Heq|Hne].
        -- rewrite Heq in *. by simplify_eq.
        -- rewrite list_lookup_insert_ne by done. by rewrite Hcy.
      * destruct (decide (N.to_nat bx = N.to_nat by_)) as [Heq|Hne].
        -- rewrite Heq in *. by simplify_eq.
        -- rewrite list_lookup_insert_ne by done. by rewrite Hcx.
    + destruct (bins h !! N.to_nat bx) as [cx|]; simpl; [|done].
      by rewrite Hy, bin_number_set_bins, Hby.
    + destruct (bins h !! N.to_nat by_) as [cy|]; simpl; [|done].
      by rewrite Hx, bin_number_set_bins, Hbx.
Qed.

Lemma consume_all_permutation (samples samples' : list Qc) :
  Permutation samples samples' →
  ∀ h, consume_all h samples = consume_all h samples'.
Proof.
  induction 1 as [|x l l' _ IH|x y l|l l' l'' _ IH1 _ IH2]; intros h.
  - done.
  - simpl. destruct (consume h x) as [h1|]; simpl; [apply IH|done].
  - cbn [consume_all].
    change (h' ← consume h y; h'' ← consume h' x; consume_all h'' l)
      with (h' ← consume h y; (λ h', h'' ← consume h' x;
                                      consume_all h'' l) h').
    pose proof (consume_swap h y x) as Hswap.
    destruct (consume h y) as [h1|]; destruct (consume h x) as [h2|];
      simpl in *; try done.
    + by rewrite Hswap.
    + by rewrite Hswap.
    + by rewrite <- Hswap.
  - by rewrite IH1.
Qed.
End Runs.

(** **** The linear scheme *)

(** The end point number [i] of a linear subdivision, as [get] computes
    it. *)
Local Abbreviation end_point lo hi n i :=
  (lo + to_double i * (hi - lo) / to_double n).

Lemma end_point_width (lo hi : Qc) (n i : N) :
  (0 < n)%N →
  end_point lo hi n i = lo + to_double i * ((hi - lo) / to_double n).
Proof. intros Hn. field. by apply to_double_nonzero. Qed.

Lemma end_point_0 (lo hi : Qc) (n : N) :
  (0 < n)%N → end_point lo hi n 0 = lo.
Proof.
  intros Hn. change (to_double 0) with (Qc_of_Z 0). rewrite Z2Qc_inj_0.
  field. by apply to_double_nonzero.
Qed.

Lemma end_point_n (lo hi : Qc) (n : N) :
  (0 < n)%N → end_point lo hi n n = hi.
Proof. intros Hn. field. by apply to_double_nonzero. Qed.

Lemma to_double_le (i j : N) : (i ≤ j)%N → to_double i ≤ to_double j.
Proof.
  intros Hij. unfold to_double.
  apply (proj1 (Z2Qc_inj_le (Z.of_N i) (Z.of_N j))). lia.
Qed.

Lemma to_double_nonneg (i : N) : 0 ≤ to_double i.
Proof.
  rewrite <- Z2Qc_inj_0. unfold to_double.
  apply (proj1 (Z2Qc_inj_le 0 (Z.of_N i))). lia.
Qed.

Lemma width_nonneg (lo hi : Qc) (n : N) :
  (0 < n)%N → lo ≤ hi → 0 ≤ (hi - lo) / to_double n.
Proof.
  intros Hn Hle. apply Qcdiv_nonneg; [by apply Qcminus_nonneg|].
  by apply to_double_pos.
Qed.

Lemma end_point_mono (lo hi : Qc) (n i j : N) :
  (0 < n)%N → lo ≤ hi → (i ≤ j)%N →
  end_point lo hi n i ≤ end_point lo hi n j.
Proof.
  intros Hn Hle Hij. rewrite !end_point_width by done.
  apply Qcplus_le_mono_l. apply Qcmult_le_compat_r.
  - by apply to_double_le.
  - by apply width_nonneg.
Qed.

Lemma Qcle_shift (lo a x : Qc) : lo + a ≤ x ↔ a ≤ x - lo.
Proof.
  replace x with (lo + (x - lo)) at 1 by ring.
  symmetry. apply Qcplus_le_mono_l.
Qed.

Lemma Qclt_shift (lo a x : Qc) : x < lo + a ↔ x - lo < a.
Proof.
  replace x with (lo + (x - lo)) at 1 by ring.
  symmetry. apply Qcplus_lt_mono_l.
Qed.

(** An end point against a value, as the position of the value in
    units of the bin width. *)
Lemma end_point_le (lo hi x : Qc) (n i : N) :
  (0 < n)%N → lo < hi →
  end_point lo hi n i ≤ x
  ↔ to_double i ≤ (x - lo) / ((hi - lo) / to_double n).
Proof.
  intros Hn Hlt. rewrite end_point_width by done.
  rewrite Qcle_shift. symmetry. apply Qcle_div_iff.
  apply Qcdiv_pos; [by apply Qcminus_pos|by apply to_double_pos].
Qed.

Lemma lt_end_point (lo hi x : Qc) (n i : N) :
  (0 < n)%N → lo < hi →
  x < end_point lo hi n i
  ↔ (x - lo) / ((hi - lo) / to_double n) < to_double i.
Proof.
  intros Hn Hlt. rewrite end_point_width by done.
  rewrite Qclt_shift. symmetry. apply Qcdiv_lt_iff.
  apply Qcdiv_pos; [by apply Qcminus_pos|by apply to_double_pos].
Qed.

(** A value within the range lies in bin [i] exactly when the clamped
    integer part of its position is [i]. *)
Lemma within_bin_position (lo hi x : Qc) (n i : N) :
  (0 < n)%N → lo < hi → lo ≤ x → x ≤ hi → (i < n)%N →
  within_bin (bool_decide (i = n - 1)%N)
    (end_point lo hi n i) (end_point lo hi n (i + 1)) x = true
  ↔ Z.min (Z.of_N n - 1)
      (truncate ((x - lo) / ((hi - lo) / to_double n)))
    = Z.of_N i.
Proof.
  intros Hn Hlt Hlo Hhi Hi.
  destruct (position_bounds (x - lo) (hi - lo) n) as [Hp0 Hp1];
    [done|by apply Qcminus_pos|by apply Qcminus_nonneg
    |by apply Qcminus_le_mono|].
  set (p := (x - lo) / ((hi - lo) / to_double n)) in *.
  unfold within_bin. rewrite andb_true_iff, negb_true_iff, Qc_ltb_false.
  rewrite (end_point_le lo hi x n i Hn Hlt). fold p.
  unfold to_double at 1. rewrite (truncate_ge p _ Hp0).
  case_bool_decide as Hlast.
  - rewrite negb_true_iff, Qc_ltb_false.
    replace (i + 1)%N with n by lia. rewrite (end_point_n lo hi n Hn).
    split; [lia|]. intros Hmin. split; [lia|done].
  - rewrite Qc_ltb_true, (lt_end_point lo hi x n (i + 1) Hn Hlt). fold p.
    unfold to_double. rewrite (truncate_lt p _ Hp0). lia.
Qed.

(** A value outside the range lies in no bin. *)
Lemma within_bin_outside (lo hi x : Qc) (n i : N) (last : bool) :
  (0 < n)%N → lo ≤ hi → (i < n)%N → x < lo ∨ hi < x →
  within_bin last (end_point lo hi n i) (end_point lo hi n (i + 1)) x
  = false.
Proof.
  intros Hn Hle Hi Hout. unfold within_bin.
  pose proof (end_point_mono lo hi n 0 i Hn Hle) as Hleft.
  rewrite end_point_0 in Hleft by done.
  pose proof (end_point_mono lo hi n (i + 1) n Hn Hle) as Hright.
  rewrite end_point_n in Hright by done.
  destruct Hout as [Hout|Hout].
  - assert (x < end_point lo hi n i) as Hlt.
    { apply (Qclt_le_trans _ lo); [done|]. apply Hleft. lia. }
    by apply Qc_ltb_true in Hlt as ->.
  - assert (end_point lo hi n (i + 1) < x) as Hlt.
    { apply (Qcle_lt_trans _ hi); [|done]. apply Hright. lia. }
    apply andb_false_iff. right. destruct last.
    + by apply Qc_ltb_true in Hlt as ->.
    + apply Qc_ltb_false. by apply Qclt_le_weak.
Qed.

Lemma count_within_cons (last : bool) (l r x : Qc) (rest : list Qc) :
  count_within last l r (x :: rest)
  = ((if within_bin last l r x then 1 else 0)
     + count_within last l r rest)%N.
Proof.
  unfold count_within. simpl. destruct (within_bin last l r x); simpl; lia.
Qed.

Section Linear.
Context {libm : Libm}.
Variables (lo hi : Qc) (n : N) (h : state).
Hypothesis Hmin : min_value h = lo.
Hypothesis Hmax : max_value h = hi.
Hypothesis Hn : n_subdivisions h = n.
Hypothesis Hscheme : subdivision_scheme h = linear.

(** The end points [get] computes for a bin. *)
Lemma bin_end_points_linear (bin : N) :
  (0 < n)%N → (bin + 1 < uint_modulus)%N →
  bin_end_points h bin
  = Some (end_point lo hi n bin, end_point lo hi n (bin + 1)).
Proof.
  intros Hpos Hbin. unfold bin_end_points.
  rewrite Hscheme, Hmin, Hmax, Hn.
  rewrite !double_div_Some by (by apply to_double_nonzero). simpl.
  by rewrite N.mod_small by done.
Qed.

Lemma get_linear :
  (0 < n < uint_modulus)%N → length (bins h) = N.to_nat n →
  get h
  = Some (zip ((λ i : nat, (end_point lo hi n (N.of_nat i),
                             end_point lo hi n (N.of_nat i + 1)))
                 <$> seq 0 (N.to_nat n))
            (bins h)).
Proof.
  intros Hpos Hlen. unfold get. rewrite Hn.
  replace (mapM (λ bin, bin_end_points h (N.of_nat bin))
             (seq 0 (N.to_nat n)))
    with (Some ((λ i : nat, (end_point lo hi n (N.of_nat i),
                              end_point lo hi n (N.of_nat i + 1)))
                  <$> seq 0 (N.to_nat n))).
  - simpl. rewrite <- Hlen, mapM_lookup_all. done.
  - symmetry. apply mapM_Some, Forall2_fmap_r, Forall_Forall2_diag.
    apply Forall_lookup_2. intros j i Hi.
    apply lookup_seq in Hi as [-> Hi]. simpl.
    apply bin_end_points_linear; lia.
Qed.

(** The bin of a value within the range. *)
Lemma bin_number_linear (x : Qc) :
  (1 ≤ n ≤ 2 ^ 31 - 1)%N → lo < hi → lo ≤ x → x ≤ hi →
  bin_number h x
  = Some (Z.to_N (Z.min (Z.of_N n - 1)
                    (truncate ((x - lo) / ((hi - lo) / to_double n))))).
Proof.
  intros Hpos Hlt Hlo Hhi. unfold bin_number.
  rewrite Hmin, Hmax, Hscheme.
  rewrite (proj2 (Qc_ltb_false _ _) Hlo), (proj2 (Qc_ltb_false _ _) Hhi).
  unfold clamped_bin. rewrite Hn.
  assert (0 < to_double n) as Hposn by (apply to_double_pos; lia).
  assert (to_double n ≠ 0) as Hnz by (apply to_double_nonzero; lia).
  pose proof (Qcdiv_pos _ _ (Qcminus_pos _ _ Hlt) Hposn) as Hwidth.
  assert ((hi - lo) / to_double n ≠ 0) as Hwnz.
  { intros Heq. rewrite Heq in Hwidth. by apply Qclt_not_eq in Hwidth. }
  rewrite (double_div_Some _ _ Hnz). simpl.
  rewrite (double_div_Some _ _ Hwnz). simpl.
  destruct (position_bounds (x - lo) (hi - lo) n) as [Hp0 Hp1];
    [lia|by apply Qcminus_pos|by apply Qcminus_nonneg
    |by apply Qcminus_le_mono|].
  pose proof (truncate_bounds _ _ Hp0 Hp1) as Ht.
  unfold double_to_int. rewrite uint_to_int_small by lia.
  rewrite !in_int_Some by lia. simpl. f_equal. f_equal. lia.
Qed.

(** One call adds one to the counter of the bin between whose end
    points the sample lies, and to no other. *)
Lemma consume_linear (x : Qc) :
  (1 ≤ n ≤ 2 ^ 31 - 1)%N → lo < hi →
  length (bins h) = N.to_nat n →
  (foldr N.add 0 (bins h) + 1 < sample_index_modulus)%N →
  ∃ h', consume h x = Some h'
    ∧ (foldr N.add 0 (bins h') ≤ foldr N.add 0 (bins h) + 1)%N
    ∧ ∀ i c, bins h !! i = Some c →
        bins h' !! i
        = Some (c + (if within_bin (bool_decide (S i = N.to_nat n))
                          (end_point lo hi n (N.of_nat i))
                          (end_point lo hi n (N.of_nat i + 1)) x
                     then 1 else 0))%N.
Proof.
  intros Hpos Hlt Hlen Htotal.
  destruct (in_range lo hi x) eqn:Hin.
  - apply in_range_true in Hin as [Hlo Hhi].
    pose proof (bin_number_linear x Hpos Hlt Hlo Hhi) as Hbin.
    set (p := (x - lo) / ((hi - lo) / to_double n)) in *.
    set (b := Z.min (Z.of_N n - 1) (truncate p)) in *.
    destruct (position_bounds (x - lo) (hi - lo) n) as [Hp0 Hp1];
      [lia|by apply Qcminus_pos|by apply Qcminus_nonneg
      |by apply Qcminus_le_mono|].
    pose proof (truncate_bounds _ _ Hp0 Hp1) as Ht. fold p in Ht.
    assert (0 ≤ b < Z.of_N n)%Z as Hb by (unfold b; lia).
    destruct (lookup_lt_is_Some_2 (bins h) (N.to_nat (Z.to_N b)))
      as [cb Hcb]; [lia|].
    unfold consume. rewrite Hmin, Hmax.
    rewrite (proj2 (Qc_ltb_false _ _) Hlo), (proj2 (Qc_ltb_false _ _) Hhi).
    simpl. rewrite Hbin. simpl. rewrite Hcb. simpl.
    pose proof (total_lookup_le _ _ _ Hcb) as Hle.
    rewrite sample_index_incr_small by lia.
    eexists. split; [reflexivity|]. simpl. split.
    { pose proof (total_insert _ _ _ (cb + 1)%N Hcb). lia. }
    intros i c Hc.
    assert (i < N.to_nat n)%nat as Hi
      by (apply lookup_lt_Some in Hc; lia).
    pose proof (within_bin_position lo hi x n (N.of_nat i))
      as Hwithin.
    fold p in Hwithin. fold b in Hwithin.
    replace (bool_decide (N.of_nat i = (n - 1)%N))
      with (bool_decide (S i = N.to_nat n)) in Hwithin
      by (apply bool_decide_ext; lia).
    destruct (decide (i = N.to_nat (Z.to_N b))) as [->|Hne].
    + rewrite list_lookup_insert_eq by (by eapply lookup_lt_Some).
      rewrite (proj2 (Hwithin ltac:(lia) Hlt Hlo Hhi ltac:(lia)))
        by lia.
      by simplify_eq.
    + rewrite list_lookup_insert_ne by done.
      destruct (within_bin _ _ _ x) eqn:Hw.
      * exfalso. apply Hne.
        pose proof (proj1 (Hwithin ltac:(lia) Hlt Hlo Hhi ltac:(lia))
                      eq_refl).
        lia.
      * rewrite Hc. f_equal. lia.
  - assert (x < lo ∨ hi < x) as Hout.
    { unfold in_range in Hin.
      apply negb_false_iff, orb_true_iff in Hin.
      by rewrite !Qc_ltb_true in Hin. }
    exists h. split; [|split; [lia|]].
    + apply in_range_false. by rewrite Hmin, Hmax.
    + intros i c Hc.
      assert (i < N.to_nat n)%nat as Hi
        by (apply lookup_lt_Some in Hc; lia).
      rewrite within_bin_outside;
        [|lia|by apply Qclt_le_weak|lia|done].
      rewrite Hc. f_equal. lia.
Qed.
End Linear.

(** A sequence of calls adds to every counter the number of samples
    between the end points of its bin. *)
Lemma consume_all_linear {libm : Libm} (lo hi : Qc) (n : N)
    (samples : list Qc) (h : state) :
  min_value h = lo → max_value h = hi → n_subdivisions h = n →
  subdivision_scheme h = linear →
  (1 ≤ n ≤ 2 ^ 31 - 1)%N → lo < hi →
  length (bins h) = N.to_nat n →
  (foldr N.add 0 (bins h) + N.of_nat (length samples)
   < sample_index_modulus)%N →
  ∃ h', consume_all h samples = Some h'
    ∧ ∀ i c, bins h !! i = Some c →
        bins h' !! i
        = Some (c + count_within (bool_decide (S i = N.to_nat n))
                      (end_point lo hi n (N.of_nat i))
                      (end_point lo hi n (N.of_nat i + 1)) samples)%N.
Proof.
  revert h. induction samples as [|x rest IH];
    intros h Hmin Hmax Hn Hscheme Hpos Hlt Hlen Htotal.
  { exists h. split; [done|]. intros i c ->. f_equal.
    unfold count_within. simpl. lia. }
  simpl in Htotal.
  destruct (consume_linear lo hi n h Hmin Hmax Hn Hscheme x Hpos Hlt Hlen)
    as (h1 & Hc & Htotal1 & Hbins1); [lia|].
  destruct (consume_configuration _ _ _ Hc)
    as (Hmin1 & Hmax1 & Hn1 & Hscheme1 & Hlen1).
  destruct (IH h1) as (h' & Hrun & Hbins');
    [congruence|congruence|congruence|congruence|done|done|congruence|lia|].
  exists h'. split; [by simpl; rewrite Hc|].
  intros i c Hi. rewrite (Hbins' i _ (Hbins1 i c Hi)).
  rewrite count_within_cons. f_equal. lia.
Qed.

(** **** The table [get] returns *)

(** The table of a histogram whose end points are [e 0 .. e n]. *)
Local Abbreviation table e n counts :=
  (zip ((λ i : nat, (e (N.of_nat i), e (N.of_nat i + 1)%N))
          <$> seq 0 (N.to_nat n))
     counts).

Lemma table_lookup (e : N → Qc) (n : N) (counts : list N) (i : nat)
    (l r : Qc) (c : N) :
  table e n counts !! i = Some (l, r, c)
  ↔ (i < N.to_nat n)%nat
    ∧ l = e (N.of_nat i) ∧ r = e (N.of_nat i + 1)%N
    ∧ counts !! i = Some c.
Proof.
  rewrite lookup_zip_with, list_lookup_fmap. split.
  - intros Hi. destruct (seq 0 (N.to_nat n) !! i) as [j|] eqn:Hj; [|done].
    apply lookup_seq in Hj as [-> Hj]. simpl in Hi.
    destruct (counts !! i) as [c'|]; [|done]. simpl in Hi.
    by simplify_eq.
  - intros (Hi & -> & -> & ->).
    by rewrite (lookup_seq_lt 0 (N.to_nat n) i Hi).
Qed.

Lemma length_table (e : N → Qc) (n : N) (counts : list N) :
  length counts = N.to_nat n →
  length (table e n counts) = N.to_nat n.
Proof.
  intros Hlen. rewrite length_zip, length_fmap, length_seq. lia.
Qed.

(** The bins follow one another from [e 0] to [e n]. *)
Lemma table_tiles (e : N → Qc) (n : N) (counts : list N) :
  (0 < n)%N → length counts = N.to_nat n →
  (∃ r c, table e n counts !! 0%nat = Some (e 0%N, r, c))
  ∧ (∃ l c, table e n counts !! (N.to_nat n - 1)%nat = Some (l, e n, c))
  ∧ ∀ i l r c l' r' c',
      table e n counts !! i = Some (l, r, c) →
      table e n counts !! S i = Some (l', r', c') →
      r = l'.
Proof.
  intros Hn Hlen. split; [|split].
  - destruct (lookup_lt_is_Some_2 counts 0) as [c Hc]; [lia|].
    exists (e (0 + 1)%N), c. apply table_lookup. split; [lia|done].
  - destruct (lookup_lt_is_Some_2 counts (N.to_nat n - 1)) as [c Hc];
      [lia|].
    exists (e (N.of_nat (N.to_nat n - 1))), c. apply table_lookup.
    split; [lia|]. split; [done|]. split; [f_equal; lia|done].
  - intros i l r c l' r' c' (_ & _ & -> & _)%(table_lookup e)
      (_ & -> & _ & _)%(table_lookup e).
    f_equal. lia.
Qed.

Lemma get_table {libm : Libm} (e : N → Qc) (h : state) :
  (n_subdivisions h < uint_modulus)%N →
  length (bins h) = N.to_nat (n_subdivisions h) →
  (∀ bin, (bin < n_subdivisions h)%N →
          bin_end_points h bin = Some (e bin, e (bin + 1)%N)) →
  get h = Some (table e (n_subdivisions h) (bins h)).
Proof.
  intros Hn Hlen He. unfold get.
  replace (mapM (λ bin, bin_end_points h (N.of_nat bin))
             (seq 0 (N.to_nat (n_subdivisions h))))
    with (Some ((λ i : nat, (e (N.of_nat i), e (N.of_nat i + 1)%N))
                  <$> seq 0 (N.to_nat (n_subdivisions h)))).
  - simpl. rewrite <- Hlen, mapM_lookup_all. done.
  - symmetry. apply mapM_Some, Forall2_fmap_r, Forall_Forall2_diag.
    apply Forall_lookup_2. intros j i Hi.
    apply lookup_seq in Hi as [-> Hi]. simpl. apply He. lia.
Qed.

(** **** The plot *)

Lemma length_rectangles (histogram : list (Qc * Qc * N)) :
  length (flat_map rectangle histogram) = (5 * length histogram)%nat.
Proof.
  induction histogram as [|b rest IH]; [done|].
  cbn [flat_map]. rewrite length_app, IH. simpl. lia.
Qed.

Lemma abscissae_app (l1 l2 : list gnuplot_line) :
  abscissae (l1 ++ l2) = abscissae l1 ++ abscissae l2.
Proof. apply omap_app. Qed.

Lemma abscissae_rectangles (histogram : list (Qc * Qc * N)) :
  abscissae (flat_map rectangle histogram)
  = flat_map (λ b, [b.1; b.1; b.2; b.2]) (fst <$> histogram).
Proof.
  induction histogram as [|b rest IH]; [done|].
  cbn [flat_map fmap list_fmap]. rewrite abscissae_app, IH. done.
Qed.

(** A staircase of end points that do not decrease is sorted. *)
Lemma sorted_staircase (l r : nat → Qc) :
  (∀ i, l i ≤ r i) → (∀ i, r i ≤ l (S i)) →
  ∀ m a,
    Sorted Qcle (flat_map (λ b : Qc * Qc, [b.1; b.1; b.2; b.2])
                   ((λ i, (l i, r i)) <$> seq a m)).
Proof.
  intros Hlr Hrl. induction m as [|m IH]; intros a; [constructor|].
  cbn [seq fmap list_fmap flat_map app fst snd].
  specialize (IH (S a)).
  apply Sorted_cons; [|constructor; apply Qcle_refl].
  apply Sorted_cons; [|constructor; apply Hlr].
  apply Sorted_cons; [|constructor; apply Qcle_refl].
  apply Sorted_cons; [exact IH|].
  destruct m as [|m]; [constructor|].
  cbn [seq fmap list_fmap flat_map app fst snd]. constructor.
  apply Hrl.
Qed.

(** The right end point of a bin and the left end point of the next
    are computed alike. *)
Lemma bin_end_points_adjacent {libm : Libm} (h : state) (i : nat)
    (l r l' r' : Qc) :
  (N.of_nat (S i) < uint_modulus)%N →
  bin_end_points h (N.of_nat i) = Some (l, r) →
  bin_end_points h (N.of_nat (S i)) = Some (l', r') →
  r = l'.
Proof.
  intros Hi. unfold bin_end_points.
  replace ((N.of_nat i + 1) mod uint_modulus)%N with (N.of_nat (S i))
    by (rewrite N.mod_small; lia).
  destruct (subdivision_scheme h).
  - intros Hb Hb'.
    apply bind_Some in Hb as (lo1 & _ & Hb).
    apply bind_Some in Hb as (hi1 & Hhi1 & Hb).
    apply bind_Some in Hb' as (lo2 & Hlo2 & Hb').
    apply bind_Some in Hb' as (hi2 & _ & Hb').
    by simplify_eq.
  - intros Hb Hb'.
    apply bind_Some in Hb as (lmin & Hlmin & Hb).
    apply bind_Some in Hb as (lmax & Hlmax & Hb).
    apply bind_Some in Hb as (lo1 & _ & Hb).
    apply bind_Some in Hb as (hi1 & Hhi1 & Hb).
    apply bind_Some in Hb' as (lmin' & Hlmin' & Hb').
    apply bind_Some in Hb' as (lmax' & Hlmax' & Hb').
    apply bind_Some in Hb' as (lo2 & Hlo2 & Hb').
    apply bind_Some in Hb' as (hi2 & _ & Hb').
    by simplify_eq.
Qed.

(** A run from the constructed object keeps the configuration and the
    number of counters. *)
Lemma run_configuration {libm : Libm} (lo hi : Qc) (n : N)
    (scheme : SubdivisionScheme) (samples : list Qc) (h : state) :
  consume_all (Histogram lo hi n scheme) samples = Some h →
  min_value h = lo ∧ max_value h = hi ∧ n_subdivisions h = n
  ∧ subdivision_scheme h = scheme ∧ length (bins h) = N.to_nat n.
Proof.
  intros (-> & -> & -> & -> & ->)%consume_all_configuration. simpl.
  by rewrite length_replicate.
Qed.

(** **** Properties of the histogram *)

(** In exact arithmetic the bins of a linear histogram tile the range:
    whatever has been consumed, [get] reports [n_subdivisions] bins of
    the same width, the first starting at [min_value], the last ending
    at [max_value], each starting where the one before it ends. *)
Theorem linear_bins_tile_the_range {libm : Libm} (lo hi : Qc) (n : N)
    (samples : list Qc) (h : state) :
  (1 ≤ n < uint_modulus)%N →
  consume_all (Histogram lo hi n linear) samples = Some h →
  ∃ histogram, get h = Some histogram
    ∧ length histogram = N.to_nat n
    ∧ (∃ r c, histogram !! 0%nat = Some (lo, r, c))
    ∧ (∃ l c, histogram !! (N.to_nat n - 1)%nat = Some (l, hi, c))
    ∧ (∀ i l r c l' r' c',
         histogram !! i = Some (l, r, c) →
         histogram !! S i = Some (l', r', c') →
         r = l')
    ∧ (∀ i l r c,
         histogram !! i = Some (l, r, c) →
         r - l = (hi - lo) / to_double n).
Proof.
  intros Hn (Hmin & Hmax & Hsub & Hscheme & Hlen)%run_configuration.
  pose proof (get_table (λ i, end_point lo hi n i) h) as Hget.
  rewrite Hsub in Hget. rewrite Hget; [|lia|done|].
  2:{ intros bin Hbin.
      apply (bin_end_points_linear lo hi n h); done || lia. }
  eexists. split; [reflexivity|].
  split; [by apply (length_table (λ i, end_point lo hi n i))|].
  destruct (table_tiles (λ i, end_point lo hi n i) n (bins h))
    as (Hfirst & Hlast & Hnext); [lia|done|].
  cbv beta in Hfirst, Hlast.
  rewrite end_point_0 in Hfirst by lia.
  rewrite end_point_n in Hlast by lia.
  split; [done|]. split; [done|]. split; [done|].
  intros i l r c Hi.
  apply (table_lookup (λ i, end_point lo hi n i)) in Hi
    as (_ & -> & -> & _).
  rewrite to_double_succ. field. apply to_double_nonzero. lia.
Qed.

(** Whatever the scheme and the state, the bins [get] reports follow
    one another: there are [n_subdivisions] of them and each starts at
    the end point at which the one before it ends. The two are the same
    expression of the same operands, so that no rounding can separate
    them. *)
Theorem bins_follow_one_another {libm : Libm} (h : state)
    (histogram : list (Qc * Qc * N)) :
  (n_subdivisions h < uint_modulus)%N →
  get h = Some histogram →
  length histogram = N.to_nat (n_subdivisions h)
  ∧ ∀ i l r c l' r' c',
      histogram !! i = Some (l, r, c) →
      histogram !! S i = Some (l', r', c') →
      r = l'.
Proof.
  intros Hn Hget. unfold get in Hget.
  apply bind_Some in Hget as (pts & Hpts & Hget).
  apply bind_Some in Hget as (counts & Hcounts & Hget).
  simplify_eq.
  pose proof (length_mapM _ _ _ Hpts) as Hlp.
  pose proof (length_mapM _ _ _ Hcounts) as Hlc.
  rewrite length_seq in Hlp, Hlc.
  split; [rewrite length_zip; lia|].
  intros i l r c l' r' c' Hi HS.
  apply lookup_zip_with_Some in Hi as (p & ? & ? & Hp & _).
  apply lookup_zip_with_Some in HS as (p' & ? & ? & Hp' & _).
  simplify_eq.
  apply mapM_Some in Hpts.
  destruct (Forall2_lookup_r _ _ _ _ _ Hpts Hp) as (j & Hj & Hend).
  destruct (Forall2_lookup_r _ _ _ _ _ Hpts Hp') as (j' & Hj' & Hend').
  apply lookup_seq in Hj as [-> Hi]. apply lookup_seq in Hj' as [-> HS].
  simpl in Hend, Hend'.
  apply (bin_end_points_adjacent h i l r l' r'); [lia|done|done].
Qed.

(** A linear histogram counts, in every bin, the samples between the
    end points [get] reports for it: those with
    [left <= sample < right], and in the last bin those with
    [left <= sample <= right]. *)
Theorem bins_count_samples_between_end_points {libm : Libm}
    (lo hi : Qc) (n : N) (samples : list Qc) :
  (1 ≤ n ≤ 2 ^ 31 - 1)%N → lo < hi →
  (N.of_nat (length samples) < sample_index_modulus)%N →
  ∃ h histogram,
    consume_all (Histogram lo hi n linear) samples = Some h
    ∧ get h = Some histogram
    ∧ length histogram = N.to_nat n
    ∧ ∀ i left right count,
        histogram !! i = Some (left, right, count) →
        count
        = count_within (bool_decide (S i = N.to_nat n)) left right samples.
Proof.
  intros Hn Hlt Hsamples.
  destruct (consume_all_linear lo hi n samples (Histogram lo hi n linear))
    as (h & Hrun & Hbins); try done.
  { simpl. by rewrite length_replicate. }
  { simpl. rewrite total_replicate_0. lia. }
  pose proof (run_configuration _ _ _ _ _ _ Hrun)
    as (Hmin & Hmax & Hsub & Hscheme & Hlen).
  exists h. eexists. split; [done|].
  pose proof (get_table (λ i, end_point lo hi n i) h) as Hget.
  rewrite Hsub in Hget. rewrite Hget; [|unfold uint_modulus; lia|done|].
  2:{ intros bin Hbin.
      apply (bin_end_points_linear lo hi n h);
        done || unfold uint_modulus; lia. }
  split; [reflexivity|].
  split; [by apply (length_table (λ i, end_point lo hi n i))|].
  intros i left right count Hi.
  apply (table_lookup (λ i, end_point lo hi n i)) in Hi
    as (Hi & -> & -> & Hcount).
  assert (bins (Histogram lo hi n linear) !! i = Some 0%N) as H0.
  { simpl. by apply lookup_replicate_2. }
  rewrite (Hbins i _ H0) in Hcount. by simplify_eq.
Qed.

(** The histogram does not depend on the order in which the samples
    arrive: two permutations of a sequence lead to the same state, or
    both to none. *)
Theorem counts_do_not_depend_on_order {libm : Libm} (h : state)
    (samples samples' : list Qc) :
  Permutation samples samples' →
  consume_all h samples = consume_all h samples'.
Proof. intros Hperm. by apply consume_all_permutation. Qed.

(** In exact arithmetic and for a logarithm that does not decrease,
    [bin_number] preserves the order of the values: for a histogram
    with at least one bin (and no more than [int] can count),
    [min_value < max_value] and, for the logarithmic scheme,
    [0 < min_value] and [log min_value < log max_value], of two values
    within the range the larger lies in the same or in a later bin. *)
Theorem bin_number_is_monotone {libm : Libm} (h : state) (x y : Qc) :
  (∀ a b : Qc, 0 < a → a ≤ b → ln a ≤ ln b) →
  valid_configuration (min_value h) (max_value h) (n_subdivisions h)
    (subdivision_scheme h) →
  (subdivision_scheme h = logarithmic →
   ln (min_value h) < ln (max_value h)) →
  min_value h ≤ x → x ≤ y → y ≤ max_value h →
  ∃ bx by_, bin_number h x = Some bx
    ∧ bin_number h y = Some by_
    ∧ (bx ≤ by_)%N.
Proof.
  intros Hln (Hn & Hrange & Hlog) Hlogs Hlo Hxy Hhi.
  assert (x ≤ max_value h) as Hxhi by (by apply (Qcle_trans _ y)).
  assert (min_value h ≤ y) as Hylo by (by apply (Qcle_trans _ x)).
  assert (0 < to_double (n_subdivisions h)) as Hposn
    by (apply to_double_pos; lia).
  assert (to_double (n_subdivisions h) ≠ 0) as Hnz
    by (apply to_double_nonzero; lia).
  assert (∀ offset offset' range : Qc,
            0 < range → 0 ≤ offset → offset ≤ offset' → offset' ≤ range →
            ∃ bx by_, clamped_bin h offset range = Some bx
              ∧ clamped_bin h offset' range = Some by_
              ∧ (bx ≤ by_)%N) as Hclamped.
  { intros offset offset' range Hr H0 Hle Hle'.
    assert (0 ≤ offset') as H0' by (by apply (Qcle_trans _ offset)).
    assert (offset ≤ range) as Hler by (by apply (Qcle_trans _ offset')).
    pose proof (Qcdiv_pos _ _ Hr Hposn) as Hwidth.
    assert (range / to_double (n_subdivisions h) ≠ 0) as Hwnz.
    { intros Heq. rewrite Heq in Hwidth. by apply Qclt_not_eq in Hwidth. }
    destruct (position_bounds offset range (n_subdivisions h))
      as [Hp0 Hp1]; [lia|done|done|done|].
    destruct (position_bounds offset' range (n_subdivisions h))
      as [Hq0 Hq1]; [lia|done|done|done|].
    pose proof (truncate_bounds _ _ Hp0 Hp1) as Htp.
    pose proof (truncate_bounds _ _ Hq0 Hq1) as Htq.
    pose proof (truncate_mono _ _ Hp0
                  (Qcdiv_le_mono offset offset' _ Hwidth Hle)) as Hmono.
    unfold clamped_bin.
    rewrite (double_div_Some _ _ Hnz). simpl.
    rewrite !(double_div_Some _ _ Hwnz). simpl.
    unfold double_to_int. rewrite uint_to_int_small by lia.
    rewrite !in_int_Some by lia. simpl.
    eexists _, _. split; [reflexivity|]. split; [reflexivity|]. lia. }
  unfold bin_number.
  rewrite (proj2 (Qc_ltb_false _ _) Hlo), (proj2 (Qc_ltb_false _ _) Hxhi).
  rewrite (proj2 (Qc_ltb_false _ _) Hylo), (proj2 (Qc_ltb_false _ _) Hhi).
  destruct (subdivision_scheme h) eqn:Hscheme.
  - apply Hclamped.
    + by apply Qcminus_pos.
    + by apply Qcminus_nonneg.
    + by apply Qcminus_le_mono.
    + by apply Qcminus_le_mono.
  - specialize (Hlog eq_refl).
    pose proof (Qclt_le_trans _ _ _ Hlog Hlo) as Hx.
    pose proof (Qclt_le_trans _ _ _ Hlog Hylo) as Hy.
    pose proof (Qclt_trans _ _ _ Hlog Hrange) as Hmax.
    rewrite !(log_double_pos) by done. simpl.
    apply Hclamped.
    + by apply Qcminus_pos, Hlogs.
    + by apply Qcminus_nonneg, Hln.
    + by apply Qcminus_le_mono, Hln.
    + by apply Qcminus_le_mono, Hln.
Qed.

(** In exact arithmetic the plot [write_gnuplot] writes for a linear
    histogram has five lines for each bin, starts on the axis at
    [min_value], ends on the axis at [max_value], and runs from left to
    right: the first numbers of its lines never decrease. *)
Theorem plot_runs_from_min_value_to_max_value {libm : Libm}
    (lo hi : Qc) (n : N) (samples : list Qc) (h : state) :
  (1 ≤ n < uint_modulus)%N → lo ≤ hi →
  consume_all (Histogram lo hi n linear) samples = Some h →
  ∃ lines, write_gnuplot h = Some lines
    ∧ length lines = (5 * N.to_nat n)%nat
    ∧ head lines = Some (point lo 0)
    ∧ lines !! (5 * N.to_nat n - 2)%nat = Some (point hi 0)
    ∧ Sorted Qcle (abscissae lines).
Proof.
  intros Hn Hle (Hmin & Hmax & Hsub & Hscheme & Hlen)%run_configuration.
  pose proof (get_table (λ i, end_point lo hi n i) h) as Hget.
  rewrite Hsub in Hget. unfold write_gnuplot. rewrite Hget; [|lia|done|].
  2:{ intros bin Hbin.
      apply (bin_end_points_linear lo hi n h); done || lia. }
  simpl. eexists. split; [reflexivity|].
  set (histogram := table (λ i, end_point lo hi n i) n (bins h)).
  assert (length histogram = N.to_nat n) as Hlh
    by (by apply (length_table (λ i, end_point lo hi n i))).
  destruct (table_tiles (λ i, end_point lo hi n i) n (bins h))
    as ((r0 & c0 & Hfirst) & (l1 & c1 & Hlast) & _); [lia|done|].
  cbv beta in Hfirst, Hlast. fold histogram in Hfirst, Hlast.
  rewrite end_point_0 in Hfirst by lia.
  rewrite end_point_n in Hlast by lia.
  split; [|split; [|split]].
  - rewrite length_rectangles. lia.
  - destruct histogram as [|b rest]; [done|]. by simplify_eq/=.
  - rewrite <- (take_drop (N.to_nat n - 1) histogram).
    rewrite (drop_S _ _ _ Hlast), drop_ge by lia.
    rewrite flat_map_app.
    rewrite lookup_app_r; rewrite length_rectangles, length_take; [|lia].
    match goal with
    | |- _ !! ?i = _ => replace i with 3%nat by lia
    end.
    done.
  - rewrite abscissae_rectangles. unfold histogram.
    rewrite fst_zip by (rewrite length_fmap, length_seq; lia).
    apply (sorted_staircase
             (λ i, end_point lo hi n (N.of_nat i))
             (λ i, end_point lo hi n (N.of_nat i + 1))).
    + intros i. apply end_point_mono; lia || done.
    + intros i. apply end_point_mono; lia || done.
Qed.

Lemma linear_bins_tile_the_range_witness :
  ∃ histogram,
    get (H := identity_libm)
      (set_bins (Histogram 0 (Qc_of_Z 10) 5 linear) [1; 0; 1; 0; 0]%N)
    = Some histogram
    ∧ length histogram = 5%nat
    ∧ (∃ r c, histogram !! 0%nat = Some (Q2Qc 0, r, c))
    ∧ (∃ l c, histogram !! 4%nat = Some (l, Qc_of_Z 10, c)).
Proof.
  destruct (linear_bins_tile_the_range (libm := identity_libm)
              0 (Qc_of_Z 10) 5 [1; Qc_of_Z 4]
              (set_bins (Histogram 0 (Qc_of_Z 10) 5 linear)
                 [1; 0; 1; 0; 0]%N))
    as (histogram & Hget & Hlen & Hfirst & Hlast & _).
  - split; [vm_compute; discriminate|vm_compute; reflexivity].
  - vm_compute. reflexivity.
  - exists histogram. split; [exact Hget|]. split; [exact Hlen|].
    split; [exact Hfirst|exact Hlast].
Defined.

Lemma bins_follow_one_another_witness :
  length
    (default []
       (get (H := identity_libm)
          (set_bins (Histogram 1 (Qc_of_Z 8) 3 logarithmic) [1; 0; 0]%N)))
  = 3%nat.
Proof.
  apply (bins_follow_one_another (libm := identity_libm)
           (set_bins (Histogram 1 (Qc_of_Z 8) 3 logarithmic) [1; 0; 0]%N)).
  - vm_compute. reflexivity.
  - vm_compute. reflexivity.
Defined.

Lemma bins_count_samples_between_end_points_witness :
  ∃ h histogram,
    consume_all (H := identity_libm) (Histogram 0 (Qc_of_Z 10) 5 linear)
      [1; 1; Qc_of_Z 4; Q2Qc (99 # 10); Qc_of_Z (-5); Qc_of_Z 11]
    = Some h
    ∧ get (H := identity_libm) h = Some histogram
    ∧ length histogram = 5%nat.
Proof.
  destruct (bins_count_samples_between_end_points (libm := identity_libm)
              0 (Qc_of_Z 10) 5
              [1; 1; Qc_of_Z 4; Q2Qc (99 # 10); Qc_of_Z (-5); Qc_of_Z 11])
    as (h & histogram & Hrun & Hget & Hlen & _).
  - split; vm_compute; discriminate.
  - reflexivity.
  - vm_compute. reflexivity.
  - exists h, histogram. split; [exact Hrun|]. split; [exact Hget|].
    exact Hlen.
Defined.

Lemma counts_do_not_depend_on_order_witness :
  consume_all (H := identity_libm) (Histogram 0 (Qc_of_Z 10) 5 linear)
    [1; Qc_of_Z 4]
  = consume_all (H := identity_libm) (Histogram 0 (Qc_of_Z 10) 5 linear)
      [Qc_of_Z 4; 1].
Proof.
  apply (counts_do_not_depend_on_order (libm := identity_libm)).
  apply perm_swap.
Defined.

Lemma bin_number_is_monotone_witness :
  ∃ bx by_,
    bin_number (H := identity_libm)
      (Histogram 1 (Qc_of_Z 8) 3 logarithmic) (Qc_of_Z 2) = Some bx
    ∧ bin_number (H := identity_libm)
        (Histogram 1 (Qc_of_Z 8) 3 logarithmic) (Qc_of_Z 4) = Some by_
    ∧ (bx ≤ by_)%N.
Proof.
  apply (bin_number_is_monotone (libm := identity_libm)
           (Histogram 1 (Qc_of_Z 8) 3 logarithmic)
           (Qc_of_Z 2) (Qc_of_Z 4)).
  - intros a b _ Hab. exact Hab.
  - split; [vm_compute; split; discriminate|].
    split; [reflexivity|intros _; reflexivity].
  - intros _. reflexivity.
  - vm_compute. discriminate.
  - vm_compute. discriminate.
  - vm_compute. discriminate.
Defined.

Lemma plot_runs_from_min_value_to_max_value_witness :
  ∃ lines,
    write_gnuplot (H := identity_libm)
      (set_bins (Histogram 0 (Qc_of_Z 10) 5 linear) [1; 0; 1; 0; 0]%N)
    = Some lines
    ∧ length lines = 25%nat
    ∧ head lines = Some (point 0 0)
    ∧ lines !! 23%nat = Some (point (Qc_of_Z 10) 0)
    ∧ Sorted Qcle (abscissae lines).
Proof.
  apply (plot_runs_from_min_value_to_max_value (libm := identity_libm)
           0 (Qc_of_Z 10) 5 [1; Qc_of_Z 4]
           (set_bins (Histogram 0 (Qc_of_Z 10) 5 linear)
              [1; 0; 1; 0; 0]%N)).
  - split; [vm_compute; discriminate|vm_compute; reflexivity].
  - vm_compute. discriminate.
  - vm_compute. reflexivity.
Defined.

End HistogramProperties.

(** *** MeanValue: order, bounds and the limits of a run *)

Module MeanValueProperties.
Import NumericFacts RationalFacts MeanValue MeanValueSpec.
Import HistogramProperties.

Local Abbreviation scalar_run q :=
  (consume_all (ST := double_sample q) (MeanValue (ST := double_sample q))).
Local Abbreviation vector_run :=
  (consume_all (ST := valarray_sample) (MeanValue (ST := valarray_sample))).
Local Abbreviation vconsume := (@consume valarray valarray_sample).
Local Abbreviation vconsume_all := (@consume_all valarray valarray_sample).

Lemma vsum_permutation (l l' : list Qc) :
  Permutation l l' → vsum l = vsum l'.
Proof.
  unfold vsum.
  induction 1 as [|x l l' _ IH|x y l|l l' l'' _ IH1 _ IH2]; simpl.
  - done.
  - by rewrite IH.
  - ring.
  - by rewrite IH1.
Qed.

Lemma batch_mean_permutation (l l' : list Qc) :
  Permutation l l' → batch_mean l = batch_mean l'.
Proof.
  intros Hperm. unfold batch_mean.
  by rewrite (vsum_permutation l l' Hperm), (Permutation_length Hperm).
Qed.

(** The sum of values between two bounds, against the bounds. *)
Lemma vsum_bounds (lo hi : Qc) (l : list Qc) :
  Forall (λ x, lo ≤ x ∧ x ≤ hi) l →
  lo * to_double (N.of_nat (length l)) ≤ vsum l
  ∧ vsum l ≤ hi * to_double (N.of_nat (length l)).
Proof.
  induction 1 as [|x l [Hlo Hhi] _ [IHlo IHhi]].
  - simpl. change (to_double (N.of_nat 0)) with (Qc_of_Z 0).
    rewrite Z2Qc_inj_0. split.
    + replace (lo * 0) with (Q2Qc 0) by ring. apply Qcle_refl.
    + replace (hi * 0) with (Q2Qc 0) by ring. apply Qcle_refl.
  - cbn [length vsum foldr].
    replace (N.of_nat (S (length l))) with (N.of_nat (length l) + 1)%N
      by lia.
    rewrite to_double_succ. split.
    + replace (lo * (to_double (N.of_nat (length l)) + 1))
        with (lo + lo * to_double (N.of_nat (length l))) by ring.
      by apply Qcplus_le_compat.
    + replace (hi * (to_double (N.of_nat (length l)) + 1))
        with (hi + hi * to_double (N.of_nat (length l))) by ring.
      by apply Qcplus_le_compat.
Qed.

(** What a call on vector samples that returns has checked. *)
Lemma vconsume_Some (st st' : state valarray) (y : valarray) :
  vconsume st y = Some st' → n_samples st ≠ 0%N →
  length y = length (current_mean st)
  ∧ length (current_mean st') = length (current_mean st)
  ∧ n_samples st' = sample_index_incr (n_samples st).
Proof.
  unfold consume. simpl. intros Hc Hnz.
  destruct (decide (n_samples st = 0%N)) as [|_]; [done|].
  destruct (valarray_binop Qcminus y (current_mean st)) as [u|] eqn:Hsub;
    [|done].
  simpl in Hc.
  destruct (valarray_div u _) as [v|] eqn:Hdiv; [|done]. simpl in Hc.
  destruct (valarray_binop Qcplus (current_mean st) v) as [m|] eqn:Hadd;
    [|done].
  simpl in Hc. inversion Hc; subst st'; clear Hc. simpl.
  unfold valarray_binop in Hsub, Hadd.
  destruct (decide (length y = _)) as [Hly|]; [|done].
  destruct (decide (length (current_mean st) = _)) as [Hlv|]; [|done].
  inversion Hadd; subst m. rewrite length_zip_with. split; [done|].
  split; [lia|done].
Qed.

Lemma vconsume_all_Some (rest : list valarray) (st st' : state valarray) :
  vconsume_all st rest = Some st' →
  (0 < n_samples st)%N →
  (n_samples st + N.of_nat (length rest) < sample_index_modulus)%N →
  Forall (λ y, length y = length (current_mean st)) rest.
Proof.
  revert st. induction rest as [|y rest IH]; intros st Hrun Hpos Hlen.
  { constructor. }
  simpl in Hrun, Hlen.
  destruct (vconsume st y) as [st1|] eqn:Hc; [|done]. simpl in Hrun.
  destruct (vconsume_Some st st1 y Hc) as (Hy & Hmean & Hn); [lia|].
  rewrite sample_index_incr_small in Hn by lia.
  constructor; [done|]. rewrite <- Hmean. apply (IH st1 Hrun); lia.
Qed.

(** **** Properties of the running mean *)

(** The mean does not depend on the order in which the samples arrive
    (in exact arithmetic). *)
Theorem mean_does_not_depend_on_order (indeterminate : Qc)
    (samples samples' : list Qc) :
  Permutation samples samples' →
  (N.of_nat (length samples) < sample_index_modulus)%N →
  get <$> scalar_run indeterminate samples
  = get <$> scalar_run indeterminate samples'.
Proof.
  intros Hperm Hlen. destruct samples as [|x rest].
  { apply Permutation_nil_l in Hperm. by subst. }
  assert (samples' ≠ []) as Hne'.
  { intros ->. by apply Permutation_nil_r in Hperm. }
  rewrite (consume_all_batch_mean indeterminate (x :: rest)) by done.
  rewrite (consume_all_batch_mean indeterminate samples');
    [|done|by rewrite <- (Permutation_length Hperm)].
  f_equal. by apply batch_mean_permutation.
Qed.

(** In exact arithmetic the mean lies between the smallest and the
    largest sample: if every sample is within two bounds, so is the
    value [get] returns. *)
Theorem mean_lies_between_the_extremes (indeterminate lo hi : Qc)
    (samples : list Qc) :
  samples ≠ [] →
  (N.of_nat (length samples) < sample_index_modulus)%N →
  Forall (λ x, lo ≤ x ∧ x ≤ hi) samples →
  ∃ m, get <$> scalar_run indeterminate samples = Some m
    ∧ lo ≤ m ∧ m ≤ hi.
Proof.
  intros Hne Hlen Hall. exists (batch_mean samples).
  split; [by apply consume_all_batch_mean|].
  destruct (vsum_bounds lo hi samples Hall) as [Hlo Hhi].
  assert (0 < to_double (N.of_nat (length samples))) as Hpos.
  { apply to_double_pos. destruct samples; [done|]. simpl. lia. }
  unfold batch_mean. split.
  - by apply Qcle_div_iff.
  - by apply Qcdiv_le_upper.
Qed.

(** A run on vector samples returns exactly when all the samples have
    the dimension of the first: the element-wise operators of
    [std::valarray] are undefined on operands of different sizes. *)
Theorem vector_run_returns_iff_one_dimension (x : valarray)
    (rest : list valarray) :
  (N.of_nat (length (x :: rest)) < sample_index_modulus)%N →
  is_Some (vector_run (x :: rest))
  ↔ Forall (λ y, length y = length x) rest.
Proof.
  intros Hlen. simpl in Hlen. cbn [consume_all]. unfold consume at 1.
  simpl. split.
  - intros [st Hrun].
    apply (vconsume_all_Some rest _ st Hrun); simpl; lia.
  - intros Hall.
    destruct (vconsume_all_defined (length x) rest
                {| current_mean := x; n_samples := 1 |})
      as (st & Hrun & _); simpl; [lia|lia|done|done|].
    by exists st.
Qed.

(** The counter of samples wraps at [2^64]: the call that would bring
    it there divides the update by zero and has no finite result. *)
Theorem counter_overflow_has_no_result (indeterminate : Qc)
    (st : state Qc) (x : Qc) :
  n_samples st = (sample_index_modulus - 1)%N →
  consume (ST := double_sample indeterminate) st x = None.
Proof.
  intros Hn. unfold consume. rewrite Hn.
  destruct (decide _) as [Hz|_]; [by vm_compute in Hz|].
  by destruct (decide (Q2Qc 0 = 0)).
Qed.

Lemma mean_does_not_depend_on_order_witness :
  get <$> scalar_run 0 [Qc_of_Z 1; Qc_of_Z 2; Qc_of_Z 6]
  = get <$> scalar_run 0 [Qc_of_Z 2; Qc_of_Z 1; Qc_of_Z 6].
Proof.
  apply (mean_does_not_depend_on_order 0
           [Qc_of_Z 1; Qc_of_Z 2; Qc_of_Z 6]
           [Qc_of_Z 2; Qc_of_Z 1; Qc_of_Z 6]).
  - apply perm_swap.
  - vm_compute. reflexivity.
Defined.

Lemma mean_lies_between_the_extremes_witness :
  ∃ m, get <$> scalar_run 0 [Qc_of_Z 1; Qc_of_Z 2; Qc_of_Z 6] = Some m
    ∧ Qc_of_Z 1 ≤ m ∧ m ≤ Qc_of_Z 6.
Proof.
  apply (mean_lies_between_the_extremes 0 (Qc_of_Z 1) (Qc_of_Z 6)
           [Qc_of_Z 1; Qc_of_Z 2; Qc_of_Z 6]).
  - discriminate.
  - vm_compute. reflexivity.
  - repeat constructor; vm_compute; discriminate.
Defined.

Lemma vector_run_returns_iff_one_dimension_witness :
  is_Some (vector_run [[1; Qc_of_Z 2]; [Qc_of_Z 3; Qc_of_Z 6]])
  ↔ Forall (λ y : valarray, length y = 2%nat) [[Qc_of_Z 3; Qc_of_Z 6]].
Proof.
  apply (vector_run_returns_iff_one_dimension [1; Qc_of_Z 2]
           [[Qc_of_Z 3; Qc_of_Z 6]]).
  vm_compute. reflexivity.
Defined.

Lemma counter_overflow_has_no_result_witness :
  consume (ST := double_sample 0)
    {| current_mean := 1; n_samples := sample_index_modulus - 1 |} 1
  = None.
Proof.
  apply (counter_overflow_has_no_result 0
           {| current_mean := 1; n_samples := sample_index_modulus - 1 |}
           1).
  reflexivity.
Defined.

End MeanValueProperties.

(** *** Spurious_Autocovariance: the state in terms of the samples *)

Module AutocovarianceProperties.
Import NumericFacts RationalFacts LoopFacts MatrixFacts.
Import AutocovarianceLoops AutocovarianceSteps AutocovarianceSpec.
Import Spurious_Autocovariance.

(** **** Vectors *)

Lemma vadd_comm (a b : list Qc) :
  zip_with Qcplus a b = zip_with Qcplus b a.
Proof.
  revert b. induction a as [|x a IH]; intros [|y b]; simpl; try done.
  rewrite IH. f_equal. ring.
Qed.

Lemma vadd_assoc (a b c : list Qc) :
  zip_with Qcplus a (zip_with Qcplus b c)
  = zip_with Qcplus (zip_with Qcplus a b) c.
Proof.
  revert b c. induction a as [|x a IH]; intros [|y b] [|z c]; simpl;
    try done.
  rewrite IH. f_equal. ring.
Qed.

Lemma vector_sum_snoc (d : nat) (vs : list valarray) (v : valarray) :
  vector_sum d (vs ++ [v]) = zip_with Qcplus (vector_sum d vs) v.
Proof.
  unfold vector_sum. induction vs as [|u vs IH]; simpl.
  - apply vadd_comm.
  - rewrite IH. apply vadd_assoc.
Qed.

Lemma length_vector_sum (d : nat) (vs : list valarray) :
  Forall (λ v, length v = d) vs → length (vector_sum d vs) = d.
Proof.
  unfold vector_sum. induction 1 as [|v vs Hv _ IH]; simpl.
  - apply length_replicate.
  - rewrite length_zip_with. lia.
Qed.

Lemma over_zero (n d : nat) : over n (replicate d 0) = replicate d 0.
Proof.
  unfold over. rewrite fmap_replicate. by rewrite Qcdiv_0_l.
Qed.

Lemma to_double_S (n : nat) :
  to_double (N.of_nat (S n)) = to_double (N.of_nat n) + 1.
Proof.
  replace (N.of_nat (S n)) with (N.of_nat n + 1)%N by lia.
  apply to_double_succ.
Qed.

Lemma to_double_S_nonzero (n : nat) : to_double (N.of_nat (S n)) ≠ 0.
Proof. apply to_double_nonzero. lia. Qed.

(** The average of [n + 1] values from that of the first [n]. *)
Lemma welford_average (n : nat) (total value : Qc) :
  (0 < n)%nat →
  welford (to_double (N.of_nat (S n))) (total / to_double (N.of_nat n))
    value
  = (total + value) / to_double (N.of_nat (S n)).
Proof.
  intros Hn. unfold welford.
  pose proof (to_double_S_nonzero n) as HS.
  assert (to_double (N.of_nat n) ≠ 0) as Hnz
    by (apply to_double_nonzero; lia).
  rewrite to_double_S in *. by field.
Qed.

Lemma welford_average_vector (n : nat) (total value : list Qc) :
  (0 < n)%nat →
  zip_with (welford (to_double (N.of_nat (S n)))) (over n total) value
  = over (S n) (zip_with Qcplus total value).
Proof.
  intros Hn. unfold over. revert value.
  induction total as [|t total IH]; intros [|v value]; simpl; try done.
  by rewrite IH, welford_average.
Qed.

(** **** Inner products *)

Lemma dot_cons (x y : Qc) (a b : list Qc) :
  dot (x :: a) (y :: b) = x * y + dot a b.
Proof. reflexivity. Qed.

Lemma dot_zero (m : list Qc) (d : nat) : dot m (replicate d 0) = 0.
Proof.
  revert d. induction m as [|x m IH]; intros [|d]; try done.
  cbn [replicate]. rewrite dot_cons, IH. ring.
Qed.

Lemma dot_add (m u v : list Qc) :
  length u = length m → length v = length m →
  dot m (zip_with Qcplus u v) = dot m u + dot m v.
Proof.
  revert u v. induction m as [|x m IH]; intros [|y u] [|z v] Hu Hv;
    simplify_eq/=; [unfold dot; simpl; ring|].
  rewrite !dot_cons, IH by done. ring.
Qed.

Lemma dot_over (n : nat) (m v : list Qc) :
  dot m (over n v) = dot m v / to_double (N.of_nat n).
Proof.
  unfold over. revert v. induction m as [|x m IH]; intros [|y v];
    try (unfold dot, Qcdiv; simpl; ring).
  cbn [fmap list_fmap]. rewrite !dot_cons, IH. unfold Qcdiv. ring.
Qed.

Lemma dot_centered (m a b : list Qc) :
  length a = length m → length b = length m →
  dot (zip_with Qcminus a m) (zip_with Qcminus b m)
  = dot a b - dot m (zip_with Qcplus a b) + dot m m.
Proof.
  revert a b. induction m as [|x m IH]; intros [|y a] [|z b] Ha Hb;
    simplify_eq/=; [unfold dot; simpl; ring|].
  rewrite !dot_cons, IH by done. ring.
Qed.

(** **** Pairs of samples *)

Lemma lagged_pairs_short (l : nat) (samples : list valarray) :
  (length samples ≤ l)%nat → lagged_pairs l samples = [].
Proof. intros Hl. unfold lagged_pairs. by rewrite drop_ge. Qed.

Lemma length_lagged_pairs (l : nat) (samples : list valarray) :
  length (lagged_pairs l samples) = (length samples - l)%nat.
Proof. unfold lagged_pairs. rewrite length_zip, length_drop. lia. Qed.

(** One more sample adds the pair it forms with the sample [l] steps
    back, if there is one. *)
Lemma lagged_pairs_snoc (i : nat) (samples : list valarray)
    (y : valarray) :
  lagged_pairs (S i) (samples ++ [y])
  = lagged_pairs (S i) samples
    ++ match reverse samples !! i with
       | Some p => [(y, p)]
       | None => []
       end.
Proof.
  unfold lagged_pairs.
  destruct (decide (i < length samples)%nat) as [Hi|Hi].
  - rewrite reverse_lookup by done.
    set (m := (length samples - S i)%nat).
    destruct (lookup_lt_is_Some_2 samples m) as [p Hp]; [lia|].
    rewrite Hp. rewrite drop_app_le by lia.
    rewrite zip_with_app_l, length_drop. fold m.
    rewrite take_app_le by lia.
    rewrite zip_with_take_r' by (rewrite length_drop; lia).
    rewrite drop_app_le by lia. rewrite (drop_S _ _ _ Hp). done.
  - rewrite lookup_ge_None_2 by (rewrite length_reverse; lia).
    rewrite !drop_ge by (rewrite ?length_app; simpl; lia).
    done.
Qed.

(** **** The summary of a run, from the samples *)

Lemma imap_fmap_seq {A B : Type} (g : nat → A → B) (f : nat → A)
    (m : nat) :
  imap g (f <$> seq 0 m) = (λ i, g i (f i)) <$> seq 0 m.
Proof.
  apply list_eq. intros i.
  rewrite list_lookup_imap, !list_lookup_fmap.
  destruct (seq 0 m !! i) as [j|] eqn:Hj; [|done].
  apply lookup_seq in Hj as [-> _]. done.
Qed.

Lemma zip_with_fmap_seq {A B C : Type} (h : A → B → C) (f : nat → A)
    (g : nat → B) (m : nat) :
  zip_with h (f <$> seq 0 m) (g <$> seq 0 m)
  = (λ i, h (f i) (g i)) <$> seq 0 m.
Proof.
  apply list_eq. intros i.
  rewrite lookup_zip_with, !list_lookup_fmap.
  by destruct (seq 0 m !! i).
Qed.

Lemma fmap_seq_ext {A : Type} (f g : nat → A) (m : nat) :
  (∀ i, (i < m)%nat → f i = g i) → f <$> seq 0 m = g <$> seq 0 m.
Proof.
  intros Hfg. apply list_fmap_ext. intros j i Hi.
  apply lookup_seq in Hi as [-> Hi]. by apply Hfg.
Qed.

Lemma vadd_zero (d : nat) (x : list Qc) :
  length x = d → zip_with Qcplus x (replicate d 0) = x.
Proof.
  intros <-. induction x as [|c x IH]; simpl; [done|].
  rewrite IH. f_equal. ring.
Qed.

Lemma over_1 (x : list Qc) : over 1 x = x.
Proof.
  unfold over. induction x as [|c x IH]; [done|].
  cbn [fmap list_fmap]. f_equal; [|exact IH].
  change (to_double (N.of_nat 1)) with (Qc_of_Z 1).
  rewrite Z2Qc_inj_1. by field.
Qed.

Lemma length_snoc {A : Type} (l : list A) (y : A) :
  length (l ++ [y]) = S (length l).
Proof. rewrite length_app. simpl. lia. Qed.

(** [alpha(i)] after one more sample. *)
Lemma alpha_step_closed (l : list valarray) (y : valarray) (i : nat) :
  (i < 10)%nat → (0 < length l)%nat →
  alpha_step y (to_double (N.of_nat (S (length l)))) (take 10 (reverse l))
    i (alpha_n (S i) l)
  = alpha_n (S i) (l ++ [y]).
Proof.
  intros Hi Hl. unfold alpha_step, alpha_n.
  rewrite lookup_take_lt by done. rewrite lagged_pairs_snoc, length_snoc.
  destruct (reverse l !! i) as [p|] eqn:Hp.
  - rewrite fmap_snoc, vsum_snoc. cbn [fst snd].
    by apply welford_average.
  - apply lookup_ge_None_1 in Hp. rewrite length_reverse in Hp.
    rewrite app_nil_r, lagged_pairs_short by lia.
    simpl. by rewrite !Qcdiv_0_l.
Qed.

(** [beta(i)] after one more sample. *)
Lemma beta_step_closed (d : nat) (l : list valarray) (y : valarray)
    (i : nat) :
  (i < 10)%nat → (0 < length l)%nat →
  beta_step y (to_double (N.of_nat (S (length l)))) (take 10 (reverse l))
    i (beta_n d (S i) l)
  = beta_n d (S i) (l ++ [y]).
Proof.
  intros Hi Hl. unfold beta_step, beta_n.
  rewrite lookup_take_lt by done. rewrite lagged_pairs_snoc, length_snoc.
  destruct (reverse l !! i) as [p|] eqn:Hp.
  - rewrite fmap_snoc, vector_sum_snoc. cbn [fst snd].
    by apply welford_average_vector.
  - apply lookup_ge_None_1 in Hp. rewrite length_reverse in Hp.
    rewrite app_nil_r, lagged_pairs_short by lia.
    simpl. by rewrite !over_zero.
Qed.

Lemma step_summary_fields (s : summary) (y : valarray) :
  mean (step_summary s y)
  = zip_with (welford (to_double (count s + 1))) (mean s) y
  ∧ lag_alpha (step_summary s y)
    = imap (alpha_step y (to_double (count s + 1)) (window s))
        (lag_alpha s)
  ∧ lag_beta (step_summary s y)
    = imap (beta_step y (to_double (count s + 1)) (window s)) (lag_beta s)
  ∧ window (step_summary s y)
    = y :: (if decide (count s < k)%N then window s
            else take (N.to_nat (k - 1)) (window s)).
Proof. unfold step_summary. by case_decide. Qed.

Lemma run_summary_snoc (s : summary) (rest : list valarray)
    (y : valarray) :
  run_summary s (rest ++ [y]) = step_summary (run_summary s rest) y.
Proof. unfold run_summary. apply foldl_snoc. Qed.

(** Up to the tenth sample every step is one of the branch
    [n_samples < k]. *)
Lemma run_summary_warm_up (samples : list valarray) (s : summary) :
  (count s + N.of_nat (length samples) ≤ k)%N →
  run_summary s samples = foldl warm_up_summary s samples.
Proof.
  revert s. unfold run_summary.
  induction samples as [|x rest IH]; intros s Hle; [done|].
  simpl in Hle. cbn [foldl]. unfold step_summary at 2.
  case_decide; [|lia]. apply IH. simpl. lia.
Qed.

(** The summary of a run holds the mean of the samples, the last ten of
    them, newest first, and for every lag the averages [alpha_n] and
    [beta_n] of the class documentation. *)
Lemma run_summary_closed_form (x : valarray) (rest : list valarray) :
  Forall (λ y, length y = length x) rest →
  mean (run_summary (first_summary x) rest)
  = sample_mean (length x) (x :: rest)
  ∧ window (run_summary (first_summary x) rest)
    = take 10 (reverse (x :: rest))
  ∧ lag_alpha (run_summary (first_summary x) rest)
    = (λ i, alpha_n (S i) (x :: rest)) <$> seq 0 10
  ∧ lag_beta (run_summary (first_summary x) rest)
    = (λ i, beta_n (length x) (S i) (x :: rest)) <$> seq 0 10.
Proof.
  induction rest as [|y rest IH] using rev_ind; intros Hall.
  - unfold run_summary. cbn [foldl first_summary mean window lag_alpha
                               lag_beta].
    rewrite to_nat_k. split; [|split; [done|split]].
    + unfold sample_mean, vector_sum. cbn [foldr length].
      by rewrite vadd_zero, over_1.
    + symmetry. apply fmap_seq_const. intros i. unfold alpha_n.
      rewrite lagged_pairs_short by (simpl; lia). simpl.
      by rewrite Qcdiv_0_l.
    + symmetry. apply fmap_seq_const. intros i. unfold beta_n.
      rewrite lagged_pairs_short by (simpl; lia). simpl.
      by rewrite over_zero.
  - apply Forall_app in Hall as [Hall Hy].
    apply Forall_singleton in Hy.
    destruct (IH Hall) as (Hmean & Hwindow & Halpha & Hbeta).
    rewrite run_summary_snoc.
    destruct (step_summary_fields (run_summary (first_summary x) rest) y)
      as (-> & -> & -> & ->).
    rewrite count_run. cbn [count first_summary].
    replace (1 + N.of_nat (length rest) + 1)%N
      with (N.of_nat (S (length (x :: rest)))) by (simpl; lia).
    rewrite Hmean, Hwindow, Halpha, Hbeta.
    change (x :: rest ++ [y]) with ((x :: rest) ++ [y]).
    split; [|split; [|split]].
    + unfold sample_mean. rewrite length_snoc, vector_sum_snoc.
      apply welford_average_vector. simpl. lia.
    + rewrite reverse_snoc. change (N.to_nat (k - 1)) with 9%nat.
      case_decide as Hcount.
      * assert (length (x :: rest) < 10)%nat as Hshort
          by (unfold k in Hcount; simpl in *; lia).
        rewrite take_ge by (rewrite length_reverse; lia).
        cbn [take]. by rewrite take_ge by (rewrite length_reverse; lia).
      * cbn [take]. by rewrite take_take.
    + rewrite imap_fmap_seq. apply fmap_seq_ext. intros i Hi.
      apply alpha_step_closed; simpl; lia.
    + rewrite imap_fmap_seq. apply fmap_seq_ext. intros i Hi.
      apply beta_step_closed; simpl; lia.
Qed.

(** After more than ten samples the exported values are those the last
    branch of [consume] stored. *)
Lemma gamma_run_steady (x : valarray) (rest : list valarray) :
  (10 < length (x :: rest))%nat →
  gamma (run_summary (first_summary x) rest)
  = zip_with
      (exported (N.of_nat (length (x :: rest)))
         (mean (run_summary (first_summary x) rest)))
      (lag_alpha (run_summary (first_summary x) rest))
      (lag_beta (run_summary (first_summary x) rest)).
Proof.
  intros Hlen. destruct rest as [|y rest _] using rev_ind.
  { simpl in Hlen. lia. }
  rewrite run_summary_snoc. unfold step_summary.
  rewrite count_run. cbn [count first_summary].
  cbn [length] in Hlen. rewrite length_app in Hlen. simpl in Hlen.
  case_decide as Hcount; [unfold k in Hcount; lia|].
  unfold steady_state_summary. cbn [gamma mean lag_alpha lag_beta].
  rewrite count_run. cbn [count first_summary].
  replace (N.of_nat (length (x :: rest ++ [y])))
    with (1 + N.of_nat (length rest) + 1)%N
    by (simpl; rewrite length_app; simpl; lia).
  done.
Qed.

Lemma lagged_pairs_dimension (d l : nat) (samples : list valarray) :
  Forall (λ y, length y = d) samples →
  Forall (λ p, length p.1 = d ∧ length p.2 = d) (lagged_pairs l samples).
Proof.
  intros Hall. apply Forall_lookup_2. intros i p Hp.
  unfold lagged_pairs in Hp.
  apply lookup_zip_with_Some in Hp as (a & b & -> & Ha & Hb).
  rewrite lookup_drop in Ha. simpl. split.
  - apply (Forall_lookup_1 _ _ _ _ Hall Ha).
  - apply (Forall_lookup_1 _ _ _ _ Hall Hb).
Qed.

(** The sum of the products of centred samples, expanded. *)
Lemma centred_sum (d : nat) (m : list Qc)
    (pairs : list (valarray * valarray)) :
  length m = d →
  Forall (λ p, length p.1 = d ∧ length p.2 = d) pairs →
  vsum ((λ p, dot (zip_with Qcminus p.1 m) (zip_with Qcminus p.2 m))
          <$> pairs)
  = vsum ((λ p, dot p.1 p.2) <$> pairs)
    - dot m (vector_sum d ((λ p, zip_with Qcplus p.1 p.2) <$> pairs))
    + to_double (N.of_nat (length pairs)) * dot m m.
Proof.
  intros Hm. induction 1 as [|[a b] pairs [Ha Hb] Hall IH].
  - cbn [fmap list_fmap length vsum foldr vector_sum].
    rewrite dot_zero. change (to_double (N.of_nat 0)) with (Qc_of_Z 0).
    rewrite Z2Qc_inj_0. ring.
  - simpl in Ha, Hb. cbn [fmap list_fmap length fst snd].
    change (vsum (?c :: ?l)) with (c + vsum l).
    change (vector_sum d (?v :: ?vs))
      with (zip_with Qcplus v (vector_sum d vs)).
    rewrite IH, to_double_S.
    rewrite dot_centered by congruence.
    rewrite (dot_add m (zip_with Qcplus a b)).
    + ring.
    + rewrite length_zip_with. lia.
    + rewrite length_vector_sum; [done|].
      apply Forall_fmap. eapply List.Forall_impl; [|exact Hall].
      intros [a' b'] [Ha' Hb']. simpl in *.
      rewrite length_zip_with. lia.
Qed.

(** What [consume] stores for a lag, against the autocovariance of the
    samples. *)
Lemma stored_value (d l : nat) (samples : list valarray) :
  samples ≠ [] →
  Forall (λ y, length y = d) samples →
  alpha_n l samples
  - dot (sample_mean d samples) (beta_n d l samples)
  = autocovariance d l samples
    - to_double (N.of_nat (length samples - l))
      / to_double (N.of_nat (length samples))
      * dot (sample_mean d samples) (sample_mean d samples).
Proof.
  intros Hne Hall. unfold alpha_n, beta_n, autocovariance.
  assert (length (sample_mean d samples) = d) as Hm.
  { unfold sample_mean, over. rewrite length_fmap.
    by apply length_vector_sum. }
  rewrite (centred_sum d _ _ Hm (lagged_pairs_dimension d l samples Hall)).
  rewrite dot_over, length_lagged_pairs.
  assert (to_double (N.of_nat (length samples)) ≠ 0) as Hnz.
  { apply to_double_nonzero. destruct samples; [done|]. simpl. lia. }
  by field.
Qed.

(** **** Runs that return *)

Lemma run_positive_dimension (d : nat) (samples : list valarray)
    (s : summary) (st st' : state) :
  represents d s st → consume_all st samples = Some st' →
  samples ≠ [] →
  (0 < d)%nat ∨ (count s + N.of_nat (length samples) ≤ k)%N.
Proof.
  revert s st. induction samples as [|y rest IH];
    intros s st Hrep Hrun Hne; [done|].
  simpl in Hrun. apply bind_Some in Hrun as (st1 & Hc & Hrun).
  destruct (consume_inv d s st st1 y Hrep Hc)
    as (_ & _ & _ & Hpos & Hrep1).
  destruct (decide (k ≤ count s)%N) as [Hk|Hk]; [left; by apply Hpos|].
  destruct rest as [|z rest].
  { right. simpl. lia. }
  destruct (IH _ _ Hrep1 Hrun) as [Hd|Hle]; [done|by left|].
  right. rewrite count_step in Hle. simpl in *. lia.
Qed.

(** The accumulator of [MeanValue] follows the running mean. *)
Lemma mean_value_step (d : nat) (s : summary) (st st' : state)
    (y : valarray) (m : MeanValue.state valarray) :
  represents d s st → consume st y = Some st' →
  MeanValue.current_mean m = current_mean st →
  MeanValue.n_samples m = n_samples st →
  ∃ m', MeanValue.consume (ST := MeanValue.valarray_sample) m y = Some m'
    ∧ MeanValue.current_mean m' = current_mean st'
    ∧ MeanValue.n_samples m' = n_samples st'.
Proof.
  intros Hrep Hc Hmean Hn.
  destruct (consume_inv d s st st' y Hrep Hc)
    as (Hy & _ & Hsmall & _ & Hrep').
  destruct Hrep as (Hn0 & Hcount & Hmean0 & Hlmean & _).
  destruct Hrep' as (Hn1 & _ & Hmean1 & _).
  rewrite count_step in Hn1.
  rewrite (proj1 (step_summary_fields s y)) in Hmean1.
  unfold MeanValue.consume. rewrite Hn, Hn0.
  destruct (decide (count s = 0%N)) as [Hz|_]; [lia|].
  rewrite sample_index_incr_small by done. cbn [MeanValue.sub_assign
    MeanValue.div_assign MeanValue.add_assign MeanValue.valarray_sample].
  rewrite Hmean, Hmean0.
  rewrite valarray_binop_Some by congruence. simpl.
  rewrite valarray_div_Some by (apply to_double_nonzero; lia). simpl.
  rewrite valarray_binop_Some
    by (rewrite length_fmap, length_zip_with; lia).
  simpl. eexists. split; [reflexivity|]. simpl.
  split; [|done]. by rewrite welford_zip.
Qed.

Lemma mean_value_run (d : nat) (samples : list valarray) (s : summary)
    (st st' : state) (m : MeanValue.state valarray) :
  represents d s st → consume_all st samples = Some st' →
  MeanValue.current_mean m = current_mean st →
  MeanValue.n_samples m = n_samples st →
  ∃ m', MeanValue.consume_all (ST := MeanValue.valarray_sample) m samples
        = Some m'
    ∧ MeanValue.current_mean m' = current_mean st'.
Proof.
  revert s st m. induction samples as [|y rest IH];
    intros s st m Hrep Hrun Hmean Hn.
  { simpl in Hrun. simplify_eq. by exists m. }
  simpl in Hrun. apply bind_Some in Hrun as (st1 & Hc & Hrun).
  destruct (mean_value_step d s st st1 y m Hrep Hc Hmean Hn)
    as (m1 & Hm1 & Hmean1 & Hn1).
  destruct (consume_inv d s st st1 y Hrep Hc) as (_ & _ & _ & _ & Hrep1).
  destruct (IH _ _ m1 Hrep1 Hrun Hmean1 Hn1) as (m' & Hm' & Hmean').
  exists m'. split; [|done]. simpl. rewrite Hm1. done.
Qed.

(** **** Properties of the accumulator *)

(** C8. After one to ten samples of a common dimension [get] returns
    the all-zero matrix with ten rows and one column. Each of the calls
    after the first takes the branch [n_samples < k], which updates
    [alpha], [beta] and the running mean by one step of their averages
    and pushes the sample into the window (the state holds the summary
    that [warm_up_summary] builds sample by sample, and the window the
    samples, newest first), and which leaves the exported values as
    they are. The eleventh call is the first after which [get] can
    return another value, and for eleven samples equal to 1 it
    does. *)
Theorem zero_through_ten_samples (d : nat) (samples : list valarray) :
  (1 ≤ length samples ≤ 10)%nat →
  Forall (λ x, length x = d) samples →
  (N.of_nat d < uint_modulus)%N →
  (∃ st x rest,
     samples = x :: rest
     ∧ consume_all Spurious_Autocovariance samples = Some st
     ∧ get st = zeros 10 1
     ∧ n_samples st = N.of_nat (length samples)
     ∧ represents d (foldl warm_up_summary (first_summary x) rest) st
     ∧ take (length samples) (past_sample st)
       = initialised (reverse samples)
     ∧ ∀ y, (length samples < 10)%nat → length y = d →
         ∃ st', consume st y = Some st'
           ∧ warm_up st y = Some st'
           ∧ represents d
               (warm_up_summary
                  (foldl warm_up_summary (first_summary x) rest) y)
               st'
           ∧ current_autocovariation st' = current_autocovariation st)
  ∧ ∃ st,
      consume_all Spurious_Autocovariance (replicate 11 [1]) = Some st
      ∧ get st
        = column ((λ z, Q2Qc (z # 11))
                    <$> [-10; -9; -8; -7; -6; -5; -4; -3; -2; -1]%Z)
      ∧ get st ≠ zeros 10 1.
Proof.
  intros Hlen Hall Hsize. split.
  - destruct samples as [|x rest]; [simpl in Hlen; lia|].
    inversion Hall as [|? ? Hx Hrest]; subst. simpl in Hlen.
    destruct (run_spec x rest) as (st & Hrun & Hrep);
      [done|done|unfold sample_index_modulus; simpl; lia
      |right; unfold k; simpl; lia|].
    assert (count (first_summary x) + N.of_nat (length rest) ≤ k)%N
      as Hwarm by (unfold k; simpl; lia).
    destruct (run_summary_closed_form x rest Hrest) as (_ & Hwindow & _).
    pose proof (gamma_run_warm_up rest (first_summary x) Hwarm) as Hzero.
    pose proof (count_run rest (first_summary x)) as Hcount.
    rewrite (run_summary_warm_up rest (first_summary x) Hwarm)
      in Hrep, Hwindow, Hzero, Hcount.
    set (s := foldl warm_up_summary (first_summary x) rest) in *.
    pose proof Hrep
      as (Hn & _ & _ & _ & _ & _ & _ & _ & _ & Hgamma & _ & Hpast & _).
    exists st, x, rest. split; [done|]. split; [done|].
    split; [by unfold get; rewrite Hgamma, Hzero|].
    split; [rewrite Hn, Hcount; simpl; lia|]. split; [done|]. split.
    + rewrite Hwindow in Hpast.
      rewrite (take_ge (reverse (x :: rest))) in Hpast
        by (rewrite length_reverse; simpl; lia).
      by rewrite length_reverse in Hpast.
    + intros y Hmore Hy.
      assert (count s < k)%N as Hbelow
        by (rewrite Hcount; unfold k; simpl in *; lia).
      rewrite <- Hy in Hrep, Hsize.
      destruct (warm_up_spec s st y Hrep Hsize Hbelow)
        as (st' & Hwarm' & Hrep').
      exists st'. rewrite Hy in Hrep'.
      assert (phase_of (n_samples st) = WarmUp) as Hphase.
      { apply phase_of_WarmUp. rewrite Hn, Hcount.
        unfold k. simpl in *. lia. }
      split; [by unfold consume; rewrite Hphase|]. split; [done|].
      split; [done|].
      destruct Hrep' as (_ & _ & _ & _ & _ & _ & _ & _ & _ & -> & _).
      by rewrite Hgamma.
  - destruct (run_spec [1] (replicate 10 [1])) as (st & Hrun & Hrep);
      [by apply Forall_replicate|done|done|left; simpl; lia|].
    destruct Hrep as (_ & _ & _ & _ & _ & _ & _ & _ & _ & Hgamma & _).
    exists st. split; [exact Hrun|]. unfold get. rewrite Hgamma.
    replace (gamma (run_summary (first_summary [1]) (replicate 10 [1])))
      with ((λ z, Q2Qc (z # 11))
              <$> [-10; -9; -8; -7; -6; -5; -4; -3; -2; -1]%Z)
      by (symmetry; compute_done).
    split; [done|]. by vm_compute.
Qed.

(** A sequence of calls on a new object returns exactly when the
    samples have one dimension, which the [unsigned int] loop counters
    can index, their number fits the counter of samples, and, past the
    tenth sample, the dimension is not zero ([sum()] of an empty
    valarray is undefined). *)
Theorem run_returns_exactly_when (x : valarray) (rest : list valarray) :
  is_Some (consume_all Spurious_Autocovariance (x :: rest))
  ↔ Forall (λ y, length y = length x) rest
    ∧ (N.of_nat (length x) < uint_modulus)%N
    ∧ (N.of_nat (length (x :: rest)) < sample_index_modulus)%N
    ∧ ((0 < length x)%nat ∨ (length (x :: rest) ≤ 10)%nat).
Proof.
  split.
  - intros [st Hrun].
    destruct (run_inv x rest st Hrun) as (Hall & Hsize & Hsmall & _).
    do 3 (split; [done|]).
    simpl in Hrun. apply bind_Some in Hrun as (st1 & Hc & Hrun).
    destruct (first_inv x st1 Hc) as (_ & Hrep1).
    destruct rest as [|y rest]; [right; simpl; lia|].
    destruct (run_positive_dimension _ _ _ _ _ Hrep1 Hrun) as [Hd|Hle];
      [done|by left|].
    right. unfold k in Hle. cbn [count first_summary length] in *. lia.
  - intros (Hall & Hsize & Hsmall & Hpos).
    destruct (run_spec x rest) as (st & Hrun & _);
      [done|done|done| |by exists st].
    destruct Hpos as [Hd|Hle]; [by left|].
    right. unfold k. cbn [length] in *. lia.
Qed.

(** The running mean is the value a [MeanValue] accumulator returns
    for the same samples, and in exact arithmetic it is the sum of the
    samples over their number. *)
Theorem running_mean_agrees_with_MeanValue (x : valarray)
    (rest : list valarray) (st : state) :
  consume_all Spurious_Autocovariance (x :: rest) = Some st →
  current_mean st = sample_mean (length x) (x :: rest)
  ∧ MeanValue.get
      <$> MeanValue.consume_all (ST := MeanValue.valarray_sample)
            (MeanValue.MeanValue (ST := MeanValue.valarray_sample))
            (x :: rest)
    = Some (current_mean st).
Proof.
  intros Hrun. split.
  - destruct (run_inv x rest st Hrun) as (Hall & _ & _ & Hrep).
    destruct (run_summary_closed_form x rest Hall) as (Hmean & _).
    destruct Hrep as (_ & _ & -> & _). done.
  - simpl in Hrun. apply bind_Some in Hrun as (st1 & Hc & Hrun).
    destruct (first_inv x st1 Hc) as (_ & Hrep1).
    pose proof Hrep1 as (Hn1 & _ & Hmean1 & _).
    destruct (mean_value_run (length x) rest (first_summary x) st1 st
                {| MeanValue.current_mean := x;
                   MeanValue.n_samples := 1 |} Hrep1 Hrun)
      as (m' & Hm' & Hmean'); [by rewrite Hmean1|by rewrite Hn1|].
    cbn [MeanValue.consume_all]. unfold MeanValue.consume at 1.
    simpl. rewrite Hm'. simpl. unfold MeanValue.get. by rewrite Hmean'.
Qed.

(** The window holds the last ten samples, newest first: row [i] of
    [past_sample] is the sample consumed [i] calls before the last. *)
Theorem window_holds_the_last_samples (x : valarray)
    (rest : list valarray) (st : state) (i : nat) (y : valarray) :
  consume_all Spurious_Autocovariance (x :: rest) = Some st →
  (i < 10)%nat →
  reverse (x :: rest) !! i = Some y →
  past_sample st !! i = Some (Some <$> y).
Proof.
  intros Hrun Hi Hy.
  destruct (run_inv x rest st Hrun) as (Hall & _ & _ & Hrep).
  destruct (run_summary_closed_form x rest Hall) as (_ & Hwindow & _).
  destruct Hrep as (_ & _ & _ & _ & _ & _ & _ & _ & _ & _ & _ & Hpast & _).
  apply (window_row _ _ _ _ Hpast).
  rewrite Hwindow. by rewrite lookup_take_lt.
Qed.

(** The accumulators are the averages of the class documentation: for
    the lag [l = i + 1], [alpha(i)] is the sum of the
    [x_{t+l}^T x_t] over the number of samples and row [i] of [beta]
    the sum of the [x_{t+l} + x_t] over the number of samples. *)
Theorem accumulators_hold_the_documented_averages (x : valarray)
    (rest : list valarray) (st : state) :
  consume_all Spurious_Autocovariance (x :: rest) = Some st →
  alpha st = column ((λ i, alpha_n (S i) (x :: rest)) <$> seq 0 10)
  ∧ beta st
    = initialised
        ((λ i, beta_n (length x) (S i) (x :: rest)) <$> seq 0 10).
Proof.
  intros Hrun.
  destruct (run_inv x rest st Hrun) as (Hall & _ & _ & Hrep).
  destruct (run_summary_closed_form x rest Hall)
    as (_ & _ & Halpha & Hbeta).
  destruct Hrep as (_ & _ & _ & _ & -> & _ & -> & _).
  by rewrite Halpha, Hbeta.
Qed.

(** In exact arithmetic, after more than ten samples the value [get]
    returns for the lag [l] is the autocovariance of the samples at
    that lag, as the class documentation defines it, less [(n-l)/n]
    times the inner product of their mean with itself. *)
Theorem exported_value_is_autocovariance_less_mean_term (x : valarray)
    (rest : list valarray) (st : state) :
  consume_all Spurious_Autocovariance (x :: rest) = Some st →
  (10 < length (x :: rest))%nat →
  get st
  = column
      ((λ i, autocovariance (length x) (S i) (x :: rest)
             - to_double (N.of_nat (length (x :: rest) - S i))
               / to_double (N.of_nat (length (x :: rest)))
               * dot (sample_mean (length x) (x :: rest))
                   (sample_mean (length x) (x :: rest)))
         <$> seq 0 10).
Proof.
  intros Hrun Hlen.
  destruct (run_inv x rest st Hrun) as (Hall & _ & _ & Hrep).
  destruct (run_summary_closed_form x rest Hall)
    as (Hmean & _ & Halpha & Hbeta).
  pose proof (gamma_run_steady x rest Hlen) as Hgamma.
  destruct Hrep as (_ & _ & _ & _ & _ & _ & _ & _ & _ & Hget & _).
  unfold get. rewrite Hget, Hgamma, Hmean, Halpha, Hbeta.
  rewrite zip_with_fmap_seq. f_equal. apply fmap_seq_ext. intros i Hi.
  rewrite exported_without_mean_term by (simpl; lia).
  apply stored_value; [done|]. by constructor.
Qed.

Lemma zero_through_ten_samples_witness :
  ∃ st, consume_all Spurious_Autocovariance (replicate 10 [1; Qc_of_Z 2])
        = Some st
    ∧ get st = zeros 10 1
    ∧ n_samples st = 10%N.
Proof.
  destruct (zero_through_ten_samples 2 (replicate 10 [1; Qc_of_Z 2]))
    as [(st & x & rest & _ & Hrun & Hget & Hn & _) _].
  - simpl. lia.
  - repeat constructor.
  - vm_compute. reflexivity.
  - exists st. split; [exact Hrun|]. split; [exact Hget|exact Hn].
Defined.

Lemma running_mean_agrees_with_MeanValue_witness :
  current_mean (after [[1; Qc_of_Z 2]; [Qc_of_Z 3; Qc_of_Z 6]])
  = sample_mean 2 [[1; Qc_of_Z 2]; [Qc_of_Z 3; Qc_of_Z 6]].
Proof.
  apply (running_mean_agrees_with_MeanValue [1; Qc_of_Z 2]
           [[Qc_of_Z 3; Qc_of_Z 6]]).
  vm_compute. reflexivity.
Defined.

Lemma window_holds_the_last_samples_witness :
  past_sample (after [[1; Qc_of_Z 2]; [Qc_of_Z 3; Qc_of_Z 6]]) !! 1%nat
  = Some (Some <$> [1; Qc_of_Z 2]).
Proof.
  apply (window_holds_the_last_samples [1; Qc_of_Z 2]
           [[Qc_of_Z 3; Qc_of_Z 6]]).
  - vm_compute. reflexivity.
  - lia.
  - reflexivity.
Defined.

Lemma accumulators_hold_the_documented_averages_witness :
  alpha (after [[1; Qc_of_Z 2]; [Qc_of_Z 3; Qc_of_Z 6]])
  = column ((λ i, alpha_n (S i) [[1; Qc_of_Z 2]; [Qc_of_Z 3; Qc_of_Z 6]])
              <$> seq 0 10).
Proof.
  apply (accumulators_hold_the_documented_averages [1; Qc_of_Z 2]
           [[Qc_of_Z 3; Qc_of_Z 6]]).
  vm_compute. reflexivity.
Defined.

Lemma exported_value_is_autocovariance_less_mean_term_witness :
  ∃ st,
    consume_all Spurious_Autocovariance
      ([Qc_of_Z 1] :: replicate 11 [Qc_of_Z 2]) = Some st
    ∧ get st
      = column
          ((λ i, autocovariance 1 (S i)
                   ([Qc_of_Z 1] :: replicate 11 [Qc_of_Z 2])
                 - to_double (N.of_nat (12 - S i)) / to_double 12
                   * dot (sample_mean 1
                            ([Qc_of_Z 1] :: replicate 11 [Qc_of_Z 2]))
                       (sample_mean 1
                          ([Qc_of_Z 1] :: replicate 11 [Qc_of_Z 2])))
             <$> seq 0 10).
Proof.
  destruct (run_spec [Qc_of_Z 1] (replicate 11 [Qc_of_Z 2]))
    as (st & Hrun & _).
  - by apply Forall_replicate.
  - vm_compute. reflexivity.
  - vm_compute. reflexivity.
  - left. simpl. lia.
  - exists st. split; [exact Hrun|].
    apply (exported_value_is_autocovariance_less_mean_term [Qc_of_Z 1]
             (replicate 11 [Qc_of_Z 2]) st Hrun).
    simpl. lia.
Defined.

End AutocovarianceProperties.
